(** * S3Uploader: a shallow embedding of [main.py]

    The program scans a folder, keeps the files whose name ends with one
    of the configured suffixes, and uploads each of them to S3 under the key
    [prefix/YYYY-MM-DD/filename] with a multipart upload, unless an object
    already answers at that key.

    Python values are modelled as follows.
    - [str] is [string]; [bytes] is [list byte]; [int] is [Z].
    - Every call that leaves the interpreter (boto3, [os], [open],
      [datetime.now], [logging]) is answered by an environment: a record
      of functions over an abstract world [W].  A call may raise, and it
      may change the world.
    - The program runs in a state and error monad.  The state is the
      world together with the chronological trace of the calls made so
      far and of their outcomes; the trace is what the theorems observe.
    - [print] writes to the standard output only and is left out. *)

From Stdlib Require Import List String Ascii ZArith NArith Lia Bool Arith.
From Stdlib Require Import Strings.Byte.
From Equations Require Import Equations.
From Equations.Prop Require Import Logic.
Import ListNotations.

Set Implicit Arguments.
Local Open Scope Z_scope.

(** ** Exceptions

    The instances of [Exception] that the calls of the program raise.
    [FileNotFoundError] is the subclass of [OSError] that a missing path
    gives; [OSError] stands for the other subclasses ([PermissionError],
    [NotADirectoryError], ...).  [ClientError] is botocore's error for a
    response with an error code (404, 403, 500, ...).  [KeyboardInterrupt]
    is not an [Exception] and is delivered to the main thread, never to
    the thread that runs a job. *)
Inductive exn : Type :=
| FileNotFoundError (path : string)
| NoCredentialsError
| KeyError (key : string)
| ClientError (code : string)
| OSError (errno : Z)
| OtherException (name : string).

(** The result of a Python call: an exception raised, or a value. *)
Definition result (A : Type) : Type := (exn + A)%type.

Definition raised {A} (r : result A) : bool :=
  match r with inl _ => true | inr _ => false end.

Definition returned {A} (r : result A) : bool := negb (raised r).

(** ** Data *)

(** One entry of the [parts] list:
    [{'PartNumber': part_number, 'ETag': response['ETag']}]. *)
Record part : Type := Part { PartNumber : Z; ETag : string }.

(** What [datetime.now()] gives, as far as [strftime('%Y-%m-%d')] reads
    it.  Python keeps [1 <= year <= 9999], [1 <= month <= 12] and
    [1 <= day <= 31]. *)
Record datetime : Type := Datetime { year : N; month : N; day : N }.

(** One entry of [config['backup_folders']], a dict after YAML parsing.
    A key that the dict does not hold is [None]. *)
Record Config : Type := {
  cfg_folder : option string;
  cfg_s3_bucket_name : option string;
  cfg_include : option (list string);
  cfg_prefix : option string
}.

(** The messages given to [logging.info]. *)
Inductive log_msg : Type :=
| LogUploaded (local_file_path s3_bucket_name s3_object_key : string)
| LogFileNotFound (local_file_path : string)
| LogNoCredentials
| LogJobError (e : exn).

(** ** Trace of the calls to the environment *)
Inductive event : Type :=
| EGetsize (path : string) (r : result Z)
| EOpen (path : string) (r : result (list byte))
| EListdir (path : string) (r : result (list string))
| ENow (d : datetime)
| ECreate (Bucket Key : string) (r : result string)
| EUploadPart (Bucket Key : string) (PartNumber : Z) (UploadId : string)
    (Body : list byte) (r : result string)
| EComplete (Bucket Key UploadId : string) (Parts : list part)
    (r : result unit)
| EHead (Bucket Key : string) (r : result unit)
| ELog (m : log_msg).

(** ** Environment

    [create_multipart_upload] returns [response['UploadId']] and
    [upload_part] returns [response['ETag']].  [open_rb] returns the
    content that the handle will read. *)
Record Env (W : Type) : Type := {
  os_path_getsize : string -> W -> result Z * W;
  os_listdir : string -> W -> result (list string) * W;
  open_rb : string -> W -> result (list byte) * W;
  datetime_now : W -> datetime * W;
  create_multipart_upload : string -> string -> W -> result string * W;
  upload_part :
    string -> string -> Z -> string -> list byte -> W -> result string * W;
  complete_multipart_upload :
    string -> string -> string -> list part -> W -> result unit * W;
  head_object : string -> string -> W -> result unit * W
}.

(** ** Strings *)

(** [str.endswith(suffix)]: the last [len(suffix)] characters of the
    string are compared with the suffix. *)
Definition endswith (s suffix : string) : bool :=
  let n := String.length s in
  let m := String.length suffix in
  (m <=? n)%nat && String.eqb (substring (n - m) m s) suffix.

(** [posixpath.join(a, b)]. *)
Definition startswith_slash (s : string) : bool :=
  match s with
  | String c _ => Ascii.eqb c "/"%char
  | EmptyString => false
  end.

Definition os_path_join (a b : string) : string :=
  if startswith_slash b then b
  else if (String.eqb a "" || endswith a "/")%bool then (a ++ b)%string
  else (a ++ "/" ++ b)%string.

(** Decimal digits of [strftime]. *)
Definition digit (n : N) : ascii :=
  ascii_of_N (48 + n mod 10)%N.

Definition pad2 (n : N) : string :=
  String (digit (n / 10)) (String (digit n) "").

Definition pad4 (n : N) : string :=
  String (digit (n / 1000)) (String (digit (n / 100)) (pad2 n)).

(** [d.strftime('%Y-%m-%d')]. *)
Definition strftime_Y_m_d (d : datetime) : string :=
  (pad4 (year d) ++ "-" ++ pad2 (month d) ++ "-" ++ pad2 (day d))%string.

(** [is_included(filename, include_patterns)]. *)
Fixpoint is_included (filename : string) (include_patterns : list string)
  : bool :=
  match include_patterns with
  | [] => false
  | pattern :: rest =>
      if endswith filename pattern then true else is_included filename rest
  end.

(** [file.read(size)] on the content that is left: the bytes read and
    the content left after them.  A negative size reads to the end. *)
Fixpoint read_upto (size : Z) (content : list byte)
  : list byte * list byte :=
  match content with
  | [] => ([], [])
  | b :: rest =>
      if size <=? 0 then ([], content)
      else let (data, left) := read_upto (size - 1) rest in (b :: data, left)
  end.

Definition file_read (size : Z) (content : list byte)
  : list byte * list byte :=
  if size <? 0 then (content, []) else read_upto size content.

(** ** The monad of the program *)

Section Program.

Variable W : Type.
Variable env : Env W.

Record state : Type := State { world : W; trace : list event }.

Definition M (A : Type) : Type := state -> result A * state.

Definition ret {A} (a : A) : M A := fun s => (inr a, s).

Definition raise {A} (e : exn) : M A := fun s => (inl e, s).

Definition bind {A B} (m : M A) (k : A -> M B) : M B :=
  fun s =>
    match m s with
    | (inl e, s') => (inl e, s')
    | (inr a, s') => k a s'
    end.

(** [try: body except ...: handler]; the handler is [None] on the
    exceptions that no [except] clause matches. *)
Definition try_except {A} (body : M A) (handler : exn -> option (M A))
  : M A :=
  fun s =>
    match body s with
    | (inl e, s') =>
        match handler e with
        | Some h => h s'
        | None => (inl e, s')
        end
    | (inr a, s') => (inr a, s')
    end.

(** A call to the environment, recorded in the trace with its outcome. *)
Definition call {A} (op : W -> result A * W) (ev : result A -> event)
  : M A :=
  fun s =>
    let (r, w) := op (world s) in
    (r, State w (trace s ++ [ev r])).

Definition logging_info (m : log_msg) : M unit :=
  fun s => (inr tt, State (world s) (trace s ++ [ELog m])).

(** [d[key]] on a dict. *)
Definition getitem {A} (o : option A) (key : string) : M A :=
  match o with
  | Some v => ret v
  | None => raise (KeyError key)
  end.

(** [d.get(key, default)]. *)
Definition dict_get {A} (o : option A) (default : A) : A :=
  match o with
  | Some v => v
  | None => default
  end.

End Program.

Arguments ret {W A} a s.
Arguments raise {W A} e s.
Arguments bind {W A B} m k s.
Arguments try_except {W A} body handler s.
Arguments call {W A} op ev s.
Arguments logging_info {W} m s.
Arguments getitem {W A} o key s.

Declare Scope py_scope.
Delimit Scope py_scope with py.
Notation "x <- m ;; k" := (bind m (fun x => k))
  (at level 100, m at next level, right associativity) : py_scope.
Notation "m ;;; k" := (bind m (fun _ => k))
  (at level 100, right associativity) : py_scope.
Local Open Scope py_scope.

(** ** The program *)

Section Main.

Variable W : Type.
Variable env : Env W.

Definition s3_create_multipart_upload (Bucket Key : string) : M W string :=
  call (create_multipart_upload env Bucket Key) (ECreate Bucket Key).

Definition s3_upload_part (Bucket Key : string) (PartNumber : Z)
  (UploadId : string) (Body : list byte) : M W string :=
  call (upload_part env Bucket Key PartNumber UploadId Body)
    (EUploadPart Bucket Key PartNumber UploadId Body).

Definition s3_complete_multipart_upload (Bucket Key UploadId : string)
  (Parts : list part) : M W unit :=
  call (complete_multipart_upload env Bucket Key UploadId Parts)
    (EComplete Bucket Key UploadId Parts).

Definition s3_head_object (Bucket Key : string) : M W unit :=
  call (head_object env Bucket Key) (EHead Bucket Key).

Definition getsize (path : string) : M W Z :=
  call (os_path_getsize env path) (EGetsize path).

Definition listdir (path : string) : M W (list string) :=
  call (os_listdir env path) (EListdir path).

Definition open_file (path : string) : M W (list byte) :=
  call (open_rb env path) (EOpen path).

Definition now : M W datetime :=
  fun s =>
    let (d, w) := datetime_now env (world s) in
    (inr d, State w (trace s ++ [ENow d])).

(** The [while True] loop of [upload_large_file_to_s3]: [file] is the
    content that the handle has not read yet. *)
Equations? upload_parts (part_size : Z) (s3_bucket_name s3_object_key
  upload_id : string) (file : list byte) (part_number : Z)
  (parts : list part) (s : state W) : result (list part) * state W
  by wf (List.length file) lt :=
upload_parts part_size s3_bucket_name s3_object_key upload_id file
  part_number parts s with inspect (file_read part_size file) := {
  | exist _ ([], _) _ => (inr parts, s)
  | exist _ (b :: data, rest) Hread
      with s3_upload_part s3_bucket_name s3_object_key part_number
             upload_id (b :: data) s := {
      | (inl e, s') => (inl e, s')
      | (inr etag, s') =>
          upload_parts part_size s3_bucket_name s3_object_key upload_id
            rest (part_number + 1) (parts ++ [Part part_number etag]) s' } }.
Proof.
  assert (Hupto : forall content size,
    (List.length (snd (read_upto size content))
     + List.length (fst (read_upto size content))
     = List.length content)%nat).
  { induction content as [|c content IH]; intros size; simpl;
      [reflexivity|].
    destruct (size <=? 0); simpl; [lia|].
    specialize (IH (size - 1)).
    destruct (read_upto (size - 1) content); simpl in *; lia. }
  specialize (Hupto file part_size).
  unfold file_read in Hread.
  destruct (part_size <? 0).
  - inversion Hread; subst; simpl; lia.
  - rewrite Hread in Hupto; simpl in Hupto; lia.
Qed.

(** [part_size = 5 * 1024 * 1024]. *)
Definition part_size : Z := 5 * 1024 * 1024.

(** [upload_large_file_to_s3(s3, local_file_path, s3_bucket_name,
    s3_object_key)].  [os.path.getsize] is called before the [try];
    the file is opened inside it, after the session is created. *)
Definition upload_large_file_to_s3 (local_file_path s3_bucket_name
  s3_object_key : string) : M W unit :=
  file_size <- getsize local_file_path ;;
  try_except
    (upload_id <- s3_create_multipart_upload s3_bucket_name s3_object_key ;;
     file <- open_file local_file_path ;;
     parts <- upload_parts part_size s3_bucket_name s3_object_key
                upload_id file 1 [] ;;
     s3_complete_multipart_upload s3_bucket_name s3_object_key upload_id
       parts ;;;
     logging_info
       (LogUploaded local_file_path s3_bucket_name s3_object_key))
    (fun e =>
       match e with
       | FileNotFoundError _ =>
           Some (logging_info (LogFileNotFound local_file_path))
       | NoCredentialsError => Some (logging_info LogNoCredentials)
       | _ => None
       end).

(** [get_current_date()]. *)
Definition get_current_date : M W string :=
  d <- now ;; ret (strftime_Y_m_d d).

(** [check_file_existence(s3, s3_bucket_name, s3_object_key)]. *)
Definition check_file_existence (s3_bucket_name s3_object_key : string)
  : M W bool :=
  try_except
    (s3_head_object s3_bucket_name s3_object_key ;;; ret true)
    (fun _ => Some (ret false)).

(** The [for filename in files_to_backup] loop of [backup_job]. *)
Fixpoint backup_loop (config : Config) (backup_folder s3_bucket_name
  : string) (files_to_backup : list string) : M W unit :=
  match files_to_backup with
  | [] => ret tt
  | filename :: rest =>
      current_date <- get_current_date ;;
      prefix <- getitem (cfg_prefix config) "prefix" ;;
      let fn := (prefix ++ "/" ++ current_date ++ "/" ++ filename)%string in
      found <- check_file_existence s3_bucket_name fn ;;
      (if negb found
       then upload_large_file_to_s3 (os_path_join backup_folder filename)
              s3_bucket_name fn
       else ret tt) ;;;
      backup_loop config backup_folder s3_bucket_name rest
  end.

(** [files_to_backup], the list comprehension of [backup_job]. *)
Definition files_to_backup (listing include_patterns : list string)
  : list string :=
  filter (fun file => is_included file include_patterns) listing.

(** [backup_job(config, s3)]. *)
Definition backup_job (config : Config) : M W unit :=
  try_except
    (backup_folder <- getitem (cfg_folder config) "folder" ;;
     s3_bucket_name <- getitem (cfg_s3_bucket_name config)
                         "s3_bucket_name" ;;
     let include_patterns := dict_get (cfg_include config) [] in
     listing <- listdir backup_folder ;;
     backup_loop config backup_folder s3_bucket_name
       (files_to_backup listing include_patterns))
    (fun e => Some (logging_info (LogJobError e))).

(** The jobs that the scheduler starts, when they run one after the
    other: the [BackgroundScheduler] of the main program calls
    [backup_job(folder_config, s3)] at every fire of a trigger.  Runs that
    overlap in time are not modelled. *)
Fixpoint run_jobs (configs : list Config) : M W unit :=
  match configs with
  | [] => ret tt
  | config :: rest => backup_job config ;;; run_jobs rest
  end.

End Main.

(** ** A small concrete environment, for running the program

    The world holds the objects of the store, the number of
    [upload_part] calls answered so far, and the date.  Every folder
    holds the listed files, every file holds [content], [head_object]
    raises a 404 [ClientError] on the keys that hold no object, a
    completion stores the object, and the [fail_at]-th call to
    [upload_part] raises [err] ([fail_at = 0]: no call raises). *)
Module Sim.

Record world : Type :=
  World { uploads : nat; objects : list (string * string); today : datetime }.

Definition stored (b k : string) (w : world) : bool :=
  existsb (fun o => String.eqb (fst o) b && String.eqb (snd o) k)
    (objects w).

Definition env (listing : list string) (content : list byte)
  (fail_at : nat) (err : exn) : Env world := {|
  os_path_getsize := fun _ w => (inr (Z.of_nat (List.length content)), w);
  os_listdir := fun _ w => (inr listing, w);
  open_rb := fun _ w => (inr content, w);
  datetime_now := fun w => (today w, w);
  create_multipart_upload := fun _ _ w => (inr "uid"%string, w);
  upload_part := fun _ _ _ _ _ w =>
    let w' := World (S (uploads w)) (objects w) (today w) in
    if Nat.eqb (S (uploads w)) fail_at then (inl err, w')
    else (inr "etag"%string, w');
  complete_multipart_upload := fun b k _ _ w =>
    (inr tt, World (uploads w) ((b, k) :: objects w) (today w));
  head_object := fun b k w =>
    if stored b k w then (inr tt, w) else (inl (ClientError "404"), w)
|}.

Definition init (d : datetime) (objs : list (string * string))
  : state world :=
  State (World 0 objs d) [].

(** A folder entry of [config.yaml]. *)
Definition config : Config := {|
  cfg_folder := Some "/data"%string;
  cfg_s3_bucket_name := Some "bk"%string;
  cfg_include := Some [".sql"%string];
  cfg_prefix := Some "db"%string
|}.

End Sim.

(** * Properties *)

(** ** Strings *)

Lemma substring_all (s : string) : substring 0 (String.length s) s = s.
Proof. induction s as [|c s IH]; simpl; congruence. Qed.

Lemma substring_append (q p : string) :
  substring (String.length q) (String.length p) (q ++ p) = p.
Proof. induction q as [|c q IH]; simpl; auto using substring_all. Qed.

Lemma length_append (q p : string) :
  String.length (q ++ p) = (String.length q + String.length p)%nat.
Proof. induction q as [|c q IH]; simpl; congruence. Qed.

Lemma substring_split (s : string) : forall k : nat,
  (k <= String.length s)%nat ->
  s = (substring 0 k s ++ substring k (String.length s - k) s)%string.
Proof.
  induction s as [|c s IH]; intros [|k] Hk; simpl in *;
    try reflexivity; try lia.
  - now rewrite substring_all.
  - f_equal. apply IH. lia.
Qed.

(** [endswith] holds exactly of the strings that are the suffix with
    something in front. *)
Lemma endswith_spec (s suffix : string) :
  endswith s suffix = true <-> exists q, s = (q ++ suffix)%string.
Proof.
  unfold endswith; rewrite andb_true_iff, Nat.leb_le, String.eqb_eq; split.
  - intros [Hle Hsub].
    exists (substring 0 (String.length s - String.length suffix) s).
    pose proof (@substring_split s
      (String.length s - String.length suffix)%nat) as Hsplit.
    replace (String.length s - (String.length s - String.length suffix))%nat
      with (String.length suffix) in Hsplit by lia.
    rewrite Hsub in Hsplit. apply Hsplit. lia.
  - intros [q ->]. rewrite length_append. split; [lia|].
    replace (String.length q + String.length suffix - String.length suffix)%nat
      with (String.length q) by lia.
    apply substring_append.
Qed.

Lemma is_included_spec (filename : string) (include_patterns : list string) :
  is_included filename include_patterns = true <->
  exists pattern, In pattern include_patterns
                  /\ endswith filename pattern = true.
Proof.
  induction include_patterns as [|p ps IH]; simpl.
  - split; [discriminate | intros (p & [] & _)].
  - destruct (endswith filename p) eqn:Hp.
    + split; [eauto | trivial].
    + rewrite IH; split; intros (q & Hq & Hend); eauto.
      destruct Hq as [<- | Hq]; [congruence | eauto].
Qed.

(** ** Reading a file *)

Lemma read_upto_firstn (content : list byte) : forall size : Z,
  read_upto size content
  = (firstn (Z.to_nat size) content, skipn (Z.to_nat size) content).
Proof.
  induction content as [|b rest IH]; intros size; simpl.
  - now rewrite firstn_nil, skipn_nil.
  - destruct (Z.leb_spec size 0) as [Hle | Hlt].
    + replace (Z.to_nat size) with 0%nat by lia. reflexivity.
    + rewrite IH.
      replace (Z.to_nat size) with (S (Z.to_nat (size - 1))) by lia.
      reflexivity.
Qed.

Lemma file_read_firstn (size : Z) (content : list byte) :
  0 <= size ->
  file_read size content
  = (firstn (Z.to_nat size) content, skipn (Z.to_nat size) content).
Proof.
  intros Hsize. unfold file_read.
  destruct (Z.ltb_spec size 0); [lia | apply read_upto_firstn].
Qed.

(** What a read leaves and what it returns make the content again. *)
Lemma file_read_app (size : Z) (content : list byte) :
  fst (file_read size content) ++ snd (file_read size content) = content.
Proof.
  unfold file_read. destruct (size <? 0); simpl.
  - apply app_nil_r.
  - rewrite read_upto_firstn. apply firstn_skipn.
Qed.

Lemma file_read_empty (size : Z) : file_read size [] = ([], []).
Proof. unfold file_read. now destruct (size <? 0). Qed.

Lemma file_read_nil (size : Z) (content : list byte) :
  0 < size -> fst (file_read size content) = [] -> content = [].
Proof.
  intros Hsize. rewrite file_read_firstn by lia. simpl.
  destruct content as [|b rest]; [reflexivity|].
  replace (Z.to_nat size) with (S (Z.to_nat (size - 1))) by lia.
  discriminate.
Qed.

Lemma file_read_data_length (size : Z) (content : list byte) :
  0 <= size ->
  Z.of_nat (List.length (fst (file_read size content)))
  = Z.min size (Z.of_nat (List.length content)).
Proof.
  intros Hsize. rewrite file_read_firstn by lia. simpl.
  rewrite length_firstn. lia.
Qed.

Lemma file_read_rest_length (size : Z) (content : list byte) :
  0 <= size ->
  Z.of_nat (List.length (snd (file_read size content)))
  = Z.max 0 (Z.of_nat (List.length content) - size).
Proof.
  intros Hsize. rewrite file_read_firstn by lia. simpl.
  rewrite length_skipn. lia.
Qed.


(** The bytes of [content] from [offset] on, at most [size] of them:
    what [file.read(size)] returns once [offset] bytes have been read. *)
Definition bytes_at (offset size : Z) (content : list byte) : list byte :=
  fst (file_read size (snd (file_read offset content))).

Lemma bytes_at_firstn (offset size : Z) (content : list byte) :
  0 <= offset -> 0 <= size ->
  bytes_at offset size content
  = firstn (Z.to_nat size) (skipn (Z.to_nat offset) content).
Proof.
  intros Hoff Hsize. unfold bytes_at.
  now rewrite !file_read_firstn by lia.
Qed.

(** ** The trace of the loop

    [part_run size Bucket Key UploadId file pn evs r]: reading [file] by
    blocks of [size] bytes and numbering the parts from [pn], the loop
    makes the calls [evs] and ends with [r], the new entries of [parts] or
    the exception of the call that raised. *)
Inductive part_run (size : Z) (Bucket Key UploadId : string)
  : list byte -> Z -> list event -> result (list part) -> Prop :=
| part_run_eof pn :
    part_run size Bucket Key UploadId [] pn [] (inr [])
| part_run_raise file pn e :
    file <> [] ->
    part_run size Bucket Key UploadId file pn
      [EUploadPart Bucket Key pn UploadId (fst (file_read size file)) (inl e)]
      (inl e)
| part_run_next file pn etag evs r :
    file <> [] ->
    part_run size Bucket Key UploadId (snd (file_read size file)) (pn + 1)
      evs r ->
    part_run size Bucket Key UploadId file pn
      (EUploadPart Bucket Key pn UploadId (fst (file_read size file))
         (inr etag) :: evs)
      (match r with
       | inl e => inl e
       | inr ps => inr (Part pn etag :: ps)
       end).

Section LoopTrace.

Variable W : Type.
Variable env : Env W.

Lemma call_inv {A} (op : W -> result A * W) (ev : result A -> event)
  (s s' : state W) (r : result A) :
  call op ev s = (r, s') ->
  op (world s) = (r, world s') /\ trace s' = trace s ++ [ev r].
Proof.
  unfold call. destruct (op (world s)) as [r0 w].
  intros [= <- <-]. simpl. auto.
Qed.

Lemma state_eta (s : state W) : s = State (world s) (trace s).
Proof. now destruct s. Qed.

(** The loop makes exactly the calls of a [part_run], and returns
    [parts] extended with the new entries. *)
Lemma upload_parts_run (size : Z) (Bucket Key UploadId : string)
  (file : list byte) (pn : Z) (parts : list part) (s : state W) :
  0 < size ->
  exists evs r w,
    part_run size Bucket Key UploadId file pn evs r
    /\ upload_parts env size Bucket Key UploadId file pn parts s
       = (match r with
          | inl e => inl e
          | inr ps => inr (parts ++ ps)
          end,
          State w (trace s ++ evs)).
Proof.
  intros Hsize.
  funelim (upload_parts env size Bucket Key UploadId file pn parts s);
    match goal with
    | Hread : file_read _ _ = _ |- _ =>
        pose proof (f_equal fst Hread) as Hdata;
        pose proof (f_equal snd Hread) as Hrest; simpl in Hdata, Hrest
    end.
  - exists [], (inr []), (world s).
    apply file_read_nil in Hdata as ->; [|assumption].
    rewrite !app_nil_r, <- state_eta. split; [constructor | reflexivity].
  - apply call_inv in Heq as [_ Htr].
    exists [EUploadPart s3_bucket_name s3_object_key part_number upload_id
              (b :: data) (inl e)], (inl e), (world s').
    rewrite <- Htr, <- state_eta, <- Hdata. split; [|reflexivity].
    constructor. intros ->. now rewrite file_read_empty in Hdata.
  - apply call_inv in Heq as [_ Htr].
    destruct H as (evs & r & w & Hrun & Heq); [assumption|].
    exists (EUploadPart s3_bucket_name s3_object_key part_number upload_id
              (b :: data) (inr etag) :: evs),
      (match r with
       | inl e => inl e
       | inr ps => inr (Part part_number etag :: ps)
       end), w.
    rewrite Heq, Htr, <- app_assoc, <- Hdata. simpl. split.
    + constructor; [|now rewrite Hrest].
      intros ->. now rewrite file_read_empty in Hdata.
    + destruct r; [reflexivity|]. now rewrite <- app_assoc.
Qed.

End LoopTrace.

(** ** The trace of one upload *)

(** The events that a run of [m] from [s] adds to the trace. *)
Definition events_of {W A} (m : M W A) (s : state W) : list event :=
  skipn (List.length (trace s)) (trace (snd (m s))).

Lemma events_of_eq {W A} (m : M W A) (s : state W) (r : result A) (w : W)
  (evs : list event) :
  m s = (r, State w (trace s ++ evs)) -> events_of m s = evs.
Proof.
  unfold events_of. intros ->. simpl.
  now rewrite skipn_app, skipn_all, Nat.sub_diag.
Qed.

(** What the two [except] clauses of [upload_large_file_to_s3] do with an
    exception raised inside the [try]: the events they add and the
    result of the function. *)
Definition handled (local_file_path : string) (e : exn)
  : list event * result unit :=
  match e with
  | FileNotFoundError _ => ([ELog (LogFileNotFound local_file_path)], inr tt)
  | NoCredentialsError => ([ELog LogNoCredentials], inr tt)
  | _ => ([], inl e)
  end.

Arguments part_size : simpl never.

Lemma part_size_pos : 0 < part_size.
Proof. reflexivity. Qed.

(** [upload_trace path Bucket Key evs r]: the calls that one run of
    [upload_large_file_to_s3] makes, and its result. *)
Inductive upload_trace (path Bucket Key : string)
  : list event -> result unit -> Prop :=
| upload_trace_getsize e :
    upload_trace path Bucket Key [EGetsize path (inl e)] (inl e)
| upload_trace_create size e :
    upload_trace path Bucket Key
      (EGetsize path (inr size) :: ECreate Bucket Key (inl e)
       :: fst (handled path e))
      (snd (handled path e))
| upload_trace_open size uid e :
    upload_trace path Bucket Key
      (EGetsize path (inr size) :: ECreate Bucket Key (inr uid)
       :: EOpen path (inl e) :: fst (handled path e))
      (snd (handled path e))
| upload_trace_part size uid file evs e :
    part_run part_size Bucket Key uid file 1 evs (inl e) ->
    upload_trace path Bucket Key
      (EGetsize path (inr size) :: ECreate Bucket Key (inr uid)
       :: EOpen path (inr file) :: evs ++ fst (handled path e))
      (snd (handled path e))
| upload_trace_complete_raise size uid file evs ps e :
    part_run part_size Bucket Key uid file 1 evs (inr ps) ->
    upload_trace path Bucket Key
      (EGetsize path (inr size) :: ECreate Bucket Key (inr uid)
       :: EOpen path (inr file)
       :: evs ++ EComplete Bucket Key uid ps (inl e) :: fst (handled path e))
      (snd (handled path e))
| upload_trace_complete size uid file evs ps :
    part_run part_size Bucket Key uid file 1 evs (inr ps) ->
    upload_trace path Bucket Key
      (EGetsize path (inr size) :: ECreate Bucket Key (inr uid)
       :: EOpen path (inr file)
       :: evs ++ [EComplete Bucket Key uid ps (inr tt);
                  ELog (LogUploaded path Bucket Key)])
      (inr tt).

Section UploadTrace.

Variable W : Type.
Variable env : Env W.

Lemma handled_run (path : string) (e : exn) (s : state W) :
  match
    match e with
    | FileNotFoundError _ => Some (logging_info (LogFileNotFound path))
    | NoCredentialsError => Some (logging_info LogNoCredentials)
    | _ => None
    end
  with
  | Some h => h s
  | None => (inl e, s)
  end
  = (snd (handled path e),
     State (world s) (trace s ++ fst (handled path e))).
Proof.
  destruct e; simpl; unfold logging_info;
    rewrite ?app_nil_r, <- ?state_eta; reflexivity.
Qed.

(** Every run of [upload_large_file_to_s3] returns, and its calls form
    an [upload_trace]. *)
Lemma upload_large_file_to_s3_trace (path Bucket Key : string)
  (s : state W) :
  exists evs r w,
    upload_trace path Bucket Key evs r
    /\ upload_large_file_to_s3 env path Bucket Key s
       = (r, State w (trace s ++ evs)).
Proof.
  unfold upload_large_file_to_s3, bind, try_except, getsize,
    s3_create_multipart_upload, open_file, s3_complete_multipart_upload,
    call.
  destruct (os_path_getsize env path (world s)) as [[e|size] w1]; simpl.
  { exists [EGetsize path (inl e)], (inl e), w1. split; [constructor|].
    reflexivity. }
  destruct (create_multipart_upload env Bucket Key w1) as [[e|uid] w2];
    simpl.
  { rewrite handled_run; simpl. do 3 eexists. split; [apply upload_trace_create|].
    rewrite <- !app_assoc. reflexivity. }
  destruct (open_rb env path w2) as [[e|file] w3]; simpl.
  { rewrite handled_run; simpl. do 3 eexists.
    split; [apply upload_trace_open|].
    rewrite <- !app_assoc. reflexivity. }
  match goal with
  | |- context [upload_parts env ?n ?b ?k ?u ?f ?p ?ps ?st] =>
      destruct (@upload_parts_run W env n b k u f p ps st)
        as (evs & r & w4 & Hrun & ->); [apply part_size_pos|]
  end.
  destruct r as [e|ps]; simpl.
  { rewrite handled_run; simpl. do 3 eexists.
    split; [eapply upload_trace_part; exact Hrun|].
    rewrite <- !app_assoc. reflexivity. }
  destruct (complete_multipart_upload env Bucket Key uid ps w4)
    as [[e|[]] w5]; simpl.
  { rewrite handled_run; simpl. do 3 eexists.
    split; [eapply upload_trace_complete_raise; exact Hrun|].
    rewrite <- !app_assoc. reflexivity. }
  unfold logging_info; simpl. do 3 eexists.
  split; [eapply upload_trace_complete; exact Hrun|].
  rewrite <- !app_assoc. reflexivity.
Qed.

End UploadTrace.

(** ** What a trace says about the parts *)

(** [start, start + 1, ...], [len] numbers. *)
Fixpoint zseq (start : Z) (len : nat) : list Z :=
  match len with
  | O => []
  | S len' => start :: zseq (start + 1) len'
  end.

(** The part numbers of the [upload_part] calls of a trace, in order. *)
Definition part_numbers (evs : list event) : list Z :=
  flat_map (fun ev =>
    match ev with
    | EUploadPart _ _ pn _ _ _ => [pn]
    | _ => []
    end) evs.

(** The bodies of the [upload_part] calls of a trace, in order. *)
Definition part_bodies (evs : list event) : list (list byte) :=
  flat_map (fun ev =>
    match ev with
    | EUploadPart _ _ _ _ body _ => [body]
    | _ => []
    end) evs.

(** The entries [{'PartNumber': n, 'ETag': tag}] of the [upload_part]
    calls of a trace that returned, in order. *)
Definition part_entries (evs : list event) : list part :=
  flat_map (fun ev =>
    match ev with
    | EUploadPart _ _ pn _ _ (inr etag) => [Part pn etag]
    | _ => []
    end) evs.

(** The [upload_part] calls of a trace that raised: part number and
    exception. *)
Definition part_failures (evs : list event) : list (Z * exn) :=
  flat_map (fun ev =>
    match ev with
    | EUploadPart _ _ pn _ _ (inl e) => [(pn, e)]
    | _ => []
    end) evs.

(** The [complete_multipart_upload] calls of a trace. *)
Definition completions (evs : list event)
  : list (string * string * string * list part * result unit) :=
  flat_map (fun ev =>
    match ev with
    | EComplete b k uid ps r => [(b, k, uid, ps, r)]
    | _ => []
    end) evs.

Lemma zseq_length (start : Z) (len : nat) :
  List.length (zseq start len) = len.
Proof. revert start; induction len; intros; simpl; auto. Qed.

Lemma zseq_nth (len : nat) : forall (start : Z) (i : nat),
  (i < len)%nat -> nth i (zseq start len) 0 = start + Z.of_nat i.
Proof.
  induction len as [|len IH]; intros start [|i] Hi; simpl; try lia.
  rewrite IH by lia. lia.
Qed.


Section PartRun.

Variable size : Z.
Variables Bucket Key UploadId : string.
Hypothesis size_pos : 0 < size.

Lemma part_run_numbers file pn evs r :
  part_run size Bucket Key UploadId file pn evs r ->
  part_numbers evs = zseq pn (List.length evs)
  /\ List.length (part_bodies evs) = List.length evs.
Proof.
  induction 1 as [pn | file pn e Hne | file pn etag evs r Hne Hrun [IH1 IH2]];
    simpl; auto.
  now rewrite IH1, IH2.
Qed.


Lemma file_read_nonempty (file : list byte) :
  file <> [] -> fst (file_read size file) <> [].
Proof. intros Hne Hnil. now apply file_read_nil in Hnil. Qed.

Lemma part_run_nonempty file pn evs r :
  part_run size Bucket Key UploadId file pn evs r ->
  Forall (fun body => body <> []) (part_bodies evs).
Proof.
  induction 1 as [pn | file pn e Hne | file pn etag evs r Hne Hrun IH];
    simpl; auto using file_read_nonempty.
Qed.

(** When the loop ends normally, every call returned, the entries are
    those of the calls, and the bodies put end to end are the file. *)
Lemma part_run_returned file pn evs ps :
  part_run size Bucket Key UploadId file pn evs (inr ps) ->
  ps = part_entries evs
  /\ map PartNumber ps = zseq pn (List.length ps)
  /\ List.length ps = List.length evs
  /\ part_failures evs = []
  /\ List.concat (part_bodies evs) = file.
Proof.
  remember (inr ps) as r eqn:Hr. intros Hrun. revert ps Hr.
  induction Hrun as [pn | file pn e Hne | file pn etag evs r Hne Hrun IH];
    intros ps Hr.
  - injection Hr as <-. simpl; auto.
  - discriminate.
  - destruct r as [e|ps']; [discriminate|]. injection Hr as <-.
    destruct (IH ps' eq_refl) as (-> & Hnum & Hlen & Hfail & Hcat).
    simpl. rewrite Hnum, Hlen, Hfail, Hcat, file_read_app. auto.
Qed.

(** When the loop ends with an exception, the call that raised it is
    the last one, and it is the only one that raised. *)
Lemma part_run_raised file pn evs e :
  part_run size Bucket Key UploadId file pn evs (inl e) ->
  exists evs' body,
    evs = evs' ++ [EUploadPart Bucket Key (pn + Z.of_nat (List.length evs'))
                     UploadId body (inl e)]
    /\ part_failures evs' = []
    /\ part_failures evs = [(pn + Z.of_nat (List.length evs'), e)].
Proof.
  remember (inl e) as r eqn:Hr. intros Hrun. revert Hr.
  induction Hrun as [pn | file pn e' Hne | file pn etag evs r Hne Hrun IH];
    intros Hr.
  - discriminate.
  - injection Hr as ->. exists [], (fst (file_read size file)). simpl.
    now rewrite Z.add_0_r.
  - destruct r as [e'|ps']; [|discriminate]. injection Hr as ->.
    destruct (IH eq_refl) as (evs' & body & -> & Hfail & Hall).
    exists (EUploadPart Bucket Key pn UploadId (fst (file_read size file))
              (inr etag) :: evs'), body.
    simpl.
    replace (pn + Z.pos (Pos.of_succ_nat (List.length evs')))
      with (pn + 1 + Z.of_nat (List.length evs')) by lia.
    auto.
Qed.

Lemma part_run_only_parts file pn evs r :
  part_run size Bucket Key UploadId file pn evs r ->
  completions evs = []
  /\ Forall (fun ev => exists p body rp,
               ev = EUploadPart Bucket Key p UploadId body rp) evs.
Proof.
  induction 1 as [pn | file pn e Hne | file pn etag evs r Hne Hrun [IH1 IH2]];
    simpl; split; eauto 8.
Qed.

(** When the loop ends normally on a file that is not empty, every
    body but the last has [size] bytes, and the last one has between 1
    and [size] bytes. *)
Lemma part_run_sizes file pn evs ps :
  part_run size Bucket Key UploadId file pn evs (inr ps) ->
  file <> [] ->
  exists bodies final,
    part_bodies evs = bodies ++ [final]
    /\ Forall (fun body => Z.of_nat (List.length body) = size) bodies
    /\ 0 < Z.of_nat (List.length final) <= size.
Proof.
  remember (inr ps) as r eqn:Hr. intros Hrun. revert ps Hr.
  induction Hrun as [pn | file pn e Hne | file pn etag evs r Hne Hrun IH];
    intros ps Hr Hfile.
  - congruence.
  - discriminate.
  - destruct r as [e|ps']; [discriminate|]. clear Hr.
    pose proof (@file_read_data_length size file ltac:(lia)) as Hdata.
    pose proof (@file_read_rest_length size file ltac:(lia)) as Hrest.
    assert (0 < Z.of_nat (List.length file)) as Hlen
      by (destruct file; [congruence | simpl; lia]).
    destruct (snd (file_read size file)) as [|b rest] eqn:Hsnd.
    + inversion Hrun; subst; try congruence.
      exists [], (fst (file_read size file)). simpl.
      repeat split; [constructor | lia | lia].
    + destruct (IH ps' eq_refl) as (bodies & final & Heq & Hall & Hfinal);
        [discriminate|].
      exists (fst (file_read size file) :: bodies), final.
      simpl. fold (part_bodies evs). rewrite Heq. repeat split; try lia.
      constructor; [|assumption]. simpl in Hrest. lia.
Qed.

End PartRun.

(** ** Rewriting the projections of a trace *)

Lemma part_numbers_app evs1 evs2 :
  part_numbers (evs1 ++ evs2) = part_numbers evs1 ++ part_numbers evs2.
Proof. apply flat_map_app. Qed.

Lemma part_bodies_app evs1 evs2 :
  part_bodies (evs1 ++ evs2) = part_bodies evs1 ++ part_bodies evs2.
Proof. apply flat_map_app. Qed.

Lemma part_entries_app evs1 evs2 :
  part_entries (evs1 ++ evs2) = part_entries evs1 ++ part_entries evs2.
Proof. apply flat_map_app. Qed.

Lemma part_failures_app evs1 evs2 :
  part_failures (evs1 ++ evs2) = part_failures evs1 ++ part_failures evs2.
Proof. apply flat_map_app. Qed.

Lemma completions_app evs1 evs2 :
  completions (evs1 ++ evs2) = completions evs1 ++ completions evs2.
Proof. apply flat_map_app. Qed.

Lemma handled_no_parts path e :
  part_numbers (fst (handled path e)) = []
  /\ part_bodies (fst (handled path e)) = []
  /\ part_entries (fst (handled path e)) = []
  /\ part_failures (fst (handled path e)) = []
  /\ completions (fst (handled path e)) = [].
Proof. destruct e; simpl; auto. Qed.

Lemma part_numbers_handled path e : part_numbers (fst (handled path e)) = [].
Proof. apply handled_no_parts. Qed.

Lemma part_bodies_handled path e : part_bodies (fst (handled path e)) = [].
Proof. apply handled_no_parts. Qed.

Lemma part_entries_handled path e : part_entries (fst (handled path e)) = [].
Proof. apply handled_no_parts. Qed.

Lemma part_failures_handled path e :
  part_failures (fst (handled path e)) = [].
Proof. apply handled_no_parts. Qed.

Lemma completions_handled path e : completions (fst (handled path e)) = [].
Proof. apply handled_no_parts. Qed.

Lemma part_numbers_cons ev evs :
  part_numbers (ev :: evs)
  = match ev with
    | EUploadPart _ _ pn _ _ _ => [pn]
    | _ => []
    end ++ part_numbers evs.
Proof. reflexivity. Qed.

Lemma part_bodies_cons ev evs :
  part_bodies (ev :: evs)
  = match ev with
    | EUploadPart _ _ _ _ body _ => [body]
    | _ => []
    end ++ part_bodies evs.
Proof. reflexivity. Qed.

Lemma part_entries_cons ev evs :
  part_entries (ev :: evs)
  = match ev with
    | EUploadPart _ _ pn _ _ (inr etag) => [Part pn etag]
    | _ => []
    end ++ part_entries evs.
Proof. reflexivity. Qed.

Lemma part_failures_cons ev evs :
  part_failures (ev :: evs)
  = match ev with
    | EUploadPart _ _ pn _ _ (inl e) => [(pn, e)]
    | _ => []
    end ++ part_failures evs.
Proof. reflexivity. Qed.

Lemma completions_cons ev evs :
  completions (ev :: evs)
  = match ev with
    | EComplete b k uid ps r => [(b, k, uid, ps, r)]
    | _ => []
    end ++ completions evs.
Proof. reflexivity. Qed.

Create Rewrite HintDb trace.
#[export] Hint Rewrite part_numbers_app part_bodies_app part_entries_app
  part_failures_app completions_app part_numbers_handled part_bodies_handled
  part_entries_handled part_failures_handled completions_handled
  part_numbers_cons part_bodies_cons part_entries_cons part_failures_cons
  completions_cons app_nil_r : trace.

(** Projections of the events around the loop. *)
Ltac trace_simpl := autorewrite with trace; simpl.

Section UploadEvents.

Variable W : Type.
Variable env : Env W.

(** The events of a run of [upload_large_file_to_s3] and its result
    form an [upload_trace]. *)
Lemma upload_events (path Bucket Key : string) (s : state W) :
  upload_trace path Bucket Key
    (events_of (upload_large_file_to_s3 env path Bucket Key) s)
    (fst (upload_large_file_to_s3 env path Bucket Key s)).
Proof.
  destruct (upload_large_file_to_s3_trace env path Bucket Key s)
    as (evs & r & w & Htrace & Heq).
  pose proof Heq as Hev. apply events_of_eq in Hev.
  rewrite Hev, Heq. exact Htrace.
Qed.

End UploadEvents.

Lemma part_run_empty size Bucket Key UploadId pn evs r :
  part_run size Bucket Key UploadId [] pn evs r -> evs = [] /\ r = inr [].
Proof. inversion 1; subst; auto; congruence. Qed.

Lemma sum_of_full_bodies (size : Z) (bodies : list (list byte)) :
  Forall (fun body => Z.of_nat (List.length body) = size) bodies ->
  Z.of_nat (list_sum (map (@List.length byte) bodies))
  = Z.of_nat (List.length bodies) * size.
Proof.
  induction 1 as [|body bodies Hbody Hall IH]; [reflexivity|].
  change (list_sum (map (@List.length byte) (body :: bodies)))
    with (List.length body + list_sum (map (@List.length byte) bodies))%nat.
  change (List.length (body :: bodies)) with (S (List.length bodies)).
  rewrite Nat2Z.inj_add, Nat2Z.inj_succ, IH, Hbody. ring.
Qed.

(** The only file that an [upload_trace] opens is the one that its
    [open] event shows. *)
Lemma upload_trace_opened path Bucket Key evs r file :
  upload_trace path Bucket Key evs r ->
  In (EOpen path (inr file)) evs ->
  exists size uid pevs rl tail,
    evs = EGetsize path (inr size) :: ECreate Bucket Key (inr uid)
          :: EOpen path (inr file) :: pevs ++ tail
    /\ part_run part_size Bucket Key uid file 1 pevs rl
    /\ match rl with
       | inl e => tail = fst (handled path e) /\ r = snd (handled path e)
       | inr ps =>
           exists rc,
             tail = EComplete Bucket Key uid ps rc
                    :: match rc with
                       | inl e => fst (handled path e)
                       | inr _ => [ELog (LogUploaded path Bucket Key)]
                       end
             /\ r = match rc with
                    | inl e => snd (handled path e)
                    | inr _ => inr tt
                    end
       end.
Proof.
  assert (Hparts : forall uid file' pevs rl tail,
    part_run part_size Bucket Key uid file' 1 pevs rl ->
    (forall ev, In ev tail -> forall f, ev <> EOpen path (inr f)) ->
    In (EOpen path (inr file))
      (EGetsize path (inr 0) :: ECreate Bucket Key (inr uid)
       :: EOpen path (inr file') :: pevs ++ tail) ->
    file' = file).
  { intros uid file' pevs rl tail Hrun Htail [Hin|[Hin|[Hin|Hin]]];
      try discriminate; [now injection Hin|].
    exfalso. apply in_app_or in Hin as [Hin|Hin].
    - apply part_run_only_parts, proj2 in Hrun.
      rewrite Forall_forall in Hrun.
      destruct (Hrun _ Hin) as (? & ? & ? & ?); discriminate.
    - now apply (Htail _ Hin file). }
  assert (Hhandled : forall e ev, In ev (fst (handled path e)) ->
    forall f, ev <> EOpen path (inr f)).
  { intros e ev Hin f ->. destruct e; simpl in Hin; intuition discriminate. }
  intros Htrace Hin.
  inversion Htrace as
    [ e | size e | size uid e | size uid file' pevs e Hrun
    | size uid file' pevs ps e Hrun | size uid file' pevs ps Hrun ];
    subst evs r.
  - destruct Hin as [Hin|[]]; discriminate.
  - destruct Hin as [Hin|[Hin|Hin]]; try discriminate.
    destruct (Hhandled _ _ Hin _ eq_refl).
  - destruct Hin as [Hin|[Hin|[Hin|Hin]]]; try discriminate.
    destruct (Hhandled _ _ Hin _ eq_refl).
  - assert (file' = file) as ->.
    { apply (Hparts uid file' pevs (inl e) (fst (handled path e)) Hrun);
        [apply Hhandled|].
      destruct Hin as [Hin|Hin]; [discriminate | now right]. }
    exists size, uid, pevs, (inl e), (fst (handled path e)). auto.
  - assert (file' = file) as ->.
    { apply (Hparts uid file' pevs (inr ps)
               (EComplete Bucket Key uid ps (inl e) :: fst (handled path e))
               Hrun).
      - intros ev [<-|Hev] f; [discriminate | now apply (Hhandled e)].
      - destruct Hin as [Hin|Hin]; [discriminate | now right]. }
    exists size, uid, pevs, (inr ps),
      (EComplete Bucket Key uid ps (inl e) :: fst (handled path e)).
    repeat split; auto. now exists (inl e).
  - assert (file' = file) as ->.
    { apply (Hparts uid file' pevs (inr ps)
               [EComplete Bucket Key uid ps (inr tt);
                ELog (LogUploaded path Bucket Key)] Hrun).
      - intros ev [<-|[<-|[]]] f; discriminate.
      - destruct Hin as [Hin|Hin]; [discriminate | now right]. }
    exists size, uid, pevs, (inr ps),
      [EComplete Bucket Key uid ps (inr tt);
       ELog (LogUploaded path Bucket Key)].
    repeat split; auto. now exists (inr tt).
Qed.


(** * The claims *)

(** ** The uploader: C2, C3, C5, C10 *)

Section Uploader.

Variable W : Type.
Variable env : Env W.


(** C3.  When [upload_large_file_to_s3] has opened a file that is not
    empty and reaches the completion call, the bodies of the
    [upload_part] calls put end to end are the content of the file,
    every body but the last has exactly 5 * 1024 * 1024 bytes, the last
    one has [size mod (5 * 1024 * 1024)] bytes when this is not zero,
    and the lengths of the bodies add up to the size of the file. *)
Theorem uploaded_parts_cover_file (path Bucket Key : string) (s : state W)
  (file : list byte) (b k uid : string) (Parts : list part)
  (r : result unit) :
  let evs := events_of (upload_large_file_to_s3 env path Bucket Key) s in
  let bodies := part_bodies evs in
  let size := Z.of_nat (List.length file) in
  In (EOpen path (inr file)) evs ->
  file <> [] ->
  In (b, k, uid, Parts, r) (completions evs) ->
  List.concat bodies = file
  /\ (forall i : nat,
        (S i < List.length bodies)%nat ->
        Z.of_nat (List.length (nth i bodies [])) = 5 * 1024 * 1024)
  /\ (size mod (5 * 1024 * 1024) <> 0 ->
      Z.of_nat (List.length (last bodies []))
      = size mod (5 * 1024 * 1024))
  /\ Z.of_nat (list_sum (map (@List.length byte) bodies)) = size.
Proof.
  intros evs bodies size Hopen Hfile Hcompl. subst bodies size.
  change (5 * 1024 * 1024) with part_size.
  pose proof part_size_pos as Hpos.
  destruct (upload_trace_opened _ (upload_events env path Bucket Key s) Hopen)
    as (sz & uid' & pevs & rl & tail & Hevs & Hrun & Htail).
  fold evs in Hevs. rewrite Hevs in *. clear Hevs evs.
  destruct (part_run_only_parts Hrun) as [Hnone _].
  destruct rl as [e|ps].
  { destruct Htail as [-> _]. revert Hcompl. trace_simpl.
    now rewrite Hnone. }
  destruct Htail as (rc & -> & _). clear Hcompl.
  assert (Hbodies : part_bodies
    (EGetsize path (inr sz) :: ECreate Bucket Key (inr uid')
     :: EOpen path (inr file) :: pevs
     ++ EComplete Bucket Key uid' ps rc
        :: match rc with
           | inl e => fst (handled path e)
           | inr _ => [ELog (LogUploaded path Bucket Key)]
           end) = part_bodies pevs).
  { destruct rc; trace_simpl; reflexivity. }
  rewrite Hbodies. clear Hbodies.
  destruct (part_run_returned Hrun) as (_ & _ & _ & _ & Hcat).
  destruct (part_run_sizes Hpos Hrun Hfile)
    as (full & final & Heq & Hfull & Hfinal).
  assert (Hsum : Z.of_nat (List.length file)
                 = Z.of_nat (List.length full) * part_size
                   + Z.of_nat (List.length final)).
  { rewrite <- Hcat at 1. rewrite length_concat, Heq, map_app, list_sum_app.
    rewrite Nat2Z.inj_add, (sum_of_full_bodies Hfull). simpl. lia. }
  rewrite Heq. repeat split.
  - now rewrite <- Heq.
  - intros i Hi. rewrite length_app in Hi. simpl in Hi.
    rewrite app_nth1 by lia.
    rewrite Forall_forall in Hfull. apply Hfull, nth_In. lia.
  - intros Hmod. rewrite last_last.
    assert (Z.of_nat (List.length final) <> part_size) as Hne.
    { intros Hfin. apply Hmod. rewrite Hsum, Hfin.
      replace (Z.of_nat (List.length full) * part_size + part_size)
        with ((Z.of_nat (List.length full) + 1) * part_size) by ring.
      apply Z_mod_mult. }
    rewrite Hsum, Z.add_comm, Z_mod_plus_full.
    symmetry. apply Z.mod_small. lia.
  - rewrite <- Heq, <- length_concat. now rewrite Hcat.
Qed.

(** C5, as the code has it.  When an [upload_part] call of
    [upload_large_file_to_s3] raises [e] for part [n], the call is the
    last [upload_part] call of the run and the only one that raised,
    [n] is the number of [upload_part] calls made,
    [complete_multipart_upload] is not called, and nothing but the log
    of an [except] clause follows.  The function raises [e] itself,
    which carries no part number, unless [e] is a [FileNotFoundError]
    or a [NoCredentialsError]: these two are logged and the function
    returns normally. *)
Theorem upload_part_failure_stops_upload (path Bucket Key : string)
  (s : state W) (n : Z) (e : exn) :
  let evs := events_of (upload_large_file_to_s3 env path Bucket Key) s in
  In (n, e) (part_failures evs) ->
  completions evs = []
  /\ part_failures evs = [(n, e)]
  /\ n = Z.of_nat (List.length (part_numbers evs))
  /\ (exists before uid body,
        evs = before ++ EUploadPart Bucket Key n uid body (inl e)
                        :: fst (handled path e)
        /\ part_failures before = [])
  /\ fst (upload_large_file_to_s3 env path Bucket Key s)
     = match e with
       | FileNotFoundError _ | NoCredentialsError => inr tt
       | _ => inl e
       end.
Proof.
  intros evs Hin. subst evs.
  pose proof (upload_events env path Bucket Key s) as Htrace.
  inversion Htrace as
    [ e' | size e' | size uid e' | size uid file pevs e' Hrun
    | size uid file pevs ps e' Hrun | size uid file pevs ps Hrun ];
    match goal with Hev : _ = events_of _ _ |- _ =>
      rewrite <- Hev in *; clear Hev end;
    clear Htrace; revert Hin; trace_simpl;
    try contradiction.
  - destruct (part_run_only_parts Hrun) as [Hnone _].
    destruct (part_run_numbers Hrun) as [Hnum Hlen].
    destruct (part_run_raised Hrun) as (before & body & Hevs & Hok & Hfail).
    assert (Hn : 1 + Z.of_nat (List.length before)
                 = Z.of_nat (List.length pevs))
      by (rewrite Hevs, length_app; cbn [List.length]; lia).
    rewrite Hfail, Hnone, Hnum, zseq_length.
    intros [[= <- <-]|[]]. repeat split.
    + exact Hn.
    + exists (EGetsize path (inr size) :: ECreate Bucket Key (inr uid)
              :: EOpen path (inr file) :: before), uid, body.
      rewrite Hevs, <- app_assoc. split; [reflexivity|].
      trace_simpl. exact Hok.
    + now destruct e'.
  - destruct (part_run_returned Hrun) as (_ & _ & _ & Hfail & _).
    now rewrite Hfail.
  - destruct (part_run_returned Hrun) as (_ & _ & _ & Hfail & _).
    now rewrite Hfail.
Qed.

(** C10.  When the file that [upload_large_file_to_s3] opens is empty,
    the run is: [getsize], [create_multipart_upload] (before the file
    is opened), the open, no [upload_part] call at all, and
    [complete_multipart_upload] with the upload id of the session and
    an empty list of parts, followed by the log line. *)
Theorem empty_file_upload (path Bucket Key : string) (s : state W) :
  let evs := events_of (upload_large_file_to_s3 env path Bucket Key) s in
  In (EOpen path (inr [])) evs ->
  exists size uid r,
    evs = EGetsize path (inr size) :: ECreate Bucket Key (inr uid)
          :: EOpen path (inr [])
          :: EComplete Bucket Key uid [] r
          :: match r with
             | inl e => fst (handled path e)
             | inr _ => [ELog (LogUploaded path Bucket Key)]
             end.
Proof.
  intros evs Hopen.
  destruct (upload_trace_opened _ (upload_events env path Bucket Key s) Hopen)
    as (sz & uid & pevs & rl & tail & Hevs & Hrun & Htail).
  apply part_run_empty in Hrun as [-> ->].
  destruct Htail as (rc & -> & _).
  exists sz, uid, rc. exact Hevs.
Qed.

End Uploader.

(** ** The selection of the files: C8 *)

(** C8.  A name of the listing is among [files_to_backup] exactly when it
    ends with one of the patterns of [config.get('include', [])], that
    is, when it is one of the patterns with something in front; with an
    empty list of patterns, or without the key [include], no file is
    selected. *)
Theorem selected_iff_suffix (config : Config) (listing : list string)
  (filename : string) :
  let include_patterns := dict_get (cfg_include config) [] in
  (In filename (files_to_backup listing include_patterns) <->
   In filename listing
   /\ exists pattern front,
        In pattern include_patterns
        /\ filename = (front ++ pattern)%string)
  /\ files_to_backup listing [] = []
  /\ (cfg_include config = None ->
      files_to_backup listing include_patterns = []).
Proof.
  intros include_patterns.
  assert (Hnone : files_to_backup listing [] = []).
  { unfold files_to_backup. induction listing; simpl; auto. }
  split; [|split; [exact Hnone|]].
  - unfold files_to_backup. rewrite filter_In, is_included_spec.
    split; intros [Hin (pattern & Hpat)]; split; trivial.
    + destruct Hpat as [Hpat Hend].
      apply endswith_spec in Hend as [front ->]. eauto.
    + destruct Hpat as (front & Hpat & ->).
      exists pattern. split; [assumption|].
      apply endswith_spec. eauto.
  - subst include_patterns. intros ->. exact Hnone.
Qed.

(** ** The trace of a job *)

(** The key that [backup_job] builds for a file:
    [config["prefix"] + "/" + current_date + "/" + filename]. *)
Definition destination_key (prefix : string) (d : datetime)
  (filename : string) : string :=
  (prefix ++ "/" ++ strftime_Y_m_d d ++ "/" ++ filename)%string.

(** [loop_trace prefix folder bucket files evs r]: the calls that the
    [for] loop of [backup_job] makes on [files], and how it ends: [inr tt]
    at the end of the list, or the exception that leaves the loop. *)
Inductive loop_trace (prefix : option string) (folder bucket : string)
  : list string -> list event -> result unit -> Prop :=
| loop_trace_done :
    loop_trace prefix folder bucket [] [] (inr tt)
| loop_trace_no_prefix f rest d :
    prefix = None ->
    loop_trace prefix folder bucket (f :: rest) [ENow d]
      (inl (KeyError "prefix"))
| loop_trace_skip f rest d p evs r :
    prefix = Some p ->
    loop_trace prefix folder bucket rest evs r ->
    loop_trace prefix folder bucket (f :: rest)
      (ENow d :: EHead bucket (destination_key p d f) (inr tt) :: evs) r
| loop_trace_raise f rest d p e uevs e' :
    prefix = Some p ->
    upload_trace (os_path_join folder f) bucket (destination_key p d f)
      uevs (inl e') ->
    loop_trace prefix folder bucket (f :: rest)
      (ENow d :: EHead bucket (destination_key p d f) (inl e) :: uevs)
      (inl e')
| loop_trace_upload f rest d p e uevs evs r :
    prefix = Some p ->
    upload_trace (os_path_join folder f) bucket (destination_key p d f)
      uevs (inr tt) ->
    loop_trace prefix folder bucket rest evs r ->
    loop_trace prefix folder bucket (f :: rest)
      (ENow d :: EHead bucket (destination_key p d f) (inl e)
       :: uevs ++ evs) r.

(** [job_trace config evs]: the calls that one run of [backup_job]
    makes. *)
Inductive job_trace (config : Config) : list event -> Prop :=
| job_trace_no_folder :
    cfg_folder config = None ->
    job_trace config [ELog (LogJobError (KeyError "folder"))]
| job_trace_no_bucket folder :
    cfg_folder config = Some folder ->
    cfg_s3_bucket_name config = None ->
    job_trace config [ELog (LogJobError (KeyError "s3_bucket_name"))]
| job_trace_listdir folder bucket e :
    cfg_folder config = Some folder ->
    cfg_s3_bucket_name config = Some bucket ->
    job_trace config [EListdir folder (inl e); ELog (LogJobError e)]
| job_trace_loop folder bucket listing evs r :
    cfg_folder config = Some folder ->
    cfg_s3_bucket_name config = Some bucket ->
    loop_trace (cfg_prefix config) folder bucket
      (files_to_backup listing (dict_get (cfg_include config) [])) evs r ->
    job_trace config
      (EListdir folder (inr listing)
       :: evs ++ match r with
                 | inl e => [ELog (LogJobError e)]
                 | inr _ => []
                 end).

Section JobTrace.

Variable W : Type.
Variable env : Env W.

(** [check_file_existence] makes one call, never raises, and answers
    [False] exactly when the call raised. *)
Lemma check_file_existence_run (Bucket Key : string) (s : state W) :
  check_file_existence env Bucket Key s
  = (inr (returned (fst (head_object env Bucket Key (world s)))),
     State (snd (head_object env Bucket Key (world s)))
       (trace s ++ [EHead Bucket Key
                      (fst (head_object env Bucket Key (world s)))])).
Proof.
  unfold check_file_existence, try_except, bind, s3_head_object, call.
  destruct (head_object env Bucket Key (world s)) as [[e|[]] w];
    reflexivity.
Qed.

(** One turn of the loop. *)
Lemma backup_loop_cons (config : Config) (folder bucket f : string)
  (rest : list string) (s : state W) :
  backup_loop env config folder bucket (f :: rest) s
  = let (d, w1) := datetime_now env (world s) in
    let s1 := State w1 (trace s ++ [ENow d]) in
    match cfg_prefix config with
    | None => (inl (KeyError "prefix"), s1)
    | Some p =>
        let key := destination_key p d f in
        let (r, w2) := head_object env bucket key w1 in
        let s2 := State w2 (trace s1 ++ [EHead bucket key r]) in
        match r with
        | inr _ => backup_loop env config folder bucket rest s2
        | inl _ =>
            match upload_large_file_to_s3 env (os_path_join folder f)
                    bucket key s2 with
            | (inl e', s3) => (inl e', s3)
            | (inr _, s3) => backup_loop env config folder bucket rest s3
            end
        end
    end.
Proof.
  unfold destination_key.
  cbn -[append strftime_Y_m_d upload_large_file_to_s3 os_path_join].
  unfold bind at 1. unfold get_current_date, bind at 1, now.
  destruct (datetime_now env (world s)) as [d w1].
  cbn -[append strftime_Y_m_d upload_large_file_to_s3 os_path_join].
  unfold bind at 1.
  destruct (cfg_prefix config) as [p|];
    cbn -[append strftime_Y_m_d upload_large_file_to_s3 os_path_join];
    [|reflexivity].
  unfold bind at 1. rewrite check_file_existence_run.
  cbn -[append strftime_Y_m_d upload_large_file_to_s3 os_path_join].
  destruct (head_object env bucket _ w1) as [[e|[]] w2];
    cbn -[append strftime_Y_m_d upload_large_file_to_s3 os_path_join];
    [|reflexivity].
  unfold bind at 1.
  destruct (upload_large_file_to_s3 env _ _ _ _) as [[e'|[]] s3];
    reflexivity.
Qed.

(** Every run of the loop ends, and its calls form a [loop_trace]. *)
Lemma backup_loop_trace (config : Config) (folder bucket : string)
  (files : list string) : forall s : state W,
  exists evs r w,
    loop_trace (cfg_prefix config) folder bucket files evs r
    /\ backup_loop env config folder bucket files s
       = (r, State w (trace s ++ evs)).
Proof.
  induction files as [|f rest IH]; intros s.
  { exists [], (inr tt), (world s).
    rewrite app_nil_r, <- state_eta. split; [constructor | reflexivity]. }
  rewrite backup_loop_cons.
  destruct (datetime_now env (world s)) as [d w1].
  destruct (cfg_prefix config) as [p|] eqn:Hp.
  2:{ exists [ENow d], (inl (KeyError "prefix")), w1.
      split; [now constructor | reflexivity]. }
  cbv zeta.
  destruct (head_object env bucket (destination_key p d f) w1)
    as [[e|[]] w2].
  - match goal with
    | |- context [upload_large_file_to_s3 env ?a ?b ?c ?st] =>
        destruct (upload_large_file_to_s3_trace env a b c st)
          as (uevs & ur & w3 & Hup & Heq)
    end.
    rewrite Heq. cbn [trace]. destruct ur as [e'|[]].
    + exists (ENow d :: EHead bucket (destination_key p d f) (inl e)
              :: uevs), (inl e'), w3.
      split; [now apply loop_trace_raise|].
      now rewrite <- !app_assoc.
    + match goal with
      | |- context [backup_loop env config folder bucket rest ?st] =>
          destruct (IH st) as (evs & r & w4 & Hloop & Heq')
      end.
      rewrite Heq'. cbn [trace].
      exists (ENow d :: EHead bucket (destination_key p d f) (inl e)
              :: uevs ++ evs), r, w4.
      split; [now apply loop_trace_upload|].
      now rewrite <- !app_assoc.
  - match goal with
    | |- context [backup_loop env config folder bucket rest ?st] =>
        destruct (IH st) as (evs & r & w4 & Hloop & Heq')
    end.
    rewrite Heq'. cbn [trace].
    exists (ENow d :: EHead bucket (destination_key p d f) (inr tt)
            :: evs), r, w4.
    split; [now apply loop_trace_skip|].
    now rewrite <- !app_assoc.
Qed.

(** Every run of [backup_job] returns [None], and its calls form a
    [job_trace]. *)
Lemma backup_job_trace (config : Config) (s : state W) :
  exists evs w,
    job_trace config evs
    /\ backup_job env config s = (inr tt, State w (trace s ++ evs)).
Proof.
  unfold backup_job, try_except, bind at 1.
  destruct (cfg_folder config) as [folder|] eqn:Hfolder; simpl.
  2:{ exists [ELog (LogJobError (KeyError "folder"))], (world s).
      split; [now constructor | reflexivity]. }
  unfold bind at 1.
  destruct (cfg_s3_bucket_name config) as [bucket|] eqn:Hbucket; simpl.
  2:{ exists [ELog (LogJobError (KeyError "s3_bucket_name"))], (world s).
      split; [now apply job_trace_no_bucket with folder | reflexivity]. }
  unfold bind at 1, listdir, call.
  destruct (os_listdir env folder (world s)) as [[e|listing] w1].
  { exists [EListdir folder (inl e); ELog (LogJobError e)], w1.
    split; [now apply job_trace_listdir with bucket|].
    unfold logging_info. cbn [world trace].
    now rewrite <- app_assoc. }
  match goal with
  | |- context [backup_loop env config folder bucket ?fs ?st] =>
      destruct (backup_loop_trace config folder bucket fs st)
        as (evs & r & w2 & Hloop & Heq)
  end.
  rewrite Heq. cbn [trace] in *.
  exists (EListdir folder (inr listing)
          :: evs ++ match r with
                    | inl e => [ELog (LogJobError e)]
                    | inr _ => []
                    end), w2.
  split; [now apply job_trace_loop with bucket|].
  destruct r as [e|[]]; unfold logging_info; cbn [world trace].
  - now rewrite <- !app_assoc.
  - now rewrite app_nil_r, <- !app_assoc.
Qed.

(** The events of a run of [backup_job] form a [job_trace]. *)
Lemma job_events (config : Config) (s : state W) :
  job_trace config (events_of (backup_job env config) s).
Proof.
  destruct (backup_job_trace config s) as (evs & w & Htrace & Heq).
  pose proof Heq as Hev. apply events_of_eq in Hev.
  rewrite Hev. exact Htrace.
Qed.

End JobTrace.

(** ** Where the events of an upload and of a loop sit *)

Lemma app_split_left {A} (P : A -> Prop) (x : A) (l1 l2 : list A) :
  Forall P l1 -> ~ P x ->
  forall b a, l1 ++ l2 = b ++ x :: a ->
  exists b', b = l1 ++ b' /\ l2 = b' ++ x :: a.
Proof.
  intros Hall Hx. induction Hall as [|y l1 Hy Hall IH]; intros b a Heq.
  - now exists b.
  - destruct b as [|y' b]; simpl in Heq.
    + injection Heq as -> _. contradiction.
    + injection Heq as -> Heq. destruct (IH _ _ Heq) as (b' & -> & ->).
      now exists b'.
Qed.

Lemma app_split_right {A} (P : A -> Prop) (x : A) (l2 : list A) :
  Forall P l2 -> ~ P x ->
  forall b l1 a, l1 ++ l2 = b ++ x :: a ->
  exists a', a = a' ++ l2 /\ l1 = b ++ x :: a'.
Proof.
  intros Hall Hx. rewrite Forall_forall in Hall.
  induction b as [|y b IH]; intros l1 a Heq.
  - destruct l1 as [|y l1]; simpl in Heq.
    + exfalso. apply Hx, Hall. rewrite Heq. now left.
    + injection Heq as -> Heq. now exists l1.
  - destruct l1 as [|y' l1]; simpl in Heq.
    + exfalso. apply Hx, Hall. rewrite Heq. right. apply in_elt.
    + injection Heq as -> Heq. destruct (IH _ _ Heq) as (a' & -> & ->).
      now exists a'.
Qed.

(** The events that [upload_large_file_to_s3] makes for a path, a bucket
    and a key: calls on this path, S3 calls on this bucket and key, and
    the log lines of the function. *)
Definition upload_event (path Bucket Key : string) (ev : event) : Prop :=
  match ev with
  | EGetsize p _ | EOpen p _ => p = path
  | ECreate b k _ | EUploadPart b k _ _ _ _ | EComplete b k _ _ _ =>
      b = Bucket /\ k = Key
  | ELog (LogJobError _) => False
  | ELog _ => True
  | EListdir _ _ | ENow _ | EHead _ _ _ => False
  end.

Lemma handled_events path Bucket Key e :
  Forall (upload_event path Bucket Key) (fst (handled path e)).
Proof. destruct e; simpl; repeat constructor. Qed.

Lemma part_run_events size path Bucket Key uid file pn evs r :
  part_run size Bucket Key uid file pn evs r ->
  Forall (upload_event path Bucket Key) evs.
Proof.
  intros Hrun. apply part_run_only_parts, proj2 in Hrun.
  eapply Forall_impl; [|exact Hrun].
  intros ev (p & body & rp & ->). simpl. auto.
Qed.

Lemma upload_trace_events path Bucket Key evs r :
  upload_trace path Bucket Key evs r ->
  Forall (upload_event path Bucket Key) evs.
Proof.
  pose proof (handled_events path Bucket Key) as Hh.
  inversion 1; subst;
    try match goal with
    | Hrun : part_run _ _ _ _ _ _ _ _ |- _ =>
        apply (part_run_events path) in Hrun
    end;
    repeat first
      [ apply Forall_cons; [simpl; auto|]
      | apply Forall_app; split
      | apply Forall_nil
      | apply Hh
      | assumption ].
Qed.

(** An upload starts with [os.path.getsize], and creates the session
    next when that call returns. *)
Lemma upload_trace_starts path Bucket Key evs r :
  upload_trace path Bucket Key evs r ->
  exists rg rest,
    evs = EGetsize path rg :: rest
    /\ match rg with
       | inl e => rest = [] /\ r = inl e
       | inr _ => exists rc rest', rest = ECreate Bucket Key rc :: rest'
       end.
Proof.
  inversion 1; subst; do 2 eexists; (split; [reflexivity|]); simpl; eauto.
Qed.

(** A loop that makes a call starts with the clock. *)
Lemma loop_trace_starts prefix folder bucket files evs r :
  loop_trace prefix folder bucket files evs r ->
  evs = [] \/ exists d rest, evs = ENow d :: rest.
Proof. inversion 1; subst; eauto. Qed.

(** Around an existence check of the loop: the clock is read just
    before, the key is the one of a file of the list, and what follows is
    nothing when the object exists, and the upload of the file otherwise;
    then the loop goes on with the clock, or ends. *)
Lemma loop_trace_head prefix folder bucket files evs r :
  loop_trace prefix folder bucket files evs r ->
  forall before b k rh after,
    evs = before ++ EHead b k rh :: after ->
    exists before' d p f uevs rest,
      before = before' ++ [ENow d]
      /\ prefix = Some p /\ In f files
      /\ b = bucket /\ k = destination_key p d f
      /\ after = uevs ++ rest
      /\ match rh with
         | inr _ => uevs = []
         | inl _ =>
             exists ur,
               upload_trace (os_path_join folder f) bucket k uevs ur
               /\ match ur with
                  | inl e' => rest = [] /\ r = inl e'
                  | inr _ => True
                  end
         end
      /\ (rest = [] \/ exists d' rest', rest = ENow d' :: rest').
Proof.
  assert (Hnot : forall path B K b k rh,
            ~ upload_event path B K (EHead b k rh)) by (intros; exact id).
  induction 1 as
    [ | f files d Hp | f files d p evs r Hp Hloop IH
    | f files d p e uevs e' Hp Hup
    | f files d p e uevs evs r Hp Hup Hloop IH ];
    intros before b k rh after Heq.
  - now destruct before.
  - destruct before as [|? [|? ?]]; discriminate.
  - destruct before as [|x [|y before]]; try discriminate.
    + injection Heq as <- <- <- <- <-.
      exists [], d, p, f, [], evs. simpl.
      repeat split; auto. now apply loop_trace_starts in Hloop.
    + injection Heq as <- <- Heq.
      destruct (IH _ _ _ _ _ Heq)
        as (before' & d' & p' & f' & uevs & rest & -> & ? & ? & ? & ? & ?).
      exists (ENow d :: EHead bucket (destination_key p d f) (inr tt)
              :: before'), d', p', f', uevs, rest.
      simpl. intuition.
  - destruct before as [|x [|y before]]; try discriminate.
    + injection Heq as <- <- <- <- <-.
      exists [], d, p, f, uevs, []. rewrite app_nil_r. simpl.
      repeat split; auto. exists (inl e'). auto.
    + injection Heq as <- <- Heq. exfalso.
      apply upload_trace_events in Hup. rewrite Forall_forall in Hup.
      apply (Hup (EHead b k rh)). rewrite Heq. apply in_elt.
  - destruct before as [|x [|y before]]; try discriminate.
    + injection Heq as <- <- <- <- <-.
      exists [], d, p, f, uevs, evs. simpl.
      repeat split; auto; [|now apply loop_trace_starts in Hloop].
      exists (inr tt). split; [assumption | exact I].
    + injection Heq as <- <- Heq.
      apply upload_trace_events in Hup.
      destruct (@app_split_left _ _ _ _ _ Hup (Hnot _ _ _ b k rh) _ _ Heq)
        as (before2 & -> & Heq2).
      destruct (IH _ _ _ _ _ Heq2)
        as (before' & d' & p' & f' & uevs' & rest & -> & ? & ? & ? & ? & ?).
      exists (ENow d :: EHead bucket (destination_key p d f) (inl e)
              :: uevs ++ before'), d', p', f', uevs', rest.
      simpl. rewrite <- app_assoc. intuition.
Qed.

(** The same around an existence check of a job: the listing comes
    first, and the log line of the [except] clause of [backup_job] may
    end the run. *)
Lemma job_trace_head config evs :
  job_trace config evs ->
  forall before b k rh after,
    evs = before ++ EHead b k rh :: after ->
    exists folder listing before' d p f uevs rest,
      cfg_folder config = Some folder
      /\ cfg_s3_bucket_name config = Some b
      /\ cfg_prefix config = Some p
      /\ before = EListdir folder (inr listing) :: before' ++ [ENow d]
      /\ In f (files_to_backup listing (dict_get (cfg_include config) []))
      /\ k = destination_key p d f
      /\ after = uevs ++ rest
      /\ match rh with
         | inr _ => uevs = []
         | inl _ =>
             exists ur,
               upload_trace (os_path_join folder f) b k uevs ur
               /\ match ur with
                  | inl e' => rest = [ELog (LogJobError e')]
                  | inr _ => True
                  end
         end
      /\ (rest = [] \/ (exists d' rest', rest = ENow d' :: rest')
          \/ exists e, rest = [ELog (LogJobError e)]).
Proof.
  inversion 1 as
    [ Hf | folder Hf Hb | folder bucket e Hf Hb
    | folder bucket listing levs r Hf Hb Hloop ];
    intros before b k rh after Heq.
  - destruct before as [|? [|? ?]]; discriminate.
  - destruct before as [|? [|? ?]]; discriminate.
  - destruct before as [|? [|? [|? ?]]]; discriminate.
  - destruct before as [|x before]; [discriminate|].
    injection Heq as <- Heq.
    assert (Htail : Forall (fun ev => exists m, ev = ELog m)
                      match r with
                      | inl e => [ELog (LogJobError e)]
                      | inr _ => []
                      end)
      by (destruct r; repeat constructor; eauto).
    assert (Hhead : ~ exists m, EHead b k rh = ELog m)
      by (intros [m Hm]; discriminate).
    destruct (@app_split_right _ _ _ _ Htail Hhead _ _ _ Heq)
      as (after' & -> & Hlevs).
    destruct (loop_trace_head Hloop _ _ _ _ _ Hlevs)
      as (before' & d & p & f & uevs & rest & -> & Hp & Hin & -> & -> & ->
          & Hup & Hrest).
    exists folder, listing, before', d, p, f, uevs,
      (rest ++ match r with
               | inl e => [ELog (LogJobError e)]
               | inr _ => []
               end).
    rewrite <- app_assoc. repeat split; auto.
    + destruct rh as [e|[]]; [|assumption].
      destruct Hup as (ur & Hup & Hur). exists ur. split; [assumption|].
      destruct ur as [e'|]; [|trivial]. now destruct Hur as [-> ->].
    + destruct Hrest as [-> | (d' & rest' & ->)].
      * destruct r; simpl; eauto.
      * right. left. simpl. eauto.
Qed.

(** ** Runs of the uploader on the small environment *)

Module Runs.

Definition date : datetime := Datetime 2024 3 1.

(** A file of two bytes, every call returns. *)
Definition upload_ok : M Sim.world unit :=
  upload_large_file_to_s3 (Sim.env [] [x00; x01] 0 NoCredentialsError)
    "/data/a.sql" "bk" "db/2024-03-01/a.sql".

(** A file of one byte, the first [upload_part] raises
    [NoCredentialsError]. *)
Definition upload_no_credentials : M Sim.world unit :=
  upload_large_file_to_s3 (Sim.env [] [x00] 1 NoCredentialsError)
    "/data/a.sql" "bk" "db/2024-03-01/a.sql".

(** An empty file. *)
Definition upload_empty : M Sim.world unit :=
  upload_large_file_to_s3 (Sim.env [] [] 0 NoCredentialsError)
    "/data/a.sql" "bk" "db/2024-03-01/a.sql".

(** The folder holds [a.sql] and [y.tmp], of one byte each; every call
    of the upload returns. *)
Definition env_ok : Env Sim.world :=
  Sim.env ["a.sql"; "y.tmp"]%string [x00] 0 NoCredentialsError.

(** The folder holds [a.sql] and [b.sql]; the first [upload_part] call
    raises a 500 [ClientError]. *)
Definition env_500 : Env Sim.world :=
  Sim.env ["a.sql"; "b.sql"]%string [x00] 1 (ClientError "500").

(** The same, the first [upload_part] call raises
    [NoCredentialsError]. *)
Definition env_no_credentials : Env Sim.world :=
  Sim.env ["a.sql"; "b.sql"]%string [x00] 1 NoCredentialsError.

Definition key_a : string := "db/2024-03-01/a.sql".
Definition key_b : string := "db/2024-03-01/b.sql".

(** The store is empty. *)
Definition empty_store : state Sim.world := Sim.init date [].

(** The store holds the object of [a.sql] for the day. *)
Definition store_with_a : state Sim.world :=
  Sim.init date [("bk"%string, key_a)].

End Runs.


Lemma uploaded_parts_cover_file_witness :
  let evs := events_of Runs.upload_ok (Sim.init Runs.date []) in
  (In (EOpen "/data/a.sql" (inr [x00; x01])) evs
   /\ [x00; x01] <> []
   /\ In ("bk"%string, "db/2024-03-01/a.sql"%string, "uid"%string,
          [Part 1 "etag"], inr tt) (completions evs))
  /\ List.concat (part_bodies evs) = [x00; x01]
  /\ Z.of_nat (list_sum (map (@List.length byte) (part_bodies evs))) = 2.
Proof.
  intros evs.
  assert (Hhyp : In (EOpen "/data/a.sql" (inr [x00; x01])) evs
                 /\ [x00; x01] <> []
                 /\ In ("bk"%string, "db/2024-03-01/a.sql"%string,
                        "uid"%string, [Part 1 "etag"], inr tt)
                      (completions evs)).
  { vm_compute. repeat split; auto. discriminate. }
  split; [exact Hhyp|].
  destruct Hhyp as (Hopen & Hne & Hcompl).
  destruct (@uploaded_parts_cover_file _
              (Sim.env [] [x00; x01] 0 NoCredentialsError)
              "/data/a.sql" "bk" "db/2024-03-01/a.sql"
              (Sim.init Runs.date []) _ _ _ _ _ _ Hopen Hne Hcompl)
    as (Hcat & _ & _ & Hsum).
  split; [exact Hcat | exact Hsum].
Defined.

(** C5, as the spec states it, fails: the first [upload_part] call of
    this run raises, and the upload does not fail: the function logs
    the missing credentials and returns normally. *)
Lemma part_failure_returns_normally :
  In (1, NoCredentialsError)
    (part_failures
       (events_of Runs.upload_no_credentials (Sim.init Runs.date [])))
  /\ fst (Runs.upload_no_credentials (Sim.init Runs.date [])) = inr tt.
Proof. vm_compute. auto. Qed.

Lemma upload_part_failure_stops_upload_witness :
  let evs := events_of Runs.upload_no_credentials (Sim.init Runs.date []) in
  In (1, NoCredentialsError) (part_failures evs)
  /\ completions evs = []
  /\ part_failures evs = [(1, NoCredentialsError)]
  /\ fst (Runs.upload_no_credentials (Sim.init Runs.date [])) = inr tt.
Proof.
  intros evs.
  assert (Hhyp : In (1, NoCredentialsError) (part_failures evs))
    by (vm_compute; auto).
  split; [exact Hhyp|].
  destruct (@upload_part_failure_stops_upload _
              (Sim.env [] [x00] 1 NoCredentialsError)
              "/data/a.sql" "bk" "db/2024-03-01/a.sql"
              (Sim.init Runs.date []) 1 NoCredentialsError Hhyp)
    as (Hcompl & Hfail & _ & _ & Hres).
  split; [exact Hcompl|]. split; [exact Hfail | exact Hres].
Defined.

Lemma empty_file_upload_witness :
  let evs := events_of Runs.upload_empty (Sim.init Runs.date []) in
  In (EOpen "/data/a.sql" (inr [])) evs
  /\ exists size uid r,
       evs = EGetsize "/data/a.sql" (inr size)
             :: ECreate "bk" "db/2024-03-01/a.sql" (inr uid)
             :: EOpen "/data/a.sql" (inr [])
             :: EComplete "bk" "db/2024-03-01/a.sql" uid [] r
             :: match r with
                | inl e => fst (handled "/data/a.sql" e)
                | inr _ => [ELog (LogUploaded "/data/a.sql" "bk"
                                    "db/2024-03-01/a.sql")]
                end.
Proof.
  intros evs.
  assert (Hhyp : In (EOpen "/data/a.sql" (inr [])) evs)
    by (vm_compute; auto).
  split; [exact Hhyp|].
  exact (@empty_file_upload _ (Sim.env [] [] 0 NoCredentialsError)
           "/data/a.sql" "bk" "db/2024-03-01/a.sql"
           (Sim.init Runs.date []) Hhyp).
Defined.

Lemma selected_iff_suffix_witness :
  let config := Build_Config (Some "/data"%string) (Some "bk"%string) None
                  (Some "db"%string) in
  cfg_include config = None
  /\ files_to_backup ["x.log"; "y.tmp"]%string
       (dict_get (cfg_include config) []) = [].
Proof.
  intros config. split; [reflexivity|].
  exact (proj2 (proj2 (selected_iff_suffix config ["x.log"; "y.tmp"]%string
                         "x.log")) eq_refl).
Defined.

(** ** Uploads and existence checks along a trace *)

(** The bucket and the key of a call of the multipart upload. *)
Definition upload_key (ev : event) : option (string * string) :=
  match ev with
  | ECreate b k _ | EUploadPart b k _ _ _ _ | EComplete b k _ _ _ =>
      Some (b, k)
  | _ => None
  end.

Definition same_object (b k b' k' : string) : bool :=
  String.eqb b b' && String.eqb k k'.

(** The number of [complete_multipart_upload] calls on [(b, k)] that
    returned. *)
Fixpoint completed (b k : string) (evs : list event) : nat :=
  match evs with
  | [] => 0
  | EComplete b' k' _ _ (inr _) :: rest =>
      (if same_object b k b' k' then 1 else 0) + completed b k rest
  | _ :: rest => completed b k rest
  end.

(** The store keeps its objects and its existence check sees them: once
    a completion on [(b, k)] has returned ([done]), no existence check
    of [(b, k)] raises. *)
Fixpoint check_sees_uploads (b k : string) (done : bool)
  (evs : list event) : bool :=
  match evs with
  | [] => true
  | EHead b' k' (inl _) :: rest =>
      negb (same_object b k b' k' && done) && check_sees_uploads b k done rest
  | EComplete b' k' _ _ (inr _) :: rest =>
      check_sees_uploads b k (same_object b k b' k' || done) rest
  | _ :: rest => check_sees_uploads b k done rest
  end.

(** Every completion on [(b, k)] that returns comes after an existence
    check of [(b, k)] that raised, with no other existence check and no
    other such completion in between ([allowed]: the trace starts in
    between). *)
Fixpoint completion_follows_check (b k : string) (allowed : bool)
  (evs : list event) : bool :=
  match evs with
  | [] => true
  | EHead b' k' r :: rest =>
      completion_follows_check b k (same_object b k b' k' && raised r) rest
  | EComplete b' k' _ _ (inr _) :: rest =>
      if same_object b k b' k'
      then allowed && completion_follows_check b k false rest
      else completion_follows_check b k allowed rest
  | _ :: rest => completion_follows_check b k allowed rest
  end.

(** The events that leave [completion_follows_check] where it is. *)
Definition neutral (ev : event) : Prop :=
  match ev with
  | EHead _ _ _ | EComplete _ _ _ _ (inr _) => False
  | _ => True
  end.

Lemma completion_follows_check_neutral b k evs1 evs2 :
  Forall neutral evs1 ->
  forall allowed,
    completion_follows_check b k allowed (evs1 ++ evs2)
    = completion_follows_check b k allowed evs2.
Proof.
  induction 1 as [|ev evs1 Hev Hall IH]; intros allowed; [reflexivity|].
  destruct ev as [| | | | | |? ? ? ? [|]| |]; simpl in *;
    try contradiction; apply IH.
Qed.

Lemma completion_follows_check_app b k evs2 :
  (forall allowed, completion_follows_check b k allowed evs2 = true) ->
  forall evs1 allowed,
    completion_follows_check b k allowed evs1 = true ->
    completion_follows_check b k allowed (evs1 ++ evs2) = true.
Proof.
  intros H2. induction evs1 as [|ev evs1 IH]; intros allowed H1;
    [apply H2|].
  destruct ev as [| | | | | |b' k' ? ? [|]| |]; simpl in *; auto.
  destruct (same_object b k b' k'); auto.
  apply andb_true_iff in H1 as [-> H1]. simpl. auto.
Qed.

Lemma part_run_neutral size Bucket Key uid file pn evs r :
  part_run size Bucket Key uid file pn evs r -> Forall neutral evs.
Proof.
  intros Hrun. apply part_run_only_parts, proj2 in Hrun.
  eapply Forall_impl; [|exact Hrun].
  intros ev (p & body & rp & ->). exact I.
Qed.

Lemma handled_neutral path e : Forall neutral (fst (handled path e)).
Proof. destruct e; simpl; repeat constructor. Qed.

(** The completion of an upload is allowed when the upload follows a
    failed check of its own key. *)
Lemma upload_trace_follows_check b k path Bucket Key uevs ur rest :
  upload_trace path Bucket Key uevs ur ->
  (forall allowed, completion_follows_check b k allowed rest = true) ->
  completion_follows_check b k (same_object b k Bucket Key) (uevs ++ rest)
  = true.
Proof.
  intros Hup Hrest.
  inversion Hup as
    [ e | size e | size uid e | size uid file pevs e Hrun
    | size uid file pevs ps e Hrun | size uid file pevs ps Hrun ];
    subst; simpl;
    try (apply part_run_neutral in Hrun);
    rewrite <- ?app_assoc, ?completion_follows_check_neutral
      by auto using handled_neutral;
    simpl;
    rewrite ?completion_follows_check_neutral by auto using handled_neutral;
    auto.
  destruct (same_object b k Bucket Key); simpl; auto.
Qed.

Lemma loop_trace_follows_check b k prefix folder bucket files evs r :
  loop_trace prefix folder bucket files evs r ->
  forall allowed, completion_follows_check b k allowed evs = true.
Proof.
  induction 1 as
    [ | f files d Hp | f files d p evs r Hp Hloop IH
    | f files d p e uevs e' Hp Hup
    | f files d p e uevs evs r Hp Hup Hloop IH ];
    intros allowed; simpl; auto.
  - rewrite andb_true_r, <- (app_nil_r uevs).
    eapply upload_trace_follows_check; [exact Hup | reflexivity].
  - rewrite andb_true_r.
    eapply upload_trace_follows_check; [exact Hup | exact IH].
Qed.

Lemma job_trace_follows_check b k config evs :
  job_trace config evs ->
  forall allowed, completion_follows_check b k allowed evs = true.
Proof.
  inversion 1 as
    [ Hf | folder Hf Hb | folder bucket e Hf Hb
    | folder bucket listing levs r Hf Hb Hloop ];
    intros allowed; simpl; auto.
  apply completion_follows_check_app.
  - now destruct r.
  - now apply (loop_trace_follows_check b k Hloop).
Qed.

(** With a store that keeps its objects, a trace in which the
    completions follow the failed checks completes each key at most
    once. *)
Lemma completed_at_most_once b k evs :
  forall allowed done,
    completion_follows_check b k allowed evs = true ->
    check_sees_uploads b k done evs = true ->
    (done = true -> allowed = false) ->
    (completed b k evs <= if done then 0 else 1)%nat.
Proof.
  induction evs as [|ev evs IH]; intros allowed done Hfollow Hsees Hinv.
  - simpl. destruct done; lia.
  - destruct ev as [| | | | | |b' k' uid ps [e|[]]|b' k' [e|[]]|];
      simpl in *; eauto.
    + destruct (same_object b k b' k') eqn:Hsame; simpl in *.
      * apply andb_true_iff in Hfollow as [-> Hfollow].
        destruct done; [now discriminate (Hinv eq_refl)|].
        specialize (IH false true Hfollow Hsees (fun _ => eq_refl)).
        simpl in IH. lia.
      * eauto.
    + apply andb_true_iff in Hsees as [Hnot Hsees].
      rewrite andb_true_r in Hfollow.
      apply (IH _ _ Hfollow Hsees).
      intros ->. rewrite andb_true_r in Hnot.
      now destruct (same_object b k b' k').
    + rewrite andb_false_r in Hfollow. eauto.
Qed.

(** Every upload call of a loop comes with a failed check of its key. *)
Lemma loop_trace_uploads prefix folder bucket files evs r :
  loop_trace prefix folder bucket files evs r ->
  forall ev b k, In ev evs -> upload_key ev = Some (b, k) ->
  exists e, In (EHead b k (inl e)) evs.
Proof.
  induction 1 as
    [ | f files d Hp | f files d p evs r Hp Hloop IH
    | f files d p e uevs e' Hp Hup
    | f files d p e uevs evs r Hp Hup Hloop IH ];
    intros ev b k Hin Hkey.
  - destruct Hin.
  - destruct Hin as [<-|[]]; discriminate.
  - destruct Hin as [<-|[<-|Hin]]; try discriminate.
    destruct (IH _ _ _ Hin Hkey) as [e He]. exists e. now do 2 right.
  - destruct Hin as [<-|[<-|Hin]]; try discriminate.
    apply upload_trace_events in Hup. rewrite Forall_forall in Hup.
    specialize (Hup _ Hin).
    exists e. right. left.
    destruct ev; try discriminate; simpl in *; destruct Hup as [-> ->];
      injection Hkey as <- <-; reflexivity.
  - destruct Hin as [<-|[<-|Hin]]; try discriminate.
    apply in_app_or in Hin as [Hin|Hin].
    + apply upload_trace_events in Hup. rewrite Forall_forall in Hup.
      specialize (Hup _ Hin).
      exists e. right. left.
      destruct ev; try discriminate; simpl in *; destruct Hup as [-> ->];
        injection Hkey as <- <-; reflexivity.
    + destruct (IH _ _ _ Hin Hkey) as [e0 He]. exists e0.
      do 2 right. apply in_or_app. now right.
Qed.

Lemma job_trace_uploads config evs :
  job_trace config evs ->
  forall ev b k, In ev evs -> upload_key ev = Some (b, k) ->
  exists e, In (EHead b k (inl e)) evs.
Proof.
  inversion 1 as
    [ Hf | folder Hf Hb | folder bucket e Hf Hb
    | folder bucket listing levs r Hf Hb Hloop ];
    intros ev b k Hin Hkey.
  - destruct Hin as [<-|[]]; discriminate.
  - destruct Hin as [<-|[]]; discriminate.
  - destruct Hin as [<-|[<-|[]]]; discriminate.
  - destruct Hin as [<-|Hin]; [discriminate|].
    apply in_app_or in Hin as [Hin|Hin].
    + destruct (loop_trace_uploads Hloop _ Hin Hkey) as [e He].
      exists e. right. apply in_or_app. now left.
    + destruct r as [e|]; [|destruct Hin].
      destruct Hin as [<-|[]]; discriminate.
Qed.

(** ** The job: C4, C9 *)

(** The ten characters of [strftime('%Y-%m-%d')]. *)
Lemma strftime_shape (d : datetime) :
  strftime_Y_m_d d
  = String (digit (year d / 1000)) (String (digit (year d / 100))
      (String (digit (year d / 10)) (String (digit (year d))
        (String "-" (String (digit (month d / 10)) (String (digit (month d))
          (String "-" (String (digit (day d / 10)) (String (digit (day d))
            ""))))))))).
Proof. reflexivity. Qed.

Example destination_key_2024_03_01 :
  destination_key "db" (Datetime 2024 3 1) "a.sql" = "db/2024-03-01/a.sql"%string.
Proof. reflexivity. Qed.

Section Job.

Variable W : Type.
Variable env : Env W.

(** C4.  In a run of [backup_job], every existence check comes right
    after a reading of the clock, and its key is
    [prefix + "/" + date + "/" + filename], where [prefix] is
    [config["prefix"]], [date] is the date just read, formatted as
    [YYYY-MM-DD], and [filename] is one of the files selected from the
    listing; the calls that follow the check, up to the next reading of
    the clock, are the calls of the upload of this file to this bucket
    and this key. *)
Theorem destination_key_of_checked_file (config : Config) (s : state W)
  (before : list event) (b k : string) (rh : result unit)
  (after : list event) :
  events_of (backup_job env config) s = before ++ EHead b k rh :: after ->
  exists folder listing before' d prefix filename uevs rest,
    before = EListdir folder (inr listing) :: before' ++ [ENow d]
    /\ cfg_prefix config = Some prefix
    /\ cfg_s3_bucket_name config = Some b
    /\ In filename
         (files_to_backup listing (dict_get (cfg_include config) []))
    /\ k = (prefix ++ "/" ++ strftime_Y_m_d d ++ "/" ++ filename)%string
    /\ strftime_Y_m_d d
       = (pad4 (year d) ++ "-" ++ pad2 (month d) ++ "-" ++ pad2 (day d))%string
    /\ after = uevs ++ rest
    /\ Forall (upload_event (os_path_join folder filename) b k) uevs
    /\ (rest = [] \/ (exists d' rest', rest = ENow d' :: rest')
        \/ exists e, rest = [ELog (LogJobError e)]).
Proof.
  intros Hevs.
  destruct (job_trace_head (job_events env config s) _ _ _ _ _ Hevs)
    as (folder & listing & before' & d & p & f & uevs & rest
        & Hf & Hb & Hp & -> & Hin & -> & -> & Hup & Hrest).
  exists folder, listing, before', d, p, f, uevs, rest.
  repeat split; auto.
  destruct rh as [e|[]].
  - destruct Hup as (ur & Hup & _). now apply upload_trace_events in Hup.
  - subst uevs. constructor.
Qed.

(** C9.  [check_file_existence] never raises and returns [False]
    exactly when [head_object] raised, whatever the exception; and in a
    run of [backup_job], an existence check that raised is followed at
    once by the upload of the file: [os.path.getsize] on the file, then,
    when this call returns, [create_multipart_upload] on the bucket and
    the key that were checked. *)
Theorem failed_check_is_absent_object (config : Config) (s : state W) :
  (forall (Bucket Key : string) (s0 : state W),
     fst (check_file_existence env Bucket Key s0)
     = inr (returned (fst (head_object env Bucket Key (world s0))))
     /\ events_of (check_file_existence env Bucket Key) s0
        = [EHead Bucket Key (fst (head_object env Bucket Key (world s0)))])
  /\ (forall before b k e after,
        events_of (backup_job env config) s
        = before ++ EHead b k (inl e) :: after ->
        exists folder filename rg rest,
          cfg_folder config = Some folder
          /\ after = EGetsize (os_path_join folder filename) rg :: rest
          /\ (forall size, rg = inr size ->
              exists rc rest', rest = ECreate b k rc :: rest')).
Proof.
  split.
  - intros Bucket Key s0. split.
    + now rewrite check_file_existence_run.
    + eapply events_of_eq. apply check_file_existence_run.
  - intros before b k e after Hevs.
    destruct (job_trace_head (job_events env config s) _ _ _ _ _ Hevs)
      as (folder & listing & before' & d & p & f & uevs & rest
          & Hf & Hb & Hp & -> & Hin & -> & -> & (ur & Hup & Hur) & Hrest).
    destruct (upload_trace_starts Hup) as (rg & urest & -> & Hrg).
    exists folder, f, rg, (urest ++ rest). repeat split; auto.
    intros size ->. destruct Hrg as (rc & rest' & ->).
    exists rc, (rest' ++ rest). reflexivity.
Qed.

(** Every sequence of runs returns, and its completions follow the
    failed checks. *)
Lemma run_jobs_trace (configs : list Config) : forall s : state W,
  exists evs w,
    run_jobs env configs s = (inr tt, State w (trace s ++ evs))
    /\ forall b k allowed, completion_follows_check b k allowed evs = true.
Proof.
  induction configs as [|config configs IH]; intros s; simpl.
  { exists [], (world s). rewrite app_nil_r, <- state_eta. auto. }
  unfold bind.
  destruct (backup_job_trace env config s) as (evs1 & w1 & Hjob & ->).
  destruct (IH (State w1 (trace s ++ evs1))) as (evs2 & w2 & -> & H2).
  exists (evs1 ++ evs2), w2. cbn [trace]. rewrite app_assoc.
  split; [reflexivity|].
  intros b k allowed. apply completion_follows_check_app; [apply H2|].
  now apply job_trace_follows_check with config.
Qed.

(** C1, as the code has it.  In a run of [backup_job], when every
    existence check of a bucket and key reports the object, the run makes
    no [create_multipart_upload], [upload_part] or
    [complete_multipart_upload] call on this bucket and key; the call
    that follows such a check is never an upload call.  Over runs that
    follow one another, at most one completion returns for a bucket and
    key as long as no existence check of this bucket and key raises
    after a completion of it returned, whatever the files hold; a check
    that raises then, for any reason, lets the file be uploaded again. *)
Theorem existing_object_is_skipped :
  (forall (config : Config) (s : state W) (b k : string),
     let evs := events_of (backup_job env config) s in
     (forall r, In (EHead b k r) evs -> r = inr tt) ->
     forall ev, In ev evs -> upload_key ev <> Some (b, k))
  /\ (forall (config : Config) (s : state W) before b k after ev rest,
        events_of (backup_job env config) s
        = before ++ EHead b k (inr tt) :: after ->
        after = ev :: rest -> upload_key ev = None)
  /\ (forall (configs : list Config) (s : state W) (b k : string),
        let evs := events_of (run_jobs env configs) s in
        check_sees_uploads b k false evs = true ->
        (completed b k evs <= 1)%nat).
Proof.
  split; [|split].
  - intros config s b k evs Hexists ev Hin Hkey.
    destruct (job_trace_uploads (job_events env config s) _ Hin Hkey)
      as [e He].
    now discriminate (Hexists _ He).
  - intros config s before b k after ev rest Hevs ->.
    destruct (job_trace_head (job_events env config s) _ _ _ _ _ Hevs)
      as (folder & listing & before' & d & p & f & uevs & rest'
          & _ & _ & _ & _ & _ & _ & Hafter & -> & Hrest).
    simpl in Hafter. subst rest'.
    destruct Hrest as [Hnil | [(d' & rest' & Heq) | (e & Heq)]];
      [discriminate | |]; now injection Heq as ->.
  - intros configs s b k evs Hsees.
    destruct (run_jobs_trace configs s) as (evs' & w & Heq & Hfollow).
    apply events_of_eq in Heq. subst evs. rewrite Heq in *.
    apply (@completed_at_most_once b k evs' false false); auto.
Qed.

End Job.

(** ** Errors in a job: C6, C7 *)

Definition exn_eqb (e1 e2 : exn) : bool :=
  match e1, e2 with
  | FileNotFoundError p1, FileNotFoundError p2 => String.eqb p1 p2
  | NoCredentialsError, NoCredentialsError => true
  | KeyError k1, KeyError k2 => String.eqb k1 k2
  | ClientError c1, ClientError c2 => String.eqb c1 c2
  | OSError n1, OSError n2 => Z.eqb n1 n2
  | OtherException n1, OtherException n2 => String.eqb n1 n2
  | _, _ => false
  end.

Lemma exn_eqb_eq (e1 e2 : exn) : exn_eqb e1 e2 = true <-> e1 = e2.
Proof.
  destruct e1, e2; simpl; rewrite ?String.eqb_eq, ?Z.eqb_eq;
    split; intros H; try discriminate; try congruence; auto.
Qed.

(** The exceptions that the [except] clauses of
    [upload_large_file_to_s3] catch. *)
Definition caught (e : exn) : bool :=
  match e with
  | FileNotFoundError _ | NoCredentialsError => true
  | _ => false
  end.

(** The exception that a call raised. *)
Definition event_exn (ev : event) : option exn :=
  match ev with
  | EGetsize _ (inl e) | EOpen _ (inl e) | EListdir _ (inl e)
  | ECreate _ _ (inl e) | EUploadPart _ _ _ _ _ (inl e)
  | EComplete _ _ _ _ (inl e) | EHead _ _ (inl e) => Some e
  | _ => None
  end.

Definition is_head (ev : event) : bool :=
  match ev with
  | EHead _ _ _ => true
  | _ => false
  end.

(** A log line that tells of the exception [e]. *)
Definition reports (m : log_msg) (e : exn) : bool :=
  match m with
  | LogJobError e' => exn_eqb e' e
  | LogFileNotFound _ =>
      match e with FileNotFoundError _ => true | _ => false end
  | LogNoCredentials =>
      match e with NoCredentialsError => true | _ => false end
  | LogUploaded _ _ _ => false
  end.

(** Every call that raised, an existence check apart, is followed at
    once by a log line that tells of its exception; the last call of
    the trace may instead have raised the exception [r] that leaves the
    function. *)
Fixpoint errors_logged (r : result unit) (evs : list event) : bool :=
  match evs with
  | [] => true
  | ev :: rest =>
      match event_exn ev with
      | None => errors_logged r rest
      | Some e =>
          if is_head ev then errors_logged r rest
          else match rest with
               | [] => match r with
                       | inl e' => exn_eqb e e'
                       | inr _ => false
                       end
               | ELog m :: _ => reports m e && errors_logged r rest
               | _ => false
               end
      end
  end.

(** A call of an upload whose exception, if any, does not leave
    [upload_large_file_to_s3]: it is raised inside the [try] and caught
    by an [except] clause. *)
Definition contained (ev : event) : bool :=
  match ev with
  | EGetsize _ (inl _) => false
  | EOpen _ (inl e) | ECreate _ _ (inl e) | EUploadPart _ _ _ _ _ (inl e)
  | EComplete _ _ _ _ (inl e) => caught e
  | _ => true
  end.

(** The buckets and keys of the existence checks of a trace, and the
    dates that the clock gave, in order. *)
Definition checked (evs : list event) : list (string * string) :=
  flat_map (fun ev =>
    match ev with
    | EHead b k _ => [(b, k)]
    | _ => []
    end) evs.

Definition clock (evs : list event) : list datetime :=
  flat_map (fun ev =>
    match ev with
    | ENow d => [d]
    | _ => []
    end) evs.

Lemma errors_logged_settled evs1 : forall r evs2,
  errors_logged (inr tt) evs1 = true ->
  errors_logged r (evs1 ++ evs2) = errors_logged r evs2.
Proof.
  induction evs1 as [|ev evs1 IH]; intros r evs2 H1; [reflexivity|].
  simpl in *. destruct (event_exn ev) as [e|]; [|now apply IH].
  destruct (is_head ev); [now apply IH|].
  destruct evs1 as [|[| | | | | | | |m] evs1]; try discriminate.
  apply andb_true_iff in H1 as [Hm H1].
  change ((ELog m :: evs1) ++ evs2) with (ELog m :: evs1 ++ evs2).
  cbv beta iota. rewrite Hm. simpl andb.
  change (ELog m :: evs1 ++ evs2) with ((ELog m :: evs1) ++ evs2).
  now apply IH.
Qed.

Lemma errors_logged_job_error evs : forall e,
  errors_logged (inl e) evs = true ->
  errors_logged (inr tt) (evs ++ [ELog (LogJobError e)]) = true.
Proof.
  induction evs as [|ev evs IH]; intros e H; [reflexivity|].
  simpl in *. destruct (event_exn ev) as [e0|]; [|now apply IH].
  destruct (is_head ev); [now apply IH|].
  destruct evs as [|[| | | | | | | |m] evs]; try discriminate.
  - simpl. apply exn_eqb_eq in H as ->.
    rewrite (proj2 (exn_eqb_eq e e) eq_refl). reflexivity.
  - apply andb_true_iff in H as [Hm H].
    change ((ELog m :: evs) ++ [ELog (LogJobError e)])
      with (ELog m :: evs ++ [ELog (LogJobError e)]).
    cbv beta iota. rewrite Hm. simpl andb.
    change (ELog m :: evs ++ [ELog (LogJobError e)])
      with ((ELog m :: evs) ++ [ELog (LogJobError e)]).
    now apply IH.
Qed.

Lemma errors_logged_tail r ev evs :
  errors_logged r (ev :: evs) = true -> errors_logged r evs = true.
Proof.
  simpl. destruct (event_exn ev); auto. destruct (is_head ev); auto.
  destruct evs as [|[| | | | | | | |m] evs]; try discriminate; auto.
  now intros [_ H]%andb_true_iff.
Qed.

(** What [errors_logged] says, call by call. *)
Lemma errors_logged_inv evs :
  errors_logged (inr tt) evs = true ->
  forall before ev after e,
    evs = before ++ ev :: after -> event_exn ev = Some e ->
    (exists b k, ev = EHead b k (inl e))
    \/ exists m after', after = ELog m :: after' /\ reports m e = true.
Proof.
  intros Hlog before. revert evs Hlog.
  induction before as [|x before IH]; intros evs Hlog ev after e -> Hexn.
  - simpl in Hlog. rewrite Hexn in Hlog.
    destruct ev; try discriminate; simpl in *;
      try (destruct after as [|[| | | | | | | |m] after]; try discriminate;
           apply andb_true_iff in Hlog as [Hm _]; right; eauto).
    left. destruct r; [|discriminate]. injection Hexn as ->. eauto.
  - apply errors_logged_tail in Hlog. eapply IH; eauto.
Qed.

Lemma errors_logged_parts size Bucket Key uid file pn pevs rl :
  part_run size Bucket Key uid file pn pevs rl ->
  forall r rest,
    errors_logged r (pevs ++ rest)
    = match rl with
      | inr _ => errors_logged r rest
      | inl e =>
          match rest with
          | [] => match r with
                  | inl e' => exn_eqb e e'
                  | inr _ => false
                  end
          | ELog m :: _ => reports m e && errors_logged r rest
          | _ => false
          end
      end.
Proof.
  induction 1 as [pn | file pn e Hne | file pn etag evs r0 Hne Hrun IH];
    intros r rest; [reflexivity | reflexivity |].
  change (errors_logged r ((EUploadPart Bucket Key pn uid
                              (fst (file_read size file)) (inr etag) :: evs)
                           ++ rest))
    with (errors_logged r (evs ++ rest)).
  rewrite IH. now destruct r0.
Qed.

Lemma errors_logged_handled path e :
  match fst (handled path e) with
  | [] => match snd (handled path e) with
          | inl e' => exn_eqb e e'
          | inr _ => false
          end
  | ELog m :: _ =>
      reports m e && errors_logged (snd (handled path e))
                       (fst (handled path e))
  | _ => false
  end = true.
Proof.
  destruct e; simpl; try reflexivity;
    rewrite ?String.eqb_refl, ?Z.eqb_refl; reflexivity.
Qed.

(** In an upload, every call that raised is followed by its log line,
    or raised the exception that leaves the function. *)
Lemma upload_trace_errors_logged path Bucket Key evs r :
  upload_trace path Bucket Key evs r -> errors_logged r evs = true.
Proof.
  pose proof (errors_logged_handled path) as Hh.
  inversion 1 as
    [ e | size e | size uid e | size uid file pevs e Hrun
    | size uid file pevs ps e Hrun | size uid file pevs ps Hrun ];
    subst.
  - simpl. now apply exn_eqb_eq.
  - specialize (Hh e). simpl.
    destruct (fst (handled path e)) as [|[| | | | | | | |m] tl]; auto.
  - specialize (Hh e). simpl.
    destruct (fst (handled path e)) as [|[| | | | | | | |m] tl]; auto.
  - specialize (Hh e).
    change (errors_logged (snd (handled path e))
              (pevs ++ fst (handled path e)) = true).
    rewrite (errors_logged_parts Hrun).
    destruct (fst (handled path e)) as [|[| | | | | | | |m] tl]; auto.
  - specialize (Hh e).
    change (errors_logged (snd (handled path e))
              (pevs ++ EComplete Bucket Key uid ps (inl e)
                       :: fst (handled path e)) = true).
    rewrite (errors_logged_parts Hrun). simpl.
    destruct (fst (handled path e)) as [|[| | | | | | | |m] tl]; auto.
  - change (errors_logged (inr tt)
              (pevs ++ [EComplete Bucket Key uid ps (inr tt);
                        ELog (LogUploaded path Bucket Key)]) = true).
    now rewrite (errors_logged_parts Hrun).
Qed.

Lemma loop_trace_errors_logged prefix folder bucket files evs r :
  loop_trace prefix folder bucket files evs r -> errors_logged r evs = true.
Proof.
  induction 1 as
    [ | f files d Hp | f files d p evs r Hp Hloop IH
    | f files d p e uevs e' Hp Hup
    | f files d p e uevs evs r Hp Hup Hloop IH ];
    try reflexivity.
  - exact IH.
  - now apply upload_trace_errors_logged in Hup.
  - apply upload_trace_errors_logged in Hup.
    change (errors_logged r (uevs ++ evs) = true).
    now rewrite errors_logged_settled.
Qed.

Lemma job_trace_errors_logged config evs :
  job_trace config evs -> errors_logged (inr tt) evs = true.
Proof.
  inversion 1 as
    [ Hf | folder Hf Hb | folder bucket e Hf Hb
    | folder bucket listing levs r Hf Hb Hloop ];
    try reflexivity.
  - simpl. rewrite (proj2 (exn_eqb_eq e e) eq_refl). reflexivity.
  - apply loop_trace_errors_logged in Hloop.
    change (errors_logged (inr tt)
              (levs ++ match r with
                       | inl e => [ELog (LogJobError e)]
                       | inr _ => []
                       end) = true).
    destruct r as [e|[]].
    + now apply errors_logged_job_error.
    + now rewrite app_nil_r.
Qed.

(** The log line of the [except] clause of [backup_job] ends the run. *)
Definition not_job_error (ev : event) : Prop :=
  match ev with
  | ELog (LogJobError _) => False
  | _ => True
  end.

Lemma upload_event_not_job_error path Bucket Key ev :
  upload_event path Bucket Key ev -> not_job_error ev.
Proof. destruct ev as [| | | | | | | |[]]; simpl; auto. Qed.

Lemma loop_trace_not_job_error prefix folder bucket files evs r :
  loop_trace prefix folder bucket files evs r -> Forall not_job_error evs.
Proof.
  induction 1 as
    [ | f files d Hp | f files d p evs r Hp Hloop IH
    | f files d p e uevs e' Hp Hup
    | f files d p e uevs evs r Hp Hup Hloop IH ];
    repeat (apply Forall_cons; [exact I|]); auto.
  - apply upload_trace_events in Hup.
    eapply Forall_impl; [|exact Hup].
    intros ev. apply upload_event_not_job_error.
  - apply Forall_app. split; [|assumption].
    apply upload_trace_events in Hup.
    eapply Forall_impl; [|exact Hup].
    intros ev. apply upload_event_not_job_error.
Qed.

Lemma job_error_is_last config evs :
  job_trace config evs ->
  forall before e after,
    evs = before ++ ELog (LogJobError e) :: after -> after = [].
Proof.
  inversion 1 as
    [ Hf | folder Hf Hb | folder bucket e0 Hf Hb
    | folder bucket listing levs r Hf Hb Hloop ];
    intros before e after Heq.
  - destruct before as [|? [|? ?]]; try discriminate. now injection Heq.
  - destruct before as [|? [|? ?]]; try discriminate. now injection Heq.
  - destruct before as [|? [|? [|? ?]]]; try discriminate.
    now injection Heq.
  - apply loop_trace_not_job_error in Hloop.
    assert (Hall : Forall not_job_error (EListdir folder (inr listing) :: levs))
      by (constructor; [exact I | assumption]).
    change (EListdir folder (inr listing)
            :: levs ++ match r with
                       | inl e1 => [ELog (LogJobError e1)]
                       | inr _ => []
                       end)
      with ((EListdir folder (inr listing) :: levs)
            ++ match r with
               | inl e1 => [ELog (LogJobError e1)]
               | inr _ => []
               end) in Heq.
    destruct (@app_split_left _ not_job_error (ELog (LogJobError e)) _ _
                Hall (fun Hx => Hx) _ _ Heq)
      as (b' & _ & Htail).
    destruct r as [e1|]; destruct b' as [|? [|? ?]]; try discriminate.
    now injection Htail.
Qed.

(** An upload that raises made a call whose exception was not
    contained. *)
Lemma part_run_not_contained size Bucket Key uid file pn pevs e :
  part_run size Bucket Key uid file pn pevs (inl e) ->
  caught e = false -> forallb contained pevs = false.
Proof.
  remember (inl e) as rl eqn:Hrl. intros Hrun. revert Hrl.
  induction Hrun as [pn | file pn e0 Hne | file pn etag evs r0 Hne Hrun IH];
    intros Hrl Hcaught; try discriminate.
  - injection Hrl as ->. simpl. now rewrite Hcaught.
  - destruct r0; [|discriminate]. injection Hrl as ->. simpl. auto.
Qed.

Lemma handled_raises path e e' :
  snd (handled path e) = inl e' -> caught e = false /\ e' = e.
Proof. destruct e; simpl; intros [= <-]; auto. Qed.

Lemma upload_trace_not_contained path Bucket Key evs e' :
  upload_trace path Bucket Key evs (inl e') -> forallb contained evs = false.
Proof.
  inversion 1 as
    [ e | size e Hev Hr | size uid e Hev Hr | size uid file pevs e Hrun Hev Hr
    | size uid file pevs ps e Hrun Hev Hr | size uid file pevs ps Hrun ];
    subst; try reflexivity;
    apply handled_raises in Hr as [Hcaught _]; simpl;
    rewrite ?forallb_app; simpl; rewrite ?Hcaught;
    rewrite ?andb_false_r; try reflexivity.
  now rewrite (part_run_not_contained Hrun Hcaught).
Qed.

Lemma upload_events_checked path Bucket Key evs :
  Forall (upload_event path Bucket Key) evs ->
  checked evs = [] /\ clock evs = [].
Proof.
  induction 1 as [|ev evs Hev Hall [IH1 IH2]]; [auto|].
  destruct ev; simpl in *; try contradiction; auto.
Qed.

(** When the exceptions of a loop are contained, every file of the list
    is checked, in order, each under the date read just before. *)
Lemma loop_trace_contained prefix folder bucket files evs r :
  loop_trace (Some prefix) folder bucket files evs r ->
  forallb contained evs = true ->
  r = inr tt
  /\ List.length (clock evs) = List.length files
  /\ checked evs
     = map (fun df => (bucket, destination_key prefix (fst df) (snd df)))
         (combine (clock evs) files).
Proof.
  induction 1 as
    [ | f files d Hp | f files d p evs r Hp Hloop IH
    | f files d p e uevs e' Hp Hup
    | f files d p e uevs evs r Hp Hup Hloop IH ];
    intros Hcont.
  - auto.
  - discriminate.
  - injection Hp as <-. simpl in Hcont.
    destruct (IH Hcont) as (-> & Hlen & Hchecked).
    simpl. fold (clock evs) (checked evs). rewrite Hlen, Hchecked. auto.
  - simpl in Hcont. now rewrite (upload_trace_not_contained Hup) in Hcont.
  - injection Hp as <-. simpl in Hcont. rewrite forallb_app in Hcont.
    apply andb_true_iff in Hcont as [_ Hcont].
    destruct (IH Hcont) as (-> & Hlen & Hchecked).
    apply upload_trace_events, upload_events_checked in Hup as [Hc Hk].
    unfold checked, clock in *. simpl. rewrite !flat_map_app.
    rewrite Hc, Hk. simpl. rewrite Hlen, Hchecked. auto.
Qed.

(** An exception raised inside the [try] of [upload_large_file_to_s3]
    that no [except] clause of the function catches. *)
Definition escapes (ev : event) : bool :=
  match ev with
  | EOpen _ (inl e) | ECreate _ _ (inl e) | EUploadPart _ _ _ _ _ (inl e)
  | EComplete _ _ _ _ (inl e) => negb (caught e)
  | _ => false
  end.

Lemma reports_uncaught m e :
  reports m e = true -> caught e = false -> m = LogJobError e.
Proof.
  destruct m as [| | |e']; simpl; try discriminate.
  - destruct e; discriminate.
  - destruct e; discriminate.
  - now intros ->%exn_eqb_eq.
Qed.

Section JobErrors.

Variable W : Type.
Variable env : Env W.

(** C6, as the code has it.  When the listing succeeds and every
    exception raised during the uploads of a run is a
    [FileNotFoundError] or a [NoCredentialsError] raised inside the [try]
    of [upload_large_file_to_s3] (the exceptions of the existence checks
    are always caught), every selected file is checked, in the order of
    the list, each under the date read just before.  An exception raised
    inside the [try] that is neither of the two ends the run: the log
    line of [backup_job] follows it and the files that are left are not
    processed. *)
Theorem contained_errors_do_not_stop_the_run (config : Config)
  (s : state W) (folder bucket prefix : string) (listing : list string)
  (rest : list event) :
  let evs := events_of (backup_job env config) s in
  let files := files_to_backup listing (dict_get (cfg_include config) []) in
  (evs = EListdir folder (inr listing) :: rest ->
   cfg_s3_bucket_name config = Some bucket ->
   cfg_prefix config = Some prefix ->
   forallb contained evs = true ->
   List.length (clock evs) = List.length files
   /\ checked evs
      = map (fun df => (bucket, destination_key prefix (fst df) (snd df)))
          (combine (clock evs) files))
  /\ (forall before ev after,
        evs = before ++ ev :: after -> escapes ev = true ->
        exists e, event_exn ev = Some e /\ after = [ELog (LogJobError e)]).
Proof.
  intros evs files. pose proof (job_events env config s) as Hjob.
  fold evs in Hjob. clearbody evs. split.
  - intros -> Hbucket Hprefix Hcont.
    inversion Hjob as
      [ Hf Hev | folder' Hf Hb Hev | folder' bucket' e Hf Hb Hev
      | folder' bucket' listing' levs r Hf Hb Hloop Hev ];
      try discriminate.
    subst.
    rewrite Hprefix in Hloop. rewrite Hbucket in Hb. injection Hb as <-.
    simpl in Hcont. rewrite forallb_app in Hcont.
    apply andb_true_iff in Hcont as [Hcont _].
    destruct (loop_trace_contained Hloop Hcont) as (-> & Hlen & Hchecked).
    rewrite app_nil_r. exact (conj Hlen Hchecked).
  - intros before ev after Hevs Hesc.
    assert (Hexn : exists e, event_exn ev = Some e /\ caught e = false
                             /\ is_head ev = false).
    { destruct ev as [|? [e|]| | |? ? [e|]|? ? ? ? ? [e|]|? ? ? ? [e|]| |];
        try discriminate; exists e; simpl in *;
        now destruct (caught e). }
    destruct Hexn as (e & Hexn & Hcaught & Hhead).
    exists e. split; [assumption|].
    destruct (errors_logged_inv (job_trace_errors_logged Hjob) _ _ _ Hevs Hexn)
      as [(b & k & ->) | (m & after' & -> & Hm)]; [discriminate|].
    apply reports_uncaught in Hm as ->; [|assumption].
    f_equal.
    apply (job_error_is_last Hjob (before ++ [ev]) e).
    now rewrite <- app_assoc.
Qed.


End JobErrors.

(** ** Runs of the job on the small environment *)

Lemma existing_object_is_skipped_witness :
  let skipped := events_of (backup_job Runs.env_ok Sim.config)
                   Runs.store_with_a in
  let twice := events_of (run_jobs Runs.env_ok [Sim.config; Sim.config])
                 Runs.empty_store in
  ((forall r, In (EHead "bk" Runs.key_a r) skipped -> r = inr tt)
   /\ check_sees_uploads "bk" Runs.key_a false twice = true)
  /\ (forall ev, In ev skipped -> upload_key ev <> Some ("bk"%string, Runs.key_a))
  /\ (completed "bk" Runs.key_a twice <= 1)%nat.
Proof.
  intros skipped twice.
  assert (Hhyp : (forall r, In (EHead "bk" Runs.key_a r) skipped -> r = inr tt)
                 /\ check_sees_uploads "bk" Runs.key_a false twice = true).
  { split; [|reflexivity].
    intros r Hin. vm_compute in Hin.
    destruct Hin as [H|[H|[H|[]]]]; try discriminate. now injection H. }
  split; [exact Hhyp|].
  destruct Hhyp as [Hexists Hsees].
  destruct (existing_object_is_skipped Runs.env_ok) as (Hskip & _ & Honce).
  split.
  - exact (Hskip Sim.config Runs.store_with_a "bk"%string Runs.key_a Hexists).
  - exact (Honce [Sim.config; Sim.config] Runs.empty_store "bk"%string
             Runs.key_a Hsees).
Defined.

(** The environment [Runs.env_ok] with a [head_object] that raises at
    every call, whether the object is stored or not: the endpoint of the
    existence check cannot be reached. *)
Definition env_unreachable_check : Env Sim.world := {|
  os_path_getsize := os_path_getsize Runs.env_ok;
  os_listdir := os_listdir Runs.env_ok;
  open_rb := open_rb Runs.env_ok;
  datetime_now := datetime_now Runs.env_ok;
  create_multipart_upload := create_multipart_upload Runs.env_ok;
  upload_part := upload_part Runs.env_ok;
  complete_multipart_upload := complete_multipart_upload Runs.env_ok;
  head_object := fun _ _ w =>
    (inl (OtherException "EndpointConnectionError"), w)
|}.

(** C1, as the spec states it, fails: the first run completes the upload
    of [a.sql] and the store holds the object; the existence check of the
    second run raises, [check_file_existence] takes the object for
    absent, and the second run completes the same bucket and key again:
    two completions. *)
Lemma failed_check_uploads_again :
  let first := backup_job env_unreachable_check Sim.config
                 Runs.empty_store in
  let evs := events_of
               (run_jobs env_unreachable_check [Sim.config; Sim.config])
               Runs.empty_store in
  Sim.stored "bk" Runs.key_a (world (snd first)) = true
  /\ completed "bk" Runs.key_a (events_of (backup_job env_unreachable_check
                                             Sim.config) Runs.empty_store)
     = 1%nat
  /\ completed "bk" Runs.key_a evs = 2%nat
  /\ check_sees_uploads "bk" Runs.key_a false evs = false.
Proof. vm_compute. auto. Qed.

Lemma destination_key_of_checked_file_witness :
  events_of (backup_job Runs.env_ok Sim.config) Runs.store_with_a
  = [EListdir "/data" (inr ["a.sql"; "y.tmp"]%string); ENow Runs.date]
    ++ EHead "bk" "db/2024-03-01/a.sql" (inr tt) :: []
  /\ exists folder listing before' d prefix filename uevs rest,
       [EListdir "/data" (inr ["a.sql"; "y.tmp"]%string); ENow Runs.date]
       = EListdir folder (inr listing) :: before' ++ [ENow d]
       /\ cfg_prefix Sim.config = Some prefix
       /\ cfg_s3_bucket_name Sim.config = Some "bk"%string
       /\ In filename
            (files_to_backup listing (dict_get (cfg_include Sim.config) []))
       /\ "db/2024-03-01/a.sql"%string
          = (prefix ++ "/" ++ strftime_Y_m_d d ++ "/" ++ filename)%string
       /\ strftime_Y_m_d d
          = (pad4 (year d) ++ "-" ++ pad2 (month d) ++ "-"
             ++ pad2 (day d))%string
       /\ [] = uevs ++ rest
       /\ Forall (upload_event (os_path_join folder filename) "bk"
                    "db/2024-03-01/a.sql") uevs
       /\ (rest = [] \/ (exists d' rest', rest = ENow d' :: rest')
           \/ exists e, rest = [ELog (LogJobError e)]).
Proof.
  assert (Hhyp : events_of (backup_job Runs.env_ok Sim.config)
                   Runs.store_with_a
                 = [EListdir "/data" (inr ["a.sql"; "y.tmp"]%string);
                    ENow Runs.date]
                   ++ EHead "bk" "db/2024-03-01/a.sql" (inr tt) :: [])
    by reflexivity.
  split; [exact Hhyp|].
  exact (@destination_key_of_checked_file _ Runs.env_ok Sim.config
           Runs.store_with_a _ _ _ _ _ Hhyp).
Defined.

Lemma failed_check_is_absent_object_witness :
  let after := [EGetsize "/data/a.sql" (inr 1);
                ECreate "bk" Runs.key_a (inr "uid"%string);
                EOpen "/data/a.sql" (inr [x00]);
                EUploadPart "bk" Runs.key_a 1 "uid" [x00] (inr "etag"%string);
                EComplete "bk" Runs.key_a "uid" [Part 1 "etag"] (inr tt);
                ELog (LogUploaded "/data/a.sql" "bk" Runs.key_a)] in
  events_of (backup_job Runs.env_ok Sim.config) Runs.empty_store
  = [EListdir "/data" (inr ["a.sql"; "y.tmp"]%string); ENow Runs.date]
    ++ EHead "bk" Runs.key_a (inl (ClientError "404")) :: after
  /\ fst (check_file_existence Runs.env_ok "bk" Runs.key_a Runs.empty_store)
     = inr false
  /\ exists folder filename rg rest,
       cfg_folder Sim.config = Some folder
       /\ after = EGetsize (os_path_join folder filename) rg :: rest
       /\ (forall size, rg = inr size ->
           exists rc rest', rest = ECreate "bk" Runs.key_a rc :: rest').
Proof.
  intros after.
  assert (Hhyp : events_of (backup_job Runs.env_ok Sim.config)
                   Runs.empty_store
                 = [EListdir "/data" (inr ["a.sql"; "y.tmp"]%string);
                    ENow Runs.date]
                   ++ EHead "bk" Runs.key_a (inl (ClientError "404"))
                   :: after) by reflexivity.
  split; [exact Hhyp|].
  destruct (failed_check_is_absent_object Runs.env_ok Sim.config
              Runs.empty_store) as [Hcheck Hupload].
  split.
  - exact (proj1 (Hcheck "bk"%string Runs.key_a Runs.empty_store)).
  - exact (Hupload _ _ _ _ _ Hhyp).
Defined.

(** C6, as the spec states it, fails: [a.sql] and [b.sql] are both
    selected, the [upload_part] call of [a.sql] raises a 500
    [ClientError], and the run ends there: [b.sql] is never checked. *)
Lemma upload_error_stops_the_run :
  let evs := events_of (backup_job Runs.env_500 Sim.config)
               Runs.empty_store in
  files_to_backup ["a.sql"; "b.sql"]%string
    (dict_get (cfg_include Sim.config) []) = ["a.sql"; "b.sql"]%string
  /\ In (EUploadPart "bk" Runs.key_a 1 "uid" [x00] (inl (ClientError "500")))
       evs
  /\ checked evs = [("bk"%string, Runs.key_a)]
  /\ ~ In ("bk"%string, Runs.key_b) (checked evs).
Proof.
  vm_compute. repeat split; auto 10.
  intros [H|[]]. discriminate.
Qed.

Lemma contained_errors_do_not_stop_the_run_witness :
  let evs := events_of (backup_job Runs.env_no_credentials Sim.config)
               Runs.empty_store in
  let stopped := events_of (backup_job Runs.env_500 Sim.config)
                   Runs.empty_store in
  (In (EUploadPart "bk" Runs.key_a 1 "uid" [x00] (inl NoCredentialsError)) evs
   /\ forallb contained evs = true)
  /\ checked evs = [("bk"%string, Runs.key_a); ("bk"%string, Runs.key_b)]
  /\ exists e,
       event_exn (EUploadPart "bk" Runs.key_a 1 "uid" [x00]
                    (inl (ClientError "500"))) = Some e
       /\ [ELog (LogJobError (ClientError "500"))] = [ELog (LogJobError e)].
Proof.
  intros evs stopped.
  assert (Hhyp : In (EUploadPart "bk" Runs.key_a 1 "uid" [x00]
                       (inl NoCredentialsError)) evs
                 /\ forallb contained evs = true)
    by (vm_compute; auto 10).
  split; [exact Hhyp|].
  destruct Hhyp as [_ Hcont].
  assert (Hevs : evs = EListdir "/data" (inr ["a.sql"; "b.sql"]%string)
                       :: tl evs) by reflexivity.
  assert (Hstopped :
    stopped
    = [EListdir "/data" (inr ["a.sql"; "b.sql"]%string); ENow Runs.date;
       EHead "bk" Runs.key_a (inl (ClientError "404"));
       EGetsize "/data/a.sql" (inr 1);
       ECreate "bk" Runs.key_a (inr "uid"%string);
       EOpen "/data/a.sql" (inr [x00])]
      ++ EUploadPart "bk" Runs.key_a 1 "uid" [x00] (inl (ClientError "500"))
      :: [ELog (LogJobError (ClientError "500"))]) by reflexivity.
  split.
  - destruct (@contained_errors_do_not_stop_the_run _
                Runs.env_no_credentials Sim.config Runs.empty_store
                "/data" "bk" "db" ["a.sql"; "b.sql"]%string (tl evs))
      as [Hall _].
    destruct (Hall Hevs eq_refl eq_refl Hcont) as [_ Hchecked].
    etransitivity; [exact Hchecked | reflexivity].
  - destruct (@contained_errors_do_not_stop_the_run _
                Runs.env_500 Sim.config Runs.empty_store
                "/data" "bk" "db" ["a.sql"; "b.sql"]%string (tl stopped))
      as [_ Hstop].
    exact (Hstop _ _ _ Hstopped eq_refl).
Defined.



(** * Further properties of the program *)

(** ** The calls of one upload *)

Definition is_getsize (ev : event) : bool :=
  match ev with EGetsize _ _ => true | _ => false end.

Definition is_create (ev : event) : bool :=
  match ev with ECreate _ _ _ => true | _ => false end.

Definition is_open (ev : event) : bool :=
  match ev with EOpen _ _ => true | _ => false end.

Definition is_complete (ev : event) : bool :=
  match ev with EComplete _ _ _ _ _ => true | _ => false end.

Definition is_log (ev : event) : bool :=
  match ev with ELog _ => true | _ => false end.

(** A call that raised. *)
Definition raising (ev : event) : bool :=
  match event_exn ev with Some _ => true | None => false end.

(** The number of events of a kind in a trace. *)
Definition count (p : event -> bool) (evs : list event) : nat :=
  List.length (filter p evs).

(** The session that an [upload_part] or [complete_multipart_upload] call
    names: bucket, key and upload id. *)
Definition session_of (ev : event) : option (string * string * string) :=
  match ev with
  | EUploadPart b k _ uid _ _ | EComplete b k uid _ _ => Some (b, k, uid)
  | _ => None
  end.

Lemma count_app p evs1 evs2 :
  count p (evs1 ++ evs2) = (count p evs1 + count p evs2)%nat.
Proof. unfold count. now rewrite filter_app, length_app. Qed.

Lemma count_cons p ev evs :
  count p (ev :: evs) = ((if p ev then 1 else 0) + count p evs)%nat.
Proof. unfold count. simpl. now destruct (p ev). Qed.

Lemma count_none p evs :
  (forall ev, In ev evs -> p ev = false) -> count p evs = 0%nat.
Proof.
  unfold count. induction evs as [|ev evs IH]; intros Hall; [reflexivity|].
  simpl. rewrite (Hall ev) by now left. apply IH. intros; apply Hall.
  now right.
Qed.

Lemma part_run_calls size Bucket Key uid file pn evs r :
  part_run size Bucket Key uid file pn evs r ->
  forall ev, In ev evs ->
    exists p body rp, ev = EUploadPart Bucket Key p uid body rp.
Proof.
  intros Hrun. apply part_run_only_parts, proj2 in Hrun.
  now rewrite Forall_forall in Hrun.
Qed.

Lemma handled_logs path e ev :
  In ev (fst (handled path e)) -> is_log ev = true.
Proof. destruct e; simpl; intuition (subst; reflexivity). Qed.

(** In a loop that ends normally no call raised; in a loop that ends
    with [e], the calls that raised raised [e], and there is one. *)
Lemma part_run_raising size Bucket Key uid file pn evs r :
  part_run size Bucket Key uid file pn evs r ->
  (forall ev e, In ev evs -> event_exn ev = Some e -> r = inl e)
  /\ count raising evs = (if raised r then 1 else 0)%nat
  /\ (forall e, r = inl e -> exists ev, In ev evs /\ event_exn ev = Some e
                                         /\ is_getsize ev = false).
Proof.
  induction 1 as [pn | file pn e Hne | file pn etag evs r Hne Hrun IH].
  - repeat split; [intros ev e [] | discriminate].
  - repeat split.
    + intros ev e' [<-|[]] [= <-]. reflexivity.
    + intros e' [= <-]. eexists. split; [now left|]. auto.
  - destruct IH as (IH1 & IH2 & IH3). repeat split.
    + intros ev e [<-|Hin] Hexn; [discriminate|].
      now rewrite (IH1 _ _ Hin Hexn).
    + unfold count in *. simpl. rewrite IH2. now destruct r.
    + intros e Hr. destruct r as [e'|]; [|discriminate].
      injection Hr as ->. destruct (IH3 e eq_refl) as (ev & Hin & Hev).
      exists ev. split; [now right | assumption].
Qed.

Lemma count_handled path e p :
  (forall m, p (ELog m) = false) -> count p (fst (handled path e)) = 0%nat.
Proof. intros Hp. destruct e; unfold count; simpl; now rewrite ?Hp. Qed.

Lemma count_part_run size Bucket Key uid file pn evs r p :
  part_run size Bucket Key uid file pn evs r ->
  (forall b k n u body rp, p (EUploadPart b k n u body rp) = false) ->
  count p evs = 0%nat.
Proof.
  intros Hrun Hp. apply count_none. intros ev Hin.
  destruct (part_run_calls Hrun _ Hin) as (n & body & rp & ->). apply Hp.
Qed.

(** Every body of a loop has between 1 and [size] bytes, and the bodies
    put end to end are the beginning of the file: the whole file when the
    loop ends normally. *)
Lemma part_run_prefix size Bucket Key uid file pn evs r :
  0 < size ->
  part_run size Bucket Key uid file pn evs r ->
  Forall (fun body => 0 < Z.of_nat (List.length body) <= size)
    (part_bodies evs)
  /\ exists rest,
       file = List.concat (part_bodies evs) ++ rest
       /\ (raised r = false -> rest = []).
Proof.
  intros Hsize.
  assert (Hbody : forall f : list byte, f <> [] ->
            0 < Z.of_nat (List.length (fst (file_read size f))) <= size).
  { intros f Hne. rewrite file_read_data_length by lia.
    destruct f; [congruence | simpl; lia]. }
  induction 1 as [pn | file pn e Hne | file pn etag evs r Hne Hrun IH];
    simpl.
  - split; [constructor | now exists []].
  - split; [repeat constructor; apply Hbody, Hne |].
    exists (snd (file_read size file)). rewrite app_nil_r.
    split; [now rewrite file_read_app | discriminate].
  - fold (part_bodies evs). destruct IH as (Hall & rest & Heq & Hrest).
    split; [constructor; [apply Hbody, Hne | assumption]|].
    exists rest. split.
    + rewrite <- app_assoc, <- Heq. now rewrite file_read_app.
    + intros Hr. apply Hrest. now destruct r.
Qed.

Section UploadCalls.

Variable W : Type.
Variable env : Env W.

(** One run of [upload_large_file_to_s3] is one session.  The run starts
    with [os.path.getsize], called once; it creates at most one session,
    opens the file at most once and completes at most once; and every
    [upload_part] and [complete_multipart_upload] call is made on the
    bucket and key of the run, after the session was created and the file
    opened, with the upload id that [create_multipart_upload] returned. *)
Theorem upload_is_one_session (path Bucket Key : string) (s : state W) :
  let evs := events_of (upload_large_file_to_s3 env path Bucket Key) s in
  (exists rg rest, evs = EGetsize path rg :: rest
                   /\ count is_getsize rest = 0%nat)
  /\ (count is_create evs <= 1)%nat
  /\ (count is_open evs <= 1)%nat
  /\ (count is_complete evs <= 1)%nat
  /\ (forall ev b k uid,
        In ev evs -> session_of ev = Some (b, k, uid) ->
        b = Bucket /\ k = Key
        /\ exists size file rest,
             evs = EGetsize path (inr size) :: ECreate Bucket Key (inr uid)
                   :: EOpen path (inr file) :: rest).
Proof.
  intros evs. subst evs.
  pose proof (upload_events env path Bucket Key s) as Htrace.
  assert (Hses : forall e ev b k uid, In ev (fst (handled path e)) ->
            session_of ev = Some (b, k, uid) -> False).
  { intros e ev b k uid Hin Hs. apply handled_logs in Hin.
    destruct ev; discriminate. }
  assert (Hrun_ses : forall sz uid file pn pevs rl ev b k uid',
            part_run sz Bucket Key uid file pn pevs rl -> In ev pevs ->
            session_of ev = Some (b, k, uid') ->
            b = Bucket /\ k = Key /\ uid' = uid).
  { intros sz uid file pn pevs rl ev b k uid' Hrun Hin Hs.
    destruct (part_run_calls Hrun _ Hin) as (n & body & rp & ->).
    now injection Hs as <- <- <-. }
  inversion Htrace as
    [ e | size e | size uid e | size uid file pevs e Hrun
    | size uid file pevs ps e Hrun | size uid file pevs ps Hrun ];
    clear Htrace;
    (split; [do 2 eexists; split; [reflexivity|]|]);
    repeat (rewrite count_cons || rewrite count_app);
    repeat match goal with
    | |- context [count ?p (fst (handled path ?e))] =>
        rewrite (@count_handled path e p) by reflexivity
    | Hrun : part_run _ _ _ _ _ _ ?pevs _ |- context [count ?p ?pevs] =>
        rewrite (@count_part_run _ _ _ _ _ _ _ _ p Hrun) by reflexivity
    end;
    try reflexivity;
    (split; [unfold count; simpl; lia|]);
    (split; [unfold count; simpl; lia|]);
    (split; [unfold count; simpl; lia|]);
    intros ev b k uid' Hin Hs; simpl in Hin.
  - destruct Hin as [<-|[]]. discriminate.
  - destruct Hin as [<-|[<-|Hin]]; try discriminate.
    destruct (Hses _ _ _ _ _ Hin Hs).
  - destruct Hin as [<-|[<-|[<-|Hin]]]; try discriminate.
    destruct (Hses _ _ _ _ _ Hin Hs).
  - destruct Hin as [<-|[<-|[<-|Hin]]]; try discriminate.
    apply in_app_or in Hin as [Hin|Hin];
      [|destruct (Hses _ _ _ _ _ Hin Hs)].
    destruct (Hrun_ses _ _ _ _ _ _ _ _ _ _ Hrun Hin Hs) as (-> & -> & ->).
    eauto 6.
  - destruct Hin as [<-|[<-|[<-|Hin]]]; try discriminate.
    apply in_app_or in Hin as [Hin|[<-|Hin]];
      [| |destruct (Hses _ _ _ _ _ Hin Hs)].
    + destruct (Hrun_ses _ _ _ _ _ _ _ _ _ _ Hrun Hin Hs) as (-> & -> & ->).
      eauto 6.
    + injection Hs as <- <- <-. eauto 6.
  - destruct Hin as [<-|[<-|[<-|Hin]]]; try discriminate.
    apply in_app_or in Hin as [Hin|[<-|[<-|[]]]]; try discriminate.
    + destruct (Hrun_ses _ _ _ _ _ _ _ _ _ _ Hrun Hin Hs) as (-> & -> & ->).
      eauto 6.
    + injection Hs as <- <- <-. eauto 6.
Qed.

End UploadCalls.

(** ** How an upload ends *)

Lemma handled_quiet path e ev :
  In ev (fst (handled path e)) -> event_exn ev = None.
Proof. destruct e; simpl; intuition (subst; reflexivity). Qed.

Lemma handled_not_uploaded path e p b k :
  ~ In (ELog (LogUploaded p b k)) (fst (handled path e)).
Proof. destruct e; simpl; intuition discriminate. Qed.

Lemma last_two {A} (l : list A) (a b d : A) : last (l ++ [a; b]) d = b.
Proof.
  change [a; b] with ([a] ++ [b]). rewrite app_assoc. apply last_last.
Qed.

Lemma handled_caught path e :
  snd (handled path e) = (if caught e then inr tt else inl e).
Proof. now destruct e. Qed.

Section UploadOutcome.

Variable W : Type.
Variable env : Env W.

(** The log line of a finished upload tells the truth: a run of
    [upload_large_file_to_s3] logs it exactly when
    [complete_multipart_upload] returned, and then no call of the run
    raised, the line is the last event, and the function returns
    normally. *)
Theorem uploaded_is_logged_iff_completed (path Bucket Key : string)
  (s : state W) :
  let evs := events_of (upload_large_file_to_s3 env path Bucket Key) s in
  ((exists b k uid ps, In (EComplete b k uid ps (inr tt)) evs) <->
   (exists p b k, In (ELog (LogUploaded p b k)) evs))
  /\ (forall p b k,
        In (ELog (LogUploaded p b k)) evs ->
        p = path /\ b = Bucket /\ k = Key
        /\ count raising evs = 0%nat
        /\ last evs (ENow (Datetime 0 0 0)) = ELog (LogUploaded path Bucket Key)
        /\ fst (upload_large_file_to_s3 env path Bucket Key s) = inr tt).
Proof.
  intros evs. subst evs.
  pose proof (upload_events env path Bucket Key s) as Htrace.
  assert (Hparts : forall sz uid file pn pevs rl ev,
            part_run sz Bucket Key uid file pn pevs rl -> In ev pevs ->
            is_complete ev = false /\ is_log ev = false).
  { intros sz uid file pn pevs rl ev Hrun Hin.
    destruct (part_run_calls Hrun _ Hin) as (n & body & rp & ->). auto. }
  assert (Hcompl : forall e ev, In ev (fst (handled path e)) ->
            is_complete ev = false).
  { intros e ev Hin. apply handled_logs in Hin. now destruct ev. }
  inversion Htrace as
    [ e | size e | size uid e | size uid file pevs e Hrun
    | size uid file pevs ps e Hrun | size uid file pevs ps Hrun ];
    clear Htrace.
  1-5: split;
    [ split; [intros (b & k & u & ps' & Hin) | intros (p & b & k & Hin)]
    | intros p b k Hin ];
    exfalso; simpl in Hin;
    repeat match type of Hin with
    | _ \/ _ => destruct Hin as [Hin|Hin]; [discriminate|]
    | False => contradiction
    | In _ (_ ++ _) => apply in_app_or in Hin as [Hin|Hin]
    | In _ (_ :: _) => destruct Hin as [Hin|Hin]; [discriminate|]
    | In _ (fst (handled _ _)) =>
        first [ now apply handled_not_uploaded in Hin
              | apply Hcompl in Hin; discriminate ]
    | In _ ?l =>
        match goal with
        | Hrun : part_run _ _ _ _ _ _ l _ |- _ =>
            destruct (Hparts _ _ _ _ _ _ _ Hrun Hin); discriminate
        end
    end.
  split.
  - split; intros _.
    + exists path, Bucket, Key. do 3 right. apply in_or_app. right.
      right. now left.
    + exists Bucket, Key, uid, ps. do 3 right. apply in_or_app. right.
      now left.
  - intros p b k Hin. simpl in Hin.
    destruct Hin as [Hin|[Hin|[Hin|Hin]]]; try discriminate.
    apply in_app_or in Hin as [Hin|[Hin|[Hin|[]]]]; try discriminate.
    { destruct (Hparts _ _ _ _ _ _ _ Hrun Hin); discriminate. }
    injection Hin as <- <- <-. repeat split.
    + repeat (rewrite count_cons || rewrite count_app).
      destruct (part_run_raising Hrun) as (_ & -> & _). reflexivity.
    + apply (@last_two _
               (EGetsize path (inr size) :: ECreate Bucket Key (inr uid)
                :: EOpen path (inr file) :: pevs)).
Qed.

(** When [upload_large_file_to_s3] raises.  At most one call of a run
    raises.  The function raises [e] exactly when [os.path.getsize]
    raised [e] (it is called before the [try], so that even a
    [FileNotFoundError] leaves the function), or when a later call raised
    [e] and [e] is neither a [FileNotFoundError] nor a
    [NoCredentialsError]. *)
Theorem upload_raises_iff (path Bucket Key : string) (s : state W)
  (e : exn) :
  let evs := events_of (upload_large_file_to_s3 env path Bucket Key) s in
  (count raising evs <= 1)%nat
  /\ (fst (upload_large_file_to_s3 env path Bucket Key s) = inl e <->
      In (EGetsize path (inl e)) evs
      \/ (caught e = false
          /\ exists ev, In ev evs /\ is_getsize ev = false
                        /\ event_exn ev = Some e)).
Proof.
  intros evs. subst evs.
  pose proof (upload_events env path Bucket Key s) as Htrace.
  assert (Hgs : forall sz uid file pn pevs rl,
            part_run sz Bucket Key uid file pn pevs rl ->
            ~ In (EGetsize path (inl e)) pevs).
  { intros sz uid file pn pevs rl Hrun Hin.
    destruct (part_run_calls Hrun _ Hin) as (n & body & rp & ?).
    discriminate. }
  assert (Hgh : forall e', ~ In (EGetsize path (inl e))
                             (fst (handled path e'))).
  { intros e' Hin. apply handled_logs in Hin. discriminate. }
  inversion Htrace as
    [ e' | size e' | size uid e' | size uid file pevs e' Hrun
    | size uid file pevs ps e' Hrun | size uid file pevs ps Hrun ];
    clear Htrace;
    (split;
     [ repeat (rewrite count_cons || rewrite count_app);
       try rewrite (@count_handled path e' raising) by reflexivity;
       try (destruct (part_run_raising Hrun) as (_ & -> & _));
       unfold count; simpl; lia
     | rewrite ?handled_caught ]).
  - split.
    + intros [= ->]. left. now left.
    + intros [[[= ->]|[]] | (_ & ev & [<-|[]] & Hg & _)];
        [reflexivity | discriminate].
  - split.
    + destruct (caught e') eqn:Hc; [discriminate|]. intros [= ->].
      right. split; [assumption|].
      exists (ECreate Bucket Key (inl e)). simpl. auto.
    + intros [Hin | (Hc & ev & Hin & Hg & Hexn)]; simpl in Hin.
      * destruct Hin as [Hin|[Hin|Hin]]; try discriminate.
        destruct (Hgh _ Hin).
      * destruct Hin as [<-|[<-|Hin]]; try discriminate.
        -- injection Hexn as ->. now rewrite Hc.
        -- apply handled_quiet in Hin. congruence.
  - split.
    + destruct (caught e') eqn:Hc; [discriminate|]. intros [= ->].
      right. split; [assumption|].
      exists (EOpen path (inl e)). simpl. auto.
    + intros [Hin | (Hc & ev & Hin & Hg & Hexn)]; simpl in Hin.
      * destruct Hin as [Hin|[Hin|[Hin|Hin]]]; try discriminate.
        destruct (Hgh _ Hin).
      * destruct Hin as [<-|[<-|[<-|Hin]]]; try discriminate.
        -- injection Hexn as ->. now rewrite Hc.
        -- apply handled_quiet in Hin. congruence.
  - destruct (part_run_raising Hrun) as (Hall & _ & Hex). split.
    + destruct (caught e') eqn:Hc; [discriminate|]. intros [= ->].
      right. split; [assumption|].
      destruct (Hex e eq_refl) as (ev & Hin & Hexn & Hg).
      exists ev. split; [|auto]. do 3 right. apply in_or_app. now left.
    + intros [Hin | (Hc & ev & Hin & Hg & Hexn)]; simpl in Hin.
      * destruct Hin as [Hin|[Hin|[Hin|Hin]]]; try discriminate.
        apply in_app_or in Hin as [Hin|Hin];
          [destruct (Hgs _ _ _ _ _ _ Hrun Hin) | destruct (Hgh _ Hin)].
      * destruct Hin as [<-|[<-|[<-|Hin]]]; try discriminate.
        apply in_app_or in Hin as [Hin|Hin].
        -- specialize (Hall _ _ Hin Hexn). injection Hall as ->.
           now rewrite Hc.
        -- apply handled_quiet in Hin. congruence.
  - destruct (part_run_raising Hrun) as (Hall & _ & _). split.
    + destruct (caught e') eqn:Hc; [discriminate|]. intros [= ->].
      right. split; [assumption|].
      exists (EComplete Bucket Key uid ps (inl e)).
      split; [|auto]. do 3 right. apply in_or_app. right. now left.
    + intros [Hin | (Hc & ev & Hin & Hg & Hexn)]; simpl in Hin.
      * destruct Hin as [Hin|[Hin|[Hin|Hin]]]; try discriminate.
        apply in_app_or in Hin as [Hin|[Hin|Hin]]; try discriminate;
          [destruct (Hgs _ _ _ _ _ _ Hrun Hin) | destruct (Hgh _ Hin)].
      * destruct Hin as [<-|[<-|[<-|Hin]]]; try discriminate.
        apply in_app_or in Hin as [Hin|[<-|Hin]].
        -- specialize (Hall _ _ Hin Hexn). discriminate.
        -- injection Hexn as ->. now rewrite Hc.
        -- apply handled_quiet in Hin. congruence.
  - destruct (part_run_raising Hrun) as (Hall & _ & _). split.
    + discriminate.
    + intros [Hin | (Hc & ev & Hin & Hg & Hexn)]; simpl in Hin.
      * destruct Hin as [Hin|[Hin|[Hin|Hin]]]; try discriminate.
        apply in_app_or in Hin as [Hin|[Hin|[Hin|[]]]]; try discriminate.
        destruct (Hgs _ _ _ _ _ _ Hrun Hin).
      * destruct Hin as [<-|[<-|[<-|Hin]]]; try discriminate.
        apply in_app_or in Hin as [Hin|[<-|[<-|[]]]]; try discriminate.
        specialize (Hall _ _ Hin Hexn). discriminate.
Qed.

(** The parts of any run, also of one that fails.  Every part body has
    between 1 byte and 5 MiB, the bodies put end to end are the beginning
    of the file that was opened, and they are the whole file when no
    [upload_part] call raised; a run that did not open the file uploads no
    part. *)
Theorem parts_are_a_prefix_of_the_file (path Bucket Key : string)
  (s : state W) :
  let evs := events_of (upload_large_file_to_s3 env path Bucket Key) s in
  (forall file,
     In (EOpen path (inr file)) evs ->
     Forall (fun body => 0 < Z.of_nat (List.length body) <= 5 * 1024 * 1024)
       (part_bodies evs)
     /\ exists rest,
          file = List.concat (part_bodies evs) ++ rest
          /\ (part_failures evs = [] -> rest = []))
  /\ ((forall file, ~ In (EOpen path (inr file)) evs) ->
      part_bodies evs = []).
Proof.
  intros evs. split.
  - intros file Hopen.
    destruct (upload_trace_opened _ (upload_events env path Bucket Key s)
                Hopen)
      as (sz & uid & pevs & rl & tail & Hevs & Hrun & Htail).
    fold evs in Hevs. rewrite Hevs. clear Hevs evs Hopen.
    assert (Hb : part_bodies tail = [] /\ part_failures tail = []).
    { destruct rl as [e|ps].
      - destruct Htail as [-> _]. now trace_simpl.
      - destruct Htail as (rc & -> & _). destruct rc; now trace_simpl. }
    destruct Hb as [Hb Hf]. trace_simpl. rewrite Hb, Hf, !app_nil_r.
    change (5 * 1024 * 1024) with part_size.
    destruct (part_run_prefix part_size_pos Hrun)
      as (Hall & rest & Heq & Hrest).
    split; [assumption|]. exists rest. split; [assumption|].
    intros Hnone. apply Hrest. destruct rl as [e|ps]; [|reflexivity].
    apply part_run_raised in Hrun
      as (? & ? & _ & _ & Hfail). congruence.
  - intros Hnone. subst evs.
    pose proof (upload_events env path Bucket Key s) as Htrace.
    inversion Htrace as
      [ e | size e | size uid e | size uid file pevs e Hrun Hev
      | size uid file pevs ps e Hrun Hev | size uid file pevs ps Hrun Hev ];
      try (now trace_simpl);
      exfalso; apply (Hnone file); rewrite <- Hev; simpl; auto.
Qed.

(** The number of parts of a completed upload is the size of the file
    divided by 5 MiB, rounded up. *)
Theorem number_of_parts (path Bucket Key : string) (s : state W)
  (file : list byte) (b k uid : string) (Parts : list part)
  (r : result unit) :
  let evs := events_of (upload_large_file_to_s3 env path Bucket Key) s in
  In (EOpen path (inr file)) evs ->
  In (b, k, uid, Parts, r) (completions evs) ->
  Z.of_nat (List.length Parts)
  = (Z.of_nat (List.length file) + 5 * 1024 * 1024 - 1) / (5 * 1024 * 1024).
Proof.
  intros evs Hopen Hcompl.
  change (5 * 1024 * 1024) with part_size.
  pose proof part_size_pos as Hpos.
  destruct (upload_trace_opened _ (upload_events env path Bucket Key s) Hopen)
    as (sz & uid' & pevs & rl & tail & Hevs & Hrun & Htail).
  fold evs in Hevs. rewrite Hevs in *. clear Hevs evs Hopen.
  destruct (part_run_only_parts Hrun) as [Hnone _].
  destruct rl as [e|ps].
  { destruct Htail as [-> _]. revert Hcompl. trace_simpl.
    now rewrite Hnone. }
  destruct Htail as (rc & -> & _).
  assert (Parts = ps) as ->.
  { revert Hcompl. destruct rc; trace_simpl; rewrite Hnone; simpl;
      intros [[= _ _ _ <- _]|[]]; reflexivity. }
  clear Hcompl.
  destruct (part_run_returned Hrun) as (_ & _ & Hlen & _ & Hcat).
  destruct (part_run_numbers Hrun) as [_ Hbl].
  destruct file as [|c file].
  { apply part_run_empty in Hrun as [-> _]. simpl in Hlen. rewrite Hlen.
    cbn [List.length]. symmetry. apply Z.div_small. lia. }
  destruct (part_run_sizes Hpos Hrun) as (full & final & Heq & Hfull & Hfinal);
    [discriminate|].
  assert (Hsum : Z.of_nat (List.length (c :: file))
                 = Z.of_nat (List.length full) * part_size
                   + Z.of_nat (List.length final)).
  { rewrite <- Hcat at 1. rewrite length_concat, Heq, map_app, list_sum_app.
    rewrite Nat2Z.inj_add, (sum_of_full_bodies Hfull). simpl. lia. }
  rewrite Hlen, <- Hbl, Heq, length_app, Hsum. cbn [List.length].
  apply Z.div_unique with (r := Z.of_nat (List.length final) - 1); [lia|].
  rewrite Nat2Z.inj_add. change (Z.of_nat 1) with 1. ring.
Qed.

End UploadOutcome.

(** ** The selection of the files *)

Lemma append_empty_r (s : string) : (s ++ EmptyString)%string = s.
Proof. induction s as [|c s IH]; simpl; congruence. Qed.

Lemma filter_all {A} (f : A -> bool) (l : list A) :
  (forall x, In x l -> f x = true) -> filter f l = l.
Proof.
  induction l as [|x l IH]; intros Hall; [reflexivity|].
  simpl. rewrite (Hall x) by now left. f_equal. apply IH.
  intros y Hy. apply Hall. now right.
Qed.

(** [''] among the patterns selects every file of the folder: every
    string ends with the empty string. *)
Theorem empty_pattern_selects_every_file (listing patterns : list string) :
  In EmptyString patterns -> files_to_backup listing patterns = listing.
Proof.
  intros Hin. unfold files_to_backup. apply filter_all. intros f _.
  apply is_included_spec. exists EmptyString. split; [assumption|].
  apply endswith_spec. exists f. now rewrite append_empty_r.
Qed.

(** The selection depends on the set of the patterns only, not on their
    order nor on repetitions, and it grows with this set; the files keep
    the order of the listing. *)
Theorem selection_depends_on_the_set_of_patterns
  (listing patterns1 patterns2 : list string) :
  (incl patterns1 patterns2 ->
   incl (files_to_backup listing patterns1)
     (files_to_backup listing patterns2))
  /\ (incl patterns1 patterns2 -> incl patterns2 patterns1 ->
      files_to_backup listing patterns1 = files_to_backup listing patterns2)
  /\ (forall listing',
        files_to_backup (listing ++ listing') patterns1
        = files_to_backup listing patterns1
          ++ files_to_backup listing' patterns1).
Proof.
  assert (Hmono : forall ps1 ps2 f, incl ps1 ps2 ->
            is_included f ps1 = true -> is_included f ps2 = true).
  { intros ps1 ps2 f Hincl. rewrite !is_included_spec.
    intros (p & Hp & Hend). exists p. split; [apply Hincl, Hp | exact Hend]. }
  split; [|split].
  - intros Hincl f. unfold files_to_backup. rewrite !filter_In.
    intros [Hin Hf]. split; [assumption|]. now apply Hmono with patterns1.
  - intros H12 H21. unfold files_to_backup. apply filter_ext. intros f.
    destruct (is_included f patterns1) eqn:H1.
    + symmetry. now apply Hmono with patterns1.
    + destruct (is_included f patterns2) eqn:H2; [|reflexivity].
      rewrite (Hmono _ _ _ H21 H2) in H1. discriminate.
  - intros listing'. apply filter_app.
Qed.

(** ** The keys of different days and files *)

(** The dates that [datetime.now()] gives from the year 1000 on: the
    years that [%Y] writes with four digits. *)
Definition valid_date (d : datetime) : bool :=
  ((1000 <=? year d) && (year d <=? 9999)
   && (1 <=? month d) && (month d <=? 12)
   && (1 <=? day d) && (day d <=? 31))%N.

Lemma append_cancel_l (p a b : string) :
  (p ++ a)%string = (p ++ b)%string -> a = b.
Proof.
  induction p as [|c p IH]; simpl; intros H; [assumption|].
  injection H as H. auto.
Qed.

Lemma digit_inj (a b : N) : digit a = digit b -> (a mod 10 = b mod 10)%N.
Proof.
  unfold digit. intros H. apply (f_equal N_of_ascii) in H.
  pose proof (N.mod_lt a 10 ltac:(discriminate)) as Ha.
  pose proof (N.mod_lt b 10 ltac:(discriminate)) as Hb.
  rewrite !N_ascii_embedding in H by lia. lia.
Qed.

Lemma decimal_step (a b : N) :
  (a / 10 = b / 10 -> a mod 10 = b mod 10 -> a = b)%N.
Proof.
  intros Hd Hm. rewrite (N.div_mod a 10), (N.div_mod b 10) by discriminate.
  now rewrite Hd, Hm.
Qed.

Lemma decimal_2 (a b : N) :
  (a < 100 -> b < 100 ->
   (a / 10) mod 10 = (b / 10) mod 10 -> a mod 10 = b mod 10 -> a = b)%N.
Proof.
  intros Ha Hb H1 H0. apply decimal_step; [|assumption].
  rewrite !N.mod_small in H1
    by (apply N.Div0.div_lt_upper_bound; assumption).
  exact H1.
Qed.

Lemma decimal_4 (a b : N) :
  (a < 10000 -> b < 10000 ->
   (a / 1000) mod 10 = (b / 1000) mod 10 ->
   (a / 100) mod 10 = (b / 100) mod 10 ->
   (a / 10) mod 10 = (b / 10) mod 10 -> a mod 10 = b mod 10 -> a = b)%N.
Proof.
  intros Ha Hb H3 H2 H1 H0.
  rewrite !N.mod_small in H3
    by (apply N.Div0.div_lt_upper_bound; assumption).
  apply decimal_step; [|assumption].
  apply decimal_step; [|assumption].
  rewrite !N.Div0.div_div. change (10 * 10)%N with 100%N.
  apply decimal_step; [|assumption].
  rewrite !N.Div0.div_div. exact H3.
Qed.

(** Two files of a folder, or one file on two days, never get the same
    key: the key determines the date and the file name.  The date takes
    ten characters of the key. *)
Theorem destination_keys_are_distinct (prefix : string) (d1 d2 : datetime)
  (f1 f2 : string) :
  valid_date d1 = true -> valid_date d2 = true ->
  (destination_key prefix d1 f1 = destination_key prefix d2 f2 <->
   d1 = d2 /\ f1 = f2)
  /\ String.length (destination_key prefix d1 f1)
     = (String.length prefix + 12 + String.length f1)%nat.
Proof.
  intros H1 H2. split; [split|].
  - unfold destination_key. intros Heq.
    apply append_cancel_l in Heq. rewrite !strftime_shape in Heq.
    cbn [append] in Heq.
    injection Heq as Hy3 Hy2 Hy1 Hy0 Hm1 Hm0 Hd1 Hd0 Hf.
    destruct d1 as [y1 m1 dd1], d2 as [y2 m2 dd2].
    unfold valid_date in H1, H2. cbn [year month day] in *.
    rewrite !andb_true_iff, !N.leb_le in H1, H2.
    apply digit_inj in Hy3, Hy2, Hy1, Hy0, Hm1, Hm0, Hd1, Hd0.
    split; [|assumption].
    f_equal; [apply decimal_4 | apply decimal_2 | apply decimal_2];
      (assumption || lia).
  - intros [-> ->]. reflexivity.
  - unfold destination_key. rewrite strftime_shape.
    rewrite length_append. cbn [append String.length]. lia.
Qed.

(** ** The runs of a job *)

Definition is_listdir (ev : event) : bool :=
  match ev with EListdir _ _ => true | _ => false end.

Lemma upload_trace_no_listdir path Bucket Key evs r :
  upload_trace path Bucket Key evs r -> count is_listdir evs = 0%nat.
Proof.
  intros Hup. apply upload_trace_events in Hup.
  rewrite Forall_forall in Hup. apply count_none. intros ev Hin.
  specialize (Hup _ Hin). destruct ev; simpl in *; auto; contradiction.
Qed.

Lemma loop_trace_no_listdir prefix folder bucket files evs r :
  loop_trace prefix folder bucket files evs r ->
  count is_listdir evs = 0%nat.
Proof.
  induction 1 as
    [ | f files d Hp | f files d p evs r Hp Hloop IH
    | f files d p e uevs e' Hp Hup
    | f files d p e uevs evs r Hp Hup Hloop IH ];
    repeat (rewrite count_cons || rewrite count_app);
    try rewrite (upload_trace_no_listdir Hup); try rewrite IH;
    reflexivity.
Qed.

(** The files that a loop checks are the first files of the list, in
    order, each under the date read just before; the loop reads the
    clock once for each of them, and for every file of the list when it
    ends normally. *)
Lemma loop_trace_checked prefix folder bucket files evs r :
  loop_trace (Some prefix) folder bucket files evs r ->
  (List.length (clock evs) <= List.length files)%nat
  /\ checked evs
     = map (fun df => (bucket, destination_key prefix (fst df) (snd df)))
         (combine (clock evs) files)
  /\ (r = inr tt -> List.length (clock evs) = List.length files).
Proof.
  induction 1 as
    [ | f files d Hp | f files d p evs r Hp Hloop IH
    | f files d p e uevs e' Hp Hup
    | f files d p e uevs evs r Hp Hup Hloop IH ].
  - auto.
  - discriminate.
  - injection Hp as <-. destruct IH as (Hlen & Hchecked & Hall).
    simpl. fold (clock evs) (checked evs). rewrite Hchecked.
    repeat split; [lia | auto].
  - injection Hp as <-.
    apply upload_trace_events, upload_events_checked in Hup as [Hc Hk].
    simpl. fold (clock uevs) (checked uevs). rewrite Hc, Hk. simpl.
    repeat split; [lia | discriminate].
  - injection Hp as <-. destruct IH as (Hlen & Hchecked & Hall).
    apply upload_trace_events, upload_events_checked in Hup as [Hc Hk].
    unfold checked, clock in *. simpl. rewrite !flat_map_app.
    rewrite Hc, Hk. simpl. rewrite Hchecked.
    repeat split; [lia | auto].
Qed.

Section JobRuns.

Variable W : Type.
Variable env : Env W.

(** A run that has nothing to upload.  A run whose configuration has
    the keys [folder] and [s3_bucket_name] lists the folder first, and
    once; when the listing raises, the run logs the exception and ends;
    when no file of the listing is selected, the listing is the only
    event of the run: no clock reading, no S3 call, no log line. *)
Theorem run_without_candidates (config : Config) (s : state W)
  (folder bucket : string) :
  let evs := events_of (backup_job env config) s in
  cfg_folder config = Some folder ->
  cfg_s3_bucket_name config = Some bucket ->
  exists rl rest,
    evs = EListdir folder rl :: rest
    /\ count is_listdir rest = 0%nat
    /\ match rl with
       | inl e => rest = [ELog (LogJobError e)]
       | inr listing =>
           files_to_backup listing (dict_get (cfg_include config) []) = [] ->
           rest = []
       end.
Proof.
  intros evs Hfolder Hbucket. subst evs.
  pose proof (job_events env config s) as Hjob.
  inversion Hjob as
    [ Hf | folder' Hf Hb | folder' bucket' e Hf Hb
    | folder' bucket' listing levs r Hf Hb Hloop ];
    try congruence.
  - assert (folder' = folder) as -> by congruence.
    exists (inl e), [ELog (LogJobError e)]. auto.
  - assert (folder' = folder) as -> by congruence.
    exists (inr listing). eexists. split; [reflexivity|]. split.
    + rewrite count_app, (loop_trace_no_listdir Hloop). now destruct r.
    + intros Hnone. rewrite Hnone in Hloop.
      inversion Hloop; subst. reflexivity.
Qed.

(** A configuration without the key [prefix].  The [KeyError] is raised
    only when a file is selected, after the clock is read for the first
    file: the run logs it and ends, and no run of such a configuration
    makes any S3 call. *)
Theorem missing_prefix_is_found_late (config : Config) (s : state W) :
  let evs := events_of (backup_job env config) s in
  cfg_prefix config = None ->
  (forall ev, In ev evs -> upload_key ev = None /\ is_head ev = false)
  /\ (forall folder listing rest,
        evs = EListdir folder (inr listing) :: rest ->
        match files_to_backup listing (dict_get (cfg_include config) []) with
        | [] => rest = []
        | _ :: _ =>
            exists d, rest = [ENow d; ELog (LogJobError (KeyError "prefix"))]
        end).
Proof.
  intros evs Hprefix. subst evs.
  pose proof (job_events env config s) as Hjob.
  assert (Hloop_shape : forall folder bucket files levs r,
            loop_trace None folder bucket files levs r ->
            match files with
            | [] => levs = [] /\ r = inr tt
            | _ :: _ => exists d, levs = [ENow d]
                                  /\ r = inl (KeyError "prefix")
            end).
  { intros folder bucket files levs r Hloop.
    inversion Hloop; subst; try discriminate; eauto. }
  inversion Hjob as
    [ Hf Hev | folder' Hf Hb Hev | folder' bucket' e Hf Hb Hev
    | folder' bucket' listing' levs r Hf Hb Hloop Hev ].
  - split; [|discriminate]. intros ev [<-|[]]. auto.
  - split; [|discriminate]. intros ev [<-|[]]. auto.
  - split; [|discriminate]. intros ev [<-|[<-|[]]]; auto.
  - rewrite Hprefix in Hloop. apply Hloop_shape in Hloop.
    destruct (files_to_backup listing' (dict_get (cfg_include config) []))
      as [|f files] eqn:Hfiles.
    + destruct Hloop as [-> ->]. split.
      * intros ev [<-|[]]. auto.
      * intros folder listing rest [= _ <- <-]. now rewrite Hfiles.
    + destruct Hloop as (d & -> & ->). split.
      * intros ev [<-|[<-|[<-|[]]]]; auto.
      * intros folder listing rest [= _ <- <-]. rewrite Hfiles. eauto.
Qed.

(** The files are processed in the order of the selection, one after the
    other, none twice and none left out in between: in every run, also
    one that an exception ends, the existence checks are those of the
    first files of the selection, each under the date read just before
    it; and when fewer dates were read than files selected, the run ended
    with the log line of an exception. *)
Theorem checked_files_are_the_first_selected (config : Config)
  (s : state W) (folder bucket prefix : string) (listing : list string)
  (rest : list event) :
  let evs := events_of (backup_job env config) s in
  let files := files_to_backup listing (dict_get (cfg_include config) []) in
  evs = EListdir folder (inr listing) :: rest ->
  cfg_s3_bucket_name config = Some bucket ->
  cfg_prefix config = Some prefix ->
  (List.length (clock evs) <= List.length files)%nat
  /\ checked evs
     = map (fun df => (bucket, destination_key prefix (fst df) (snd df)))
         (combine (clock evs) files)
  /\ ((List.length (clock evs) < List.length files)%nat ->
      exists e before, evs = before ++ [ELog (LogJobError e)]).
Proof.
  intros evs files. subst files.
  pose proof (job_events env config s) as Hjob.
  fold evs in Hjob. clearbody evs.
  intros -> Hbucket Hprefix.
  inversion Hjob as
    [ Hf Hev | folder' Hf Hb Hev | folder' bucket' e Hf Hb Hev
    | folder' bucket' listing' levs r Hf Hb Hloop Hev ];
    try discriminate.
  subst. rewrite Hprefix in Hloop. rewrite Hbucket in Hb.
  injection Hb as <-.
  destruct (loop_trace_checked Hloop) as (Hlen & Hchecked & Hall).
  assert (Hc : clock (EListdir folder (inr listing)
                      :: levs ++ match r with
                                 | inl e => [ELog (LogJobError e)]
                                 | inr _ => []
                                 end) = clock levs).
  { unfold clock. simpl. rewrite flat_map_app.
    destruct r; simpl; now rewrite app_nil_r. }
  assert (Hk : checked (EListdir folder (inr listing)
                        :: levs ++ match r with
                                   | inl e => [ELog (LogJobError e)]
                                   | inr _ => []
                                   end) = checked levs).
  { unfold checked. simpl. rewrite flat_map_app.
    destruct r; simpl; now rewrite app_nil_r. }
  rewrite Hc, Hk. split; [assumption|]. split; [assumption|].
  intros Hlt. destruct r as [e|[]].
  - exists e, (EListdir folder (inr listing) :: levs). reflexivity.
  - specialize (Hall eq_refl). lia.
Qed.

(** When no call of an upload raises, the file is uploaded.  After an
    existence check of a run that raised, when no later call raises but
    existence checks, the run goes on with the whole upload of the file:
    size, session, open, parts, and a completion that returns and lists
    the parts that were uploaded, whose bodies put end to end are the
    content of the file; the log line of the upload follows. *)
Theorem quiet_upload_completes (config : Config) (s : state W)
  (before : list event) (b k : string) (e : exn) (after : list event) :
  events_of (backup_job env config) s = before ++ EHead b k (inl e) :: after ->
  (forall ev, In ev after -> raising ev = true -> is_head ev = true) ->
  exists folder filename size uid file pevs rest,
    cfg_folder config = Some folder
    /\ after
       = EGetsize (os_path_join folder filename) (inr size)
         :: ECreate b k (inr uid)
         :: EOpen (os_path_join folder filename) (inr file)
         :: pevs
         ++ EComplete b k uid (part_entries pevs) (inr tt)
         :: ELog (LogUploaded (os_path_join folder filename) b k) :: rest
    /\ List.concat (part_bodies pevs) = file
    /\ List.length (part_entries pevs) = List.length pevs.
Proof.
  intros Hevs Hquiet.
  destruct (job_trace_head (job_events env config s) _ _ _ _ _ Hevs)
    as (folder & listing & before' & d & p & f & uevs & rest
        & Hf & Hb & Hp & -> & Hin & -> & -> & (ur & Hup & Hur) & Hrest).
  assert (Hq : forall ev, In ev uevs -> raising ev = true ->
                 is_head ev = true).
  { intros ev Hev. apply Hquiet. apply in_or_app. now left. }
  clear Hquiet.
  inversion Hup as
    [ e' | size e' | size uid e' | size uid file pevs e' Hrun
    | size uid file pevs ps e' Hrun | size uid file pevs ps Hrun ];
    subst uevs.
  - discriminate (Hq (EGetsize (os_path_join folder f) (inl e'))
                    ltac:(now left) eq_refl).
  - discriminate (Hq (ECreate b (destination_key p d f) (inl e'))
                    ltac:(right; now left) eq_refl).
  - discriminate (Hq (EOpen (os_path_join folder f) (inl e'))
                    ltac:(do 2 right; now left) eq_refl).
  - destruct (part_run_raising Hrun) as (_ & _ & Hex).
    destruct (Hex e' eq_refl) as (ev & Hev & Hexn & _).
    destruct (part_run_calls Hrun _ Hev) as (n & body & rp & ->).
    assert (Hr : raising (EUploadPart b (destination_key p d f) n uid body rp)
                 = true) by (unfold raising; now rewrite Hexn).
    assert (Hh : is_head (EUploadPart b (destination_key p d f) n uid body rp)
                 = true)
      by (apply Hq; [do 3 right; apply in_or_app; now left | assumption]).
    discriminate.
  - assert (Hh : is_head (EComplete b (destination_key p d f) uid ps (inl e'))
                 = true)
      by (apply Hq; [do 3 right; apply in_or_app; right; now left
                    | reflexivity]).
    discriminate.
  - destruct (part_run_returned Hrun) as (-> & _ & Hlen & _ & Hcat).
    exists folder, f, size, uid, file, pevs, rest.
    split; [assumption|]. split; [|auto].
    simpl. now rewrite <- app_assoc.
Qed.

End JobRuns.

(** ** Runs on the small environment *)

Module MoreRuns.

(** A file of one byte, the first [upload_part] raises a 500
    [ClientError]. *)
Definition upload_500 : M Sim.world unit :=
  upload_large_file_to_s3 (Sim.env [] [x00] 1 (ClientError "500"))
    "/data/a.sql" "bk" "db/2024-03-01/a.sql".

(** The folder holds [y.tmp] only. *)
Definition env_tmp : Env Sim.world :=
  Sim.env ["y.tmp"%string] [x00] 0 NoCredentialsError.

(** A folder entry without the key [prefix]. *)
Definition config_no_prefix : Config := {|
  cfg_folder := Some "/data"%string;
  cfg_s3_bucket_name := Some "bk"%string;
  cfg_include := Some [".sql"%string];
  cfg_prefix := None
|}.

End MoreRuns.

Lemma upload_is_one_session_witness :
  let evs := events_of Runs.upload_ok (Sim.init Runs.date []) in
  let ev := EComplete "bk" Runs.key_a "uid" [Part 1 "etag"] (inr tt) in
  (In ev evs /\ session_of ev = Some ("bk"%string, Runs.key_a, "uid"%string))
  /\ exists size file rest,
       evs = EGetsize "/data/a.sql" (inr size)
             :: ECreate "bk" Runs.key_a (inr "uid"%string)
             :: EOpen "/data/a.sql" (inr file) :: rest.
Proof.
  intros evs ev.
  assert (Hhyp : In ev evs
                 /\ session_of ev
                    = Some ("bk"%string, Runs.key_a, "uid"%string))
    by (vm_compute; auto 10).
  split; [exact Hhyp|]. destruct Hhyp as [Hin Hs].
  destruct (upload_is_one_session
              (Sim.env [] [x00; x01] 0 NoCredentialsError)
              "/data/a.sql" "bk" "db/2024-03-01/a.sql"
              (Sim.init Runs.date [])) as (_ & _ & _ & _ & Hses).
  exact (proj2 (proj2 (Hses _ _ _ _ Hin Hs))).
Defined.

Lemma uploaded_is_logged_iff_completed_witness :
  let evs := events_of Runs.upload_ok (Sim.init Runs.date []) in
  In (ELog (LogUploaded "/data/a.sql" "bk" Runs.key_a)) evs
  /\ count raising evs = 0%nat
  /\ fst (Runs.upload_ok (Sim.init Runs.date [])) = inr tt.
Proof.
  intros evs.
  assert (Hhyp : In (ELog (LogUploaded "/data/a.sql" "bk" Runs.key_a)) evs)
    by (vm_compute; auto 10).
  split; [exact Hhyp|].
  destruct (uploaded_is_logged_iff_completed
              (Sim.env [] [x00; x01] 0 NoCredentialsError)
              "/data/a.sql" "bk" "db/2024-03-01/a.sql"
              (Sim.init Runs.date [])) as (_ & Hlog).
  destruct (Hlog _ _ _ Hhyp) as (_ & _ & _ & Hquiet & _ & Hres).
  split; [exact Hquiet | exact Hres].
Defined.

Lemma upload_raises_iff_witness :
  let evs := events_of MoreRuns.upload_500 (Sim.init Runs.date []) in
  let ev := EUploadPart "bk" Runs.key_a 1 "uid" [x00]
              (inl (ClientError "500")) in
  (caught (ClientError "500") = false
   /\ In ev evs /\ is_getsize ev = false
   /\ event_exn ev = Some (ClientError "500"))
  /\ fst (MoreRuns.upload_500 (Sim.init Runs.date []))
     = inl (ClientError "500").
Proof.
  intros evs ev.
  assert (Hhyp : caught (ClientError "500") = false
                 /\ In ev evs /\ is_getsize ev = false
                 /\ event_exn ev = Some (ClientError "500"))
    by (vm_compute; auto 10).
  split; [exact Hhyp|]. destruct Hhyp as (Hc & Hev).
  destruct (upload_raises_iff
              (Sim.env [] [x00] 1 (ClientError "500"))
              "/data/a.sql" "bk" "db/2024-03-01/a.sql"
              (Sim.init Runs.date []) (ClientError "500")) as (_ & Hiff).
  apply Hiff. right. split; [exact Hc|]. exists ev. exact Hev.
Defined.

Lemma parts_are_a_prefix_of_the_file_witness :
  let evs := events_of MoreRuns.upload_500 (Sim.init Runs.date []) in
  In (EOpen "/data/a.sql" (inr [x00])) evs
  /\ Forall (fun body => 0 < Z.of_nat (List.length body) <= 5 * 1024 * 1024)
       (part_bodies evs)
  /\ exists rest, [x00] = List.concat (part_bodies evs) ++ rest.
Proof.
  intros evs.
  assert (Hhyp : In (EOpen "/data/a.sql" (inr [x00])) evs)
    by (vm_compute; auto 10).
  split; [exact Hhyp|].
  destruct (parts_are_a_prefix_of_the_file
              (Sim.env [] [x00] 1 (ClientError "500"))
              "/data/a.sql" "bk" "db/2024-03-01/a.sql"
              (Sim.init Runs.date [])) as (Hparts & _).
  destruct (Hparts _ Hhyp) as (Hall & rest & Heq & _).
  split; [exact Hall|]. exists rest. exact Heq.
Defined.

Lemma number_of_parts_witness :
  let evs := events_of Runs.upload_ok (Sim.init Runs.date []) in
  (In (EOpen "/data/a.sql" (inr [x00; x01])) evs
   /\ In ("bk"%string, Runs.key_a, "uid"%string, [Part 1 "etag"], inr tt)
        (completions evs))
  /\ Z.of_nat (List.length [Part 1 "etag"])
     = (Z.of_nat (List.length [x00; x01]) + 5 * 1024 * 1024 - 1)
       / (5 * 1024 * 1024).
Proof.
  intros evs.
  assert (Hhyp : In (EOpen "/data/a.sql" (inr [x00; x01])) evs
                 /\ In ("bk"%string, Runs.key_a, "uid"%string,
                        [Part 1 "etag"], inr tt) (completions evs))
    by (vm_compute; auto 10).
  split; [exact Hhyp|]. destruct Hhyp as [Hopen Hcompl].
  exact (@number_of_parts _ (Sim.env [] [x00; x01] 0 NoCredentialsError)
           "/data/a.sql" "bk" "db/2024-03-01/a.sql"
           (Sim.init Runs.date []) _ _ _ _ _ _ Hopen Hcompl).
Defined.

Lemma empty_pattern_selects_every_file_witness :
  In EmptyString [".sql"%string; EmptyString]
  /\ files_to_backup ["a.sql"; "y.tmp"]%string [".sql"%string; EmptyString]
     = ["a.sql"; "y.tmp"]%string.
Proof.
  assert (Hhyp : In EmptyString [".sql"%string; EmptyString])
    by (simpl; auto).
  split; [exact Hhyp|].
  exact (@empty_pattern_selects_every_file ["a.sql"; "y.tmp"]%string
           [".sql"%string; EmptyString] Hhyp).
Defined.

Lemma selection_depends_on_the_set_of_patterns_witness :
  let patterns1 := [".sql"; ".log"]%string in
  let patterns2 := [".log"; ".sql"; ".sql"]%string in
  (incl patterns1 patterns2 /\ incl patterns2 patterns1)
  /\ files_to_backup ["a.sql"; "y.tmp"; "z.log"]%string patterns1
     = files_to_backup ["a.sql"; "y.tmp"; "z.log"]%string patterns2.
Proof.
  intros patterns1 patterns2.
  assert (Hhyp : incl patterns1 patterns2 /\ incl patterns2 patterns1).
  { split; intros p Hp; simpl in *; intuition. }
  split; [exact Hhyp|]. destruct Hhyp as [H12 H21].
  exact (proj1 (proj2 (selection_depends_on_the_set_of_patterns
                         ["a.sql"; "y.tmp"; "z.log"]%string
                         patterns1 patterns2)) H12 H21).
Defined.

Lemma destination_keys_are_distinct_witness :
  let d1 := Datetime 2024 3 1 in
  let d2 := Datetime 2024 3 2 in
  (valid_date d1 = true /\ valid_date d2 = true)
  /\ (destination_key "db" d1 "a.sql" = destination_key "db" d2 "a.sql" <->
      d1 = d2 /\ "a.sql"%string = "a.sql"%string)
  /\ String.length (destination_key "db" d1 "a.sql") = 19%nat.
Proof.
  intros d1 d2.
  assert (Hhyp : valid_date d1 = true /\ valid_date d2 = true)
    by (split; reflexivity).
  split; [exact Hhyp|]. destruct Hhyp as [H1 H2].
  exact (@destination_keys_are_distinct "db" d1 d2 "a.sql" "a.sql" H1 H2).
Defined.

Lemma run_without_candidates_witness :
  let evs := events_of (backup_job MoreRuns.env_tmp Sim.config)
               Runs.empty_store in
  (cfg_folder Sim.config = Some "/data"%string
   /\ cfg_s3_bucket_name Sim.config = Some "bk"%string
   /\ files_to_backup ["y.tmp"%string]
        (dict_get (cfg_include Sim.config) []) = [])
  /\ evs = [EListdir "/data" (inr ["y.tmp"%string])].
Proof.
  intros evs.
  assert (Hhyp : cfg_folder Sim.config = Some "/data"%string
                 /\ cfg_s3_bucket_name Sim.config = Some "bk"%string
                 /\ files_to_backup ["y.tmp"%string]
                      (dict_get (cfg_include Sim.config) []) = [])
    by (repeat split; reflexivity).
  split; [exact Hhyp|]. destruct Hhyp as (Hf & Hb & Hnone).
  destruct (@run_without_candidates _ MoreRuns.env_tmp Sim.config
              Runs.empty_store "/data" "bk" Hf Hb)
    as (rl & rest & Hevs & _ & Hrest).
  assert (Hhead : evs = EListdir "/data" (inr ["y.tmp"%string]) :: tl evs)
    by reflexivity.
  fold evs in Hevs. rewrite Hevs in Hhead at 1.
  injection Hhead as Hrl _. subst rl.
  rewrite Hevs, (Hrest Hnone). reflexivity.
Defined.

Lemma missing_prefix_is_found_late_witness :
  let evs := events_of (backup_job Runs.env_ok MoreRuns.config_no_prefix)
               Runs.empty_store in
  cfg_prefix MoreRuns.config_no_prefix = None
  /\ exists d,
       tl evs = [ENow d; ELog (LogJobError (KeyError "prefix"))].
Proof.
  intros evs. split; [reflexivity|].
  destruct (@missing_prefix_is_found_late _ Runs.env_ok
              MoreRuns.config_no_prefix Runs.empty_store eq_refl)
    as (_ & Hshape).
  exact (Hshape "/data"%string ["a.sql"; "y.tmp"]%string (tl evs) eq_refl).
Defined.

Lemma checked_files_are_the_first_selected_witness :
  let evs := events_of (backup_job Runs.env_500 Sim.config)
               Runs.empty_store in
  (evs = EListdir "/data" (inr ["a.sql"; "b.sql"]%string) :: tl evs
   /\ cfg_s3_bucket_name Sim.config = Some "bk"%string
   /\ cfg_prefix Sim.config = Some "db"%string
   /\ (List.length (clock evs) < 2)%nat)
  /\ checked evs = [("bk"%string, Runs.key_a)]
  /\ exists e before, evs = before ++ [ELog (LogJobError e)].
Proof.
  intros evs.
  assert (Hhyp : evs = EListdir "/data" (inr ["a.sql"; "b.sql"]%string)
                       :: tl evs
                 /\ cfg_s3_bucket_name Sim.config = Some "bk"%string
                 /\ cfg_prefix Sim.config = Some "db"%string
                 /\ (List.length (clock evs) < 2)%nat)
    by (repeat split; vm_compute; lia).
  split; [exact Hhyp|]. destruct Hhyp as (Hevs & Hb & Hp & Hlt).
  destruct (@checked_files_are_the_first_selected _ Runs.env_500 Sim.config
              Runs.empty_store "/data" "bk" "db" ["a.sql"; "b.sql"]%string
              (tl evs) Hevs Hb Hp) as (_ & Hchecked & Hend).
  split; [etransitivity; [exact Hchecked | reflexivity] | exact (Hend Hlt)].
Defined.

Lemma quiet_upload_completes_witness :
  let evs := events_of (backup_job Runs.env_ok Sim.config)
               Runs.empty_store in
  let before := [EListdir "/data" (inr ["a.sql"; "y.tmp"]%string);
                 ENow Runs.date] in
  let after := skipn 3 evs in
  (evs = before ++ EHead "bk" Runs.key_a (inl (ClientError "404")) :: after
   /\ forallb (fun ev => negb (raising ev) || is_head ev) after = true)
  /\ exists folder filename size uid file pevs rest,
       cfg_folder Sim.config = Some folder
       /\ after
          = EGetsize (os_path_join folder filename) (inr size)
            :: ECreate "bk" Runs.key_a (inr uid)
            :: EOpen (os_path_join folder filename) (inr file)
            :: pevs
            ++ EComplete "bk" Runs.key_a uid (part_entries pevs) (inr tt)
            :: ELog (LogUploaded (os_path_join folder filename) "bk"
                       Runs.key_a) :: rest
       /\ List.concat (part_bodies pevs) = file
       /\ List.length (part_entries pevs) = List.length pevs.
Proof.
  intros evs before after.
  assert (Hhyp : evs = before
                       ++ EHead "bk" Runs.key_a (inl (ClientError "404"))
                       :: after
                 /\ forallb (fun ev => negb (raising ev) || is_head ev) after
                    = true)
    by (split; reflexivity).
  split; [exact Hhyp|]. destruct Hhyp as [Hevs Hquiet].
  apply (@quiet_upload_completes _ Runs.env_ok Sim.config Runs.empty_store
           before "bk" Runs.key_a (ClientError "404") after Hevs).
  intros ev Hin Hr. rewrite forallb_forall in Hquiet.
  specialize (Hquiet _ Hin). rewrite Hr in Hquiet. exact Hquiet.
Defined.

(** * The start of the program

    [configure_logging] and the main block of [main.py], from the first
    line to the log line that follows [scheduler.start()].  The loop
    [while True: pass] that comes next ends only with a
    [KeyboardInterrupt] and is not part of the model; nor are the threads
    of the scheduler.  The calls are answered by an environment of their
    own, and recorded in a trace of their own.

    [config.yaml] is taken to hold a mapping whose [backup_folders], when
    present, is a list of mappings: the values that the main block reads
    with [config[...]] and [folder_config[...]]. *)

Module Startup.

(** One entry of [config['backup_folders']]: the dict that [backup_job]
    receives, and its key [backup_schedule]. *)
Record FolderConfig : Type := {
  fc_config : Config;
  fc_backup_schedule : option string
}.

(** What [yaml.safe_load] returns for [config.yaml]. *)
Record FileConfig : Type := {
  aws_access_key_id : option string;
  aws_secret_access_key : option string;
  backup_folders : option (list FolderConfig)
}.

(** The messages that the main block gives to [logging.info]. *)
Inductive sys_log : Type :=
| LogStarted
| LogProgramError (e : exn).

(** The calls of the start, with their outcomes.  [SLoadConfig] stands
    for [open('config.yaml')] followed by [yaml.safe_load]; a trigger is
    told by the crontab expression it was made from. *)
Inductive sys_event : Type :=
| SExists (path : string) (found : bool)
| SMakedirs (path : string) (r : result unit)
| SNow (d : datetime)
| SBasicConfig (filename : string) (r : result unit)
| SLoadConfig (path : string) (r : result FileConfig)
| SScheduler (r : result unit)
| SClient (access_key secret_key : string) (r : result unit)
| SFromCrontab (expr : string) (r : result unit)
| SAddJob (config : Config) (expr : string) (r : result unit)
| SStart (r : result unit)
| SLog (m : sys_log).

Record SysEnv (W : Type) : Type := {
  os_path_exists : string -> W -> bool * W;
  os_makedirs : string -> W -> result unit * W;
  sys_datetime_now : W -> datetime * W;
  logging_basicConfig : string -> W -> result unit * W;
  load_config : string -> W -> result FileConfig * W;
  BackgroundScheduler : W -> result unit * W;
  boto3_client : string -> string -> W -> result unit * W;
  from_crontab : string -> W -> result unit * W;
  add_job : Config -> string -> W -> result unit * W;
  scheduler_start : W -> result unit * W
}.

Section Program.

Variable W : Type.
Variable env : SysEnv W.

(** The world and the trace of the calls made so far. *)
Definition sys_state : Type := (W * list sys_event)%type.

Definition SM (A : Type) : Type := sys_state -> result A * sys_state.

Definition sret {A} (a : A) : SM A := fun s => (inr a, s).

Definition sraise {A} (e : exn) : SM A := fun s => (inl e, s).

Definition sbind {A B} (m : SM A) (k : A -> SM B) : SM B :=
  fun s =>
    match m s with
    | (inl e, s') => (inl e, s')
    | (inr a, s') => k a s'
    end.

(** [try: body except Exception as e: handler(e)]. *)
Definition stry {A} (body : SM A) (handler : exn -> SM A) : SM A :=
  fun s =>
    match body s with
    | (inl e, s') => handler e s'
    | (inr a, s') => (inr a, s')
    end.

Definition scall {A} (op : W -> result A * W) (ev : result A -> sys_event)
  : SM A :=
  fun s => let (r, w) := op (fst s) in (r, (w, snd s ++ [ev r])).

Definition slog (m : sys_log) : SM unit :=
  fun s => (inr tt, (fst s, snd s ++ [SLog m])).

Definition sgetitem {A} (o : option A) (key : string) : SM A :=
  match o with
  | Some v => sret v
  | None => sraise (KeyError key)
  end.

Definition path_exists (path : string) : SM bool :=
  fun s =>
    let (found, w) := os_path_exists env path (fst s) in
    (inr found, (w, snd s ++ [SExists path found])).

Definition clock_now : SM datetime :=
  fun s =>
    let (d, w) := sys_datetime_now env (fst s) in
    (inr d, (w, snd s ++ [SNow d])).

(** The name of the log file:
    [os.path.join(log_dir, f'{datetime.now().strftime("%Y-%m-%d")}.log')]. *)
Definition log_file (log_dir : string) (d : datetime) : string :=
  os_path_join log_dir (strftime_Y_m_d d ++ ".log").

(** [configure_logging(log_dir)]. *)
Definition configure_logging (log_dir : string) : SM unit :=
  sbind (path_exists log_dir) (fun found =>
  sbind (if negb found
         then scall (os_makedirs env log_dir) (SMakedirs log_dir)
         else sret tt) (fun _ =>
  sbind clock_now (fun d =>
  let log_filename := log_file log_dir d in
  scall (logging_basicConfig env log_filename) (SBasicConfig log_filename)))).

(** The loop [for folder_config in config['backup_folders']]. *)
Fixpoint add_jobs (folders : list FolderConfig) : SM unit :=
  match folders with
  | [] => sret tt
  | folder_config :: rest =>
      sbind (sgetitem (fc_backup_schedule folder_config) "backup_schedule")
        (fun expr =>
      sbind (scall (from_crontab env expr) (SFromCrontab expr)) (fun _ =>
      sbind (scall (add_job env (fc_config folder_config) expr)
               (SAddJob (fc_config folder_config) expr)) (fun _ =>
      add_jobs rest)))
  end.

(** The main block, up to the log line of the start. *)
Definition startup : SM unit :=
  stry
    (sbind (configure_logging "logs") (fun _ =>
     sbind (scall (load_config env "config.yaml") (SLoadConfig "config.yaml"))
       (fun config =>
     sbind (scall (BackgroundScheduler env) SScheduler) (fun _ =>
     sbind (sgetitem (aws_access_key_id config) "aws_access_key_id")
       (fun access =>
     sbind (sgetitem (aws_secret_access_key config) "aws_secret_access_key")
       (fun secret =>
     sbind (scall (boto3_client env access secret) (SClient access secret))
       (fun _ =>
     sbind (sgetitem (backup_folders config) "backup_folders")
       (fun folders =>
     sbind (add_jobs folders) (fun _ =>
     sbind (scall (scheduler_start env) SStart) (fun _ =>
     slog LogStarted))))))))))
    (fun e => slog (LogProgramError e)).

End Program.

Arguments sret {W A} a s.
Arguments sraise {W A} e s.
Arguments sbind {W A B} m k s.
Arguments stry {W A} body handler s.
Arguments scall {W A} op ev s.
Arguments slog {W} m s.
Arguments sgetitem {W A} o key s.

(** The events that a run of [m] from [s] adds to the trace. *)
Definition sys_events_of {W A} (m : SM W A) (s : sys_state W)
  : list sys_event :=
  skipn (List.length (snd s)) (snd (snd (m s))).

(** The exception that a call raised. *)
Definition sys_exn (ev : sys_event) : option exn :=
  match ev with
  | SMakedirs _ (inl e) | SBasicConfig _ (inl e) | SLoadConfig _ (inl e)
  | SScheduler (inl e) | SClient _ _ (inl e) | SFromCrontab _ (inl e)
  | SAddJob _ _ (inl e) | SStart (inl e) => Some e
  | _ => None
  end.

(** The jobs that were added: the dict of the folder and the crontab
    expression of the trigger. *)
Definition jobs_added (evs : list sys_event) : list (Config * string) :=
  flat_map (fun ev =>
    match ev with
    | SAddJob config expr (inr _) => [(config, expr)]
    | _ => []
    end) evs.

(** The dates read from the clock. *)
Definition dates_read (evs : list sys_event) : list datetime :=
  flat_map (fun ev =>
    match ev with
    | SNow d => [d]
    | _ => []
    end) evs.

(** The names of the log files given to [logging.basicConfig]. *)
Definition log_files (evs : list sys_event) : list string :=
  flat_map (fun ev =>
    match ev with
    | SBasicConfig filename _ => [filename]
    | _ => []
    end) evs.

(** A small environment: the folder of the logs is there or not, the
    configuration file holds [file], [from_crontab] raises a [ValueError]
    on the expressions that [valid] rejects, and every other call
    returns. *)
Definition sim (logs_found : bool) (d : datetime) (file : FileConfig)
  (valid : string -> bool) : SysEnv unit := {|
  os_path_exists := fun _ w => (logs_found, w);
  os_makedirs := fun _ w => (inr tt, w);
  sys_datetime_now := fun w => (d, w);
  logging_basicConfig := fun _ w => (inr tt, w);
  load_config := fun _ w => (inr file, w);
  BackgroundScheduler := fun w => (inr tt, w);
  boto3_client := fun _ _ w => (inr tt, w);
  from_crontab := fun expr w =>
    if valid expr then (inr tt, w) else (inl (OtherException "ValueError"), w);
  add_job := fun _ _ w => (inr tt, w);
  scheduler_start := fun w => (inr tt, w)
|}.

(** ** The traces of the start *)

(** The calls of [configure_logging], and its result. *)
Inductive logging_trace (log_dir : string)
  : list sys_event -> result unit -> Prop :=
| logging_trace_found d r :
    logging_trace log_dir
      [SExists log_dir true; SNow d; SBasicConfig (log_file log_dir d) r] r
| logging_trace_makedirs e :
    logging_trace log_dir
      [SExists log_dir false; SMakedirs log_dir (inl e)] (inl e)
| logging_trace_made d r :
    logging_trace log_dir
      [SExists log_dir false; SMakedirs log_dir (inr tt); SNow d;
       SBasicConfig (log_file log_dir d) r] r.

(** The calls of the loop over the folders, and its result. *)
Inductive jobs_trace
  : list FolderConfig -> list sys_event -> result unit -> Prop :=
| jobs_trace_done : jobs_trace [] [] (inr tt)
| jobs_trace_no_schedule fc rest :
    fc_backup_schedule fc = None ->
    jobs_trace (fc :: rest) [] (inl (KeyError "backup_schedule"))
| jobs_trace_crontab fc rest expr e :
    fc_backup_schedule fc = Some expr ->
    jobs_trace (fc :: rest) [SFromCrontab expr (inl e)] (inl e)
| jobs_trace_add fc rest expr e :
    fc_backup_schedule fc = Some expr ->
    jobs_trace (fc :: rest)
      [SFromCrontab expr (inr tt); SAddJob (fc_config fc) expr (inl e)]
      (inl e)
| jobs_trace_next fc rest expr evs r :
    fc_backup_schedule fc = Some expr ->
    jobs_trace rest evs r ->
    jobs_trace (fc :: rest)
      (SFromCrontab expr (inr tt) :: SAddJob (fc_config fc) expr (inr tt)
       :: evs) r.

(** The calls of the body of the [try] of the main block after
    [configure_logging], and its result. *)
Inductive main_trace : list sys_event -> result unit -> Prop :=
| main_trace_load e :
    main_trace [SLoadConfig "config.yaml" (inl e)] (inl e)
| main_trace_scheduler config e :
    main_trace [SLoadConfig "config.yaml" (inr config); SScheduler (inl e)]
      (inl e)
| main_trace_no_access config :
    aws_access_key_id config = None ->
    main_trace [SLoadConfig "config.yaml" (inr config); SScheduler (inr tt)]
      (inl (KeyError "aws_access_key_id"))
| main_trace_no_secret config access :
    aws_access_key_id config = Some access ->
    aws_secret_access_key config = None ->
    main_trace [SLoadConfig "config.yaml" (inr config); SScheduler (inr tt)]
      (inl (KeyError "aws_secret_access_key"))
| main_trace_client config access secret e :
    aws_access_key_id config = Some access ->
    aws_secret_access_key config = Some secret ->
    main_trace
      [SLoadConfig "config.yaml" (inr config); SScheduler (inr tt);
       SClient access secret (inl e)] (inl e)
| main_trace_no_folders config access secret :
    aws_access_key_id config = Some access ->
    aws_secret_access_key config = Some secret ->
    backup_folders config = None ->
    main_trace
      [SLoadConfig "config.yaml" (inr config); SScheduler (inr tt);
       SClient access secret (inr tt)] (inl (KeyError "backup_folders"))
| main_trace_jobs config access secret folders jevs e :
    aws_access_key_id config = Some access ->
    aws_secret_access_key config = Some secret ->
    backup_folders config = Some folders ->
    jobs_trace folders jevs (inl e) ->
    main_trace
      (SLoadConfig "config.yaml" (inr config) :: SScheduler (inr tt)
       :: SClient access secret (inr tt) :: jevs) (inl e)
| main_trace_start_raise config access secret folders jevs e :
    aws_access_key_id config = Some access ->
    aws_secret_access_key config = Some secret ->
    backup_folders config = Some folders ->
    jobs_trace folders jevs (inr tt) ->
    main_trace
      (SLoadConfig "config.yaml" (inr config) :: SScheduler (inr tt)
       :: SClient access secret (inr tt) :: jevs ++ [SStart (inl e)])
      (inl e)
| main_trace_started config access secret folders jevs :
    aws_access_key_id config = Some access ->
    aws_secret_access_key config = Some secret ->
    backup_folders config = Some folders ->
    jobs_trace folders jevs (inr tt) ->
    main_trace
      (SLoadConfig "config.yaml" (inr config) :: SScheduler (inr tt)
       :: SClient access secret (inr tt)
       :: jevs ++ [SStart (inr tt); SLog LogStarted])
      (inr tt).

(** The calls of [startup]: those of [configure_logging], those of the
    rest of the body when it returned, and the log line of the [except]
    clause when one of them raised. *)
Inductive startup_trace : list sys_event -> Prop :=
| startup_trace_logging levs e :
    logging_trace "logs" levs (inl e) ->
    startup_trace (levs ++ [SLog (LogProgramError e)])
| startup_trace_main levs mevs r :
    logging_trace "logs" levs (inr tt) ->
    main_trace mevs r ->
    startup_trace
      (levs ++ mevs ++ match r with
                       | inl e => [SLog (LogProgramError e)]
                       | inr _ => []
                       end).

Section Traces.

Variable W : Type.
Variable env : SysEnv W.

Lemma sys_events_of_eq {A} (m : SM W A) (s : sys_state W) (r : result A)
  (w : W) (evs : list sys_event) :
  m s = (r, (w, snd s ++ evs)) -> sys_events_of m s = evs.
Proof.
  unfold sys_events_of. intros ->. simpl.
  now rewrite skipn_app, skipn_all, Nat.sub_diag.
Qed.

Lemma configure_logging_run (log_dir : string) (s : sys_state W) :
  exists evs r w,
    logging_trace log_dir evs r
    /\ configure_logging env log_dir s = (r, (w, snd s ++ evs)).
Proof.
  destruct s as [w0 tr].
  unfold configure_logging, sbind, path_exists, clock_now, scall. simpl.
  destruct (os_path_exists env log_dir w0) as [[|] w1]; simpl.
  - destruct (sys_datetime_now env w1) as [d w2]; simpl.
    destruct (logging_basicConfig env (log_file log_dir d) w2) as [r w3].
    do 3 eexists. split; [apply logging_trace_found|].
    now rewrite <- !app_assoc.
  - destruct (os_makedirs env log_dir w1) as [[e|[]] w2]; simpl.
    + do 3 eexists. split; [apply logging_trace_makedirs|].
      now rewrite <- !app_assoc.
    + destruct (sys_datetime_now env w2) as [d w3]; simpl.
      destruct (logging_basicConfig env (log_file log_dir d) w3) as [r w4].
      do 3 eexists. split; [apply logging_trace_made|].
      now rewrite <- !app_assoc.
Qed.

Lemma add_jobs_run (folders : list FolderConfig) : forall s : sys_state W,
  exists evs r w,
    jobs_trace folders evs r
    /\ add_jobs env folders s = (r, (w, snd s ++ evs)).
Proof.
  induction folders as [|fc rest IH]; intros [w0 tr]; simpl.
  { exists [], (inr tt), w0. rewrite app_nil_r. split; [constructor|].
    reflexivity. }
  unfold sbind at 1.
  destruct (fc_backup_schedule fc) as [expr|] eqn:Hexpr; simpl.
  2:{ exists [], (inl (KeyError "backup_schedule")), w0. rewrite app_nil_r.
      split; [now constructor | reflexivity]. }
  unfold sbind at 1, scall at 1. simpl.
  destruct (from_crontab env expr w0) as [[e|[]] w1]; simpl.
  { do 3 eexists. split; [|reflexivity]. now apply jobs_trace_crontab. }
  unfold sbind at 1, scall at 1. simpl.
  destruct (add_job env (fc_config fc) expr w1) as [[e|[]] w2]; simpl.
  { exists [SFromCrontab expr (inr tt); SAddJob (fc_config fc) expr (inl e)],
      (inl e), w2.
    split; [now apply jobs_trace_add|]. now rewrite <- !app_assoc. }
  destruct (IH (w2, (tr ++ [SFromCrontab expr (inr tt)])
                    ++ [SAddJob (fc_config fc) expr (inr tt)]))
    as (evs & r & w3 & Htrace & ->).
  exists (SFromCrontab expr (inr tt) :: SAddJob (fc_config fc) expr (inr tt)
          :: evs), r, w3.
  split; [now apply jobs_trace_next|].
  simpl. now rewrite <- !app_assoc.
Qed.

(** Every run of [startup] returns, and its calls form a
    [startup_trace]. *)
Lemma startup_run (s : sys_state W) :
  exists evs w,
    startup_trace evs /\ startup env s = (inr tt, (w, snd s ++ evs)).
Proof.
  unfold startup, stry, sbind at 1.
  destruct (configure_logging_run "logs" s) as (levs & rl & w1 & Hlog & ->).
  destruct rl as [e|[]].
  { exists (levs ++ [SLog (LogProgramError e)]), w1.
    split; [now constructor|]. unfold slog. simpl.
    now rewrite <- app_assoc. }
  assert (Hmain : forall mevs r (w : W) tr,
            main_trace mevs r ->
            tr = snd s ++ levs ++ mevs ->
            exists evs (w' : W),
              startup_trace evs
              /\ match r with
                 | inl e => slog (LogProgramError e) (w, tr)
                 | inr a => (inr a, (w, tr))
                 end = (inr tt, (w', snd s ++ evs))).
  { intros mevs r w tr Hm ->.
    exists (levs ++ mevs ++ match r with
                            | inl e => [SLog (LogProgramError e)]
                            | inr _ => []
                            end), w.
    split; [now apply startup_trace_main|].
    destruct r as [e|[]]; unfold slog; simpl;
      rewrite ?app_nil_r, <- ?app_assoc; reflexivity. }
  unfold sbind at 1, scall at 1. simpl.
  destruct (load_config env "config.yaml" w1) as [[e|config] w2]; simpl.
  { refine (Hmain [SLoadConfig "config.yaml" (inl e)] (inl e) _ _ _ _);
      [constructor | now rewrite <- ?app_assoc]. }
  unfold sbind at 1, scall at 1. simpl.
  destruct (BackgroundScheduler env w2) as [[e|[]] w3]; simpl.
  { refine (Hmain [SLoadConfig "config.yaml" (inr config); SScheduler (inl e)]
              (inl e) _ _ _ _);
      [constructor | now rewrite <- ?app_assoc]. }
  unfold sbind at 1.
  destruct (aws_access_key_id config) as [access|] eqn:Ha; simpl.
  2:{ refine (Hmain [SLoadConfig "config.yaml" (inr config);
                     SScheduler (inr tt)]
                (inl (KeyError "aws_access_key_id")) _ _ _ _);
        [now constructor | now rewrite <- ?app_assoc]. }
  unfold sbind at 1.
  destruct (aws_secret_access_key config) as [secret|] eqn:Hs; simpl.
  2:{ refine (Hmain [SLoadConfig "config.yaml" (inr config);
                     SScheduler (inr tt)]
                (inl (KeyError "aws_secret_access_key")) _ _ _ _);
        [now apply main_trace_no_secret with access
        | now rewrite <- ?app_assoc]. }
  unfold sbind at 1, scall at 1. simpl.
  destruct (boto3_client env access secret w3) as [[e|[]] w4]; simpl.
  { refine (Hmain [SLoadConfig "config.yaml" (inr config);
                   SScheduler (inr tt); SClient access secret (inl e)]
              (inl e) _ _ _ _);
      [now constructor | now rewrite <- ?app_assoc]. }
  unfold sbind at 1.
  destruct (backup_folders config) as [folders|] eqn:Hf; simpl.
  2:{ refine (Hmain [SLoadConfig "config.yaml" (inr config);
                     SScheduler (inr tt); SClient access secret (inr tt)]
                (inl (KeyError "backup_folders")) _ _ _ _);
        [now constructor | now rewrite <- ?app_assoc]. }
  unfold sbind at 1.
  match goal with
  | |- context [add_jobs env folders ?st] =>
      destruct (add_jobs_run folders st) as (jevs & rj & w5 & Hjobs & ->)
  end.
  simpl. destruct rj as [e|[]].
  { refine (Hmain (SLoadConfig "config.yaml" (inr config)
                   :: SScheduler (inr tt) :: SClient access secret (inr tt)
                   :: jevs) (inl e) _ _ _ _);
      [ now apply main_trace_jobs with folders
      | simpl; now rewrite <- ?app_assoc ]. }
  unfold sbind at 1, scall at 1. simpl.
  destruct (scheduler_start env w5) as [[e|[]] w6]; simpl.
  { refine (Hmain (SLoadConfig "config.yaml" (inr config)
                   :: SScheduler (inr tt) :: SClient access secret (inr tt)
                   :: jevs ++ [SStart (inl e)]) (inl e) _ _ _ _);
      [ now apply main_trace_start_raise with folders
      | simpl; now rewrite <- ?app_assoc ]. }
  unfold slog. simpl.
  refine (Hmain (SLoadConfig "config.yaml" (inr config)
                 :: SScheduler (inr tt) :: SClient access secret (inr tt)
                 :: jevs ++ [SStart (inr tt); SLog LogStarted]) (inr tt)
            _ _ _ _);
    [ now apply main_trace_started with folders
    | simpl; now rewrite <- ?app_assoc ].
Qed.

Lemma startup_events (s : sys_state W) :
  startup_trace (sys_events_of (startup env) s).
Proof.
  destruct (startup_run s) as (evs & w & Htrace & Heq).
  apply sys_events_of_eq in Heq. now rewrite Heq.
Qed.

End Traces.

End Startup.

(** ** Properties of the start *)

Import Startup.

Definition logging_kind (ev : sys_event) : bool :=
  match ev with
  | SExists _ _ | SMakedirs _ _ | SNow _ | SBasicConfig _ _ => true
  | _ => false
  end.

Definition job_kind (ev : sys_event) : bool :=
  match ev with
  | SFromCrontab _ _ | SAddJob _ _ _ => true
  | _ => false
  end.

(** No call of the list raised. *)
Definition quiet (evs : list sys_event) : Prop :=
  forall ev, In ev evs -> sys_exn ev = None.

(** How a list of calls ends when the result is [r]: no call raised when
    [r] is a value; when [r] is an exception, the last call raised it and
    no other call raised, or it is the [KeyError] of a missing key and no
    call raised. *)
Definition ends_with (evs : list sys_event) (r : result unit) : Prop :=
  match r with
  | inr _ => quiet evs
  | inl e =>
      (exists before ev,
         evs = before ++ [ev] /\ sys_exn ev = Some e /\ quiet before)
      \/ (exists key, e = KeyError key /\ quiet evs)
  end.

Ltac in_cases H :=
  repeat match type of H with
  | In _ (_ ++ _) => apply in_app_or in H as [H|H]
  | In _ (_ :: _) => destruct H as [H|H]
  | In _ [] => destruct H
  | _ \/ _ => destruct H as [H|H]
  | False => destruct H
  end.

Lemma quiet_app evs1 evs2 : quiet evs1 -> quiet evs2 -> quiet (evs1 ++ evs2).
Proof.
  intros H1 H2 ev Hin. apply in_app_or in Hin as [Hin|Hin]; auto.
Qed.

Lemma quiet_cons ev evs : sys_exn ev = None -> quiet evs -> quiet (ev :: evs).
Proof. intros Hev Hq ev' [<-|Hin]; auto. Qed.

Lemma quiet_nil : quiet [].
Proof. intros ev []. Qed.

Lemma ends_with_app evs1 evs2 r :
  quiet evs1 -> ends_with evs2 r -> ends_with (evs1 ++ evs2) r.
Proof.
  intros H1. destruct r as [e|u]; simpl.
  - intros [(before & ev & -> & Hev & Hq) | (key & -> & Hq)].
    + left. exists (evs1 ++ before), ev. rewrite app_assoc.
      auto using quiet_app.
    + right. exists key. auto using quiet_app.
  - now apply quiet_app.
Qed.

Lemma ends_with_last before ev e :
  quiet before -> sys_exn ev = Some e -> ends_with (before ++ [ev]) (inl e).
Proof. intros Hq Hev. left. eauto. Qed.

Lemma logging_trace_kind log_dir evs r :
  logging_trace log_dir evs r -> forallb logging_kind evs = true.
Proof. now inversion 1. Qed.

Lemma logging_trace_ends log_dir evs r :
  logging_trace log_dir evs r -> ends_with evs r.
Proof.
  inversion 1 as [d r' | e | d r']; subst.
  - destruct r as [e|u].
    + apply (@ends_with_last [SExists log_dir true; SNow d]); [|reflexivity].
      intros ev Hin. in_cases Hin; now subst.
    + intros ev Hin. in_cases Hin; now subst.
  - apply (@ends_with_last [SExists log_dir false]); [|reflexivity].
    intros ev Hin. in_cases Hin; now subst.
  - destruct r as [e|u].
    + apply (@ends_with_last [SExists log_dir false;
                              SMakedirs log_dir (inr tt); SNow d]);
        [|reflexivity].
      intros ev Hin. in_cases Hin; now subst.
    + intros ev Hin. in_cases Hin; now subst.
Qed.

Lemma jobs_trace_kind folders evs r :
  jobs_trace folders evs r -> forallb job_kind evs = true.
Proof. induction 1; simpl; auto. Qed.

Lemma jobs_trace_ends folders evs r :
  jobs_trace folders evs r -> ends_with evs r.
Proof.
  induction 1 as
    [ | fc rest Hs | fc rest expr e Hs | fc rest expr e Hs
    | fc rest expr evs r Hs Hrun IH ].
  - exact quiet_nil.
  - right. exists "backup_schedule"%string. split; [reflexivity|].
    exact quiet_nil.
  - apply (@ends_with_last []); [exact quiet_nil | reflexivity].
  - apply (@ends_with_last [SFromCrontab expr (inr tt)]); [|reflexivity].
    intros ev Hin. in_cases Hin; now subst.
  - apply (@ends_with_app [SFromCrontab expr (inr tt);
                           SAddJob (fc_config fc) expr (inr tt)]);
      [|assumption].
    intros ev Hin. in_cases Hin; now subst.
Qed.

(** A loop that ends normally has added one job for every folder, in
    order, with the trigger of its [backup_schedule]. *)
Lemma jobs_trace_added folders evs :
  jobs_trace folders evs (inr tt) ->
  map fc_config folders = map fst (jobs_added evs)
  /\ map fc_backup_schedule folders
     = map (fun j => Some (snd j)) (jobs_added evs).
Proof.
  remember (inr tt) as r eqn:Hr. intros Hrun. revert Hr.
  induction Hrun as
    [ | fc rest Hs | fc rest expr e Hs | fc rest expr e Hs
    | fc rest expr evs r Hs Hrun IH ];
    intros Hr; try discriminate.
  - auto.
  - destruct (IH Hr) as [IH1 IH2]. simpl. fold (jobs_added evs).
    now rewrite IH1, IH2, Hs.
Qed.

(** A folder without [backup_schedule] ends the loop: no job is added
    for it nor for the folders after it. *)
Lemma jobs_trace_stops folders1 fc folders2 : forall evs r,
  jobs_trace (folders1 ++ fc :: folders2) evs r ->
  fc_backup_schedule fc = None ->
  (exists e, r = inl e)
  /\ (List.length (jobs_added evs) <= List.length folders1)%nat.
Proof.
  induction folders1 as [|fc1 folders1 IH]; intros evs r Hrun Hnone;
    simpl in Hrun; inversion Hrun; subst; simpl;
    try congruence; try (split; [eauto | lia]).
  match goal with
  | Hrest : jobs_trace (folders1 ++ _) _ _ |- _ =>
      destruct (IH _ _ Hrest Hnone) as [He Hlen]
  end.
  split; [assumption|]. fold (jobs_added evs0). lia.
Qed.

Lemma flat_map_none {A B} (f : A -> list B) (p : A -> bool) (l : list A) :
  forallb p l = true -> (forall x, p x = true -> f x = []) ->
  flat_map f l = [].
Proof.
  intros Hall Hf. induction l as [|x l IH]; [reflexivity|].
  simpl in *. apply andb_true_iff in Hall as [Hx Hl].
  now rewrite (Hf x Hx), IH.
Qed.

Lemma kind_not_in (p : sys_event -> bool) evs ev :
  forallb p evs = true -> p ev = false -> ~ In ev evs.
Proof.
  intros Hall Hev Hin. rewrite forallb_forall in Hall.
  rewrite (Hall _ Hin) in Hev. discriminate.
Qed.

(** The calls of the main block after [configure_logging]: none is a
    call of [configure_logging]; the log line of the start is the last
    event, after [scheduler.start()], when the body returns, and there is
    no log line otherwise; the configuration is loaded first, and once;
    the scheduler is started, if at all, after the loop over the folders
    ended normally. *)
Definition main_shape (mevs : list sys_event) (r : result unit) : Prop :=
  forallb (fun ev => negb (logging_kind ev)) mevs = true
  /\ match r with
     | inl _ => forall m, ~ In (SLog m) mevs
     | inr _ =>
         exists before,
           mevs = before ++ [SStart (inr tt); SLog LogStarted]
           /\ forall m, ~ In (SLog m) before
     end
  /\ (forall config, In (SLoadConfig "config.yaml" (inr config)) mevs ->
      exists rest, mevs = SLoadConfig "config.yaml" (inr config) :: rest)
  /\ (forall rs, In (SStart rs) mevs ->
      exists config access secret folders jevs tail,
        mevs = SLoadConfig "config.yaml" (inr config) :: SScheduler (inr tt)
               :: SClient access secret (inr tt) :: jevs ++ SStart rs :: tail
        /\ aws_access_key_id config = Some access
        /\ aws_secret_access_key config = Some secret
        /\ backup_folders config = Some folders
        /\ jobs_trace folders jevs (inr tt)
        /\ (tail = [] \/ tail = [SLog LogStarted])).

Ltac explicit_shape :=
  split; [reflexivity|];
  split; [intros m H; in_cases H; discriminate|];
  split;
  [ intros c H; in_cases H; try discriminate; injection H as <-;
    eexists; reflexivity
  | intros rs H; in_cases H; discriminate ].

Lemma jobs_trace_job_kind folders jevs rj ev :
  jobs_trace folders jevs rj -> In ev jevs -> job_kind ev = true.
Proof.
  intros Hrun Hin. apply jobs_trace_kind in Hrun.
  rewrite forallb_forall in Hrun. auto.
Qed.

Lemma jobs_trace_not_logging folders jevs rj :
  jobs_trace folders jevs rj ->
  forallb (fun ev => negb (logging_kind ev)) jevs = true.
Proof.
  intros Hrun. apply forallb_forall. intros ev Hin.
  apply (@jobs_trace_job_kind _ _ _ _ Hrun) in Hin. now destruct ev.
Qed.

Lemma main_trace_shape mevs r : main_trace mevs r -> main_shape mevs r.
Proof.
  intros Hmain. unfold main_shape.
  inversion Hmain as
    [ e | config e | config Ha | config access Ha Hs
    | config access secret e Ha Hs | config access secret Ha Hs Hf
    | config access secret folders jevs e Ha Hs Hf Hjobs
    | config access secret folders jevs e Ha Hs Hf Hjobs
    | config access secret folders jevs Ha Hs Hf Hjobs ]; subst;
    try explicit_shape.
  - split; [simpl; now apply jobs_trace_not_logging with folders (inl e)|].
    split; [|split].
    + intros m H. in_cases H; try discriminate.
      now apply (@jobs_trace_job_kind _ _ _ _ Hjobs) in H.
    + intros c H. in_cases H; try discriminate.
      * injection H as <-. eexists. reflexivity.
      * now apply (@jobs_trace_job_kind _ _ _ _ Hjobs) in H.
    + intros rs H. in_cases H; try discriminate.
      now apply (@jobs_trace_job_kind _ _ _ _ Hjobs) in H.
  - split.
    { simpl. rewrite forallb_app, (jobs_trace_not_logging Hjobs).
      reflexivity. }
    split; [|split].
    + intros m H. in_cases H; try discriminate.
      now apply (@jobs_trace_job_kind _ _ _ _ Hjobs) in H.
    + intros c H. in_cases H; try discriminate.
      * injection H as <-. eexists. reflexivity.
      * now apply (@jobs_trace_job_kind _ _ _ _ Hjobs) in H.
    + intros rs H. in_cases H; try discriminate.
      * now apply (@jobs_trace_job_kind _ _ _ _ Hjobs) in H.
      * injection H as <-.
        exists config, access, secret, folders, jevs, []. auto 10.
  - split.
    { simpl. rewrite forallb_app, (jobs_trace_not_logging Hjobs).
      reflexivity. }
    split; [|split].
    + exists (SLoadConfig "config.yaml" (inr config) :: SScheduler (inr tt)
              :: SClient access secret (inr tt) :: jevs).
      split; [reflexivity|].
      intros m H. in_cases H; try discriminate.
      now apply (@jobs_trace_job_kind _ _ _ _ Hjobs) in H.
    + intros c H. in_cases H; try discriminate.
      * injection H as <-. eexists. reflexivity.
      * now apply (@jobs_trace_job_kind _ _ _ _ Hjobs) in H.
    + intros rs H. in_cases H; try discriminate.
      * now apply (@jobs_trace_job_kind _ _ _ _ Hjobs) in H.
      * injection H as <-.
        exists config, access, secret, folders, jevs, [SLog LogStarted].
        auto 10.
Qed.

Lemma main_trace_ends mevs r : main_trace mevs r -> ends_with mevs r.
Proof.
  assert (Hq3 : forall config access secret,
            quiet [SLoadConfig "config.yaml" (inr config);
                   SScheduler (inr tt); SClient access secret (inr tt)]).
  { intros config access secret ev Hin. in_cases Hin; now subst. }
  assert (Hq2 : forall config,
            quiet [SLoadConfig "config.yaml" (inr config);
                   SScheduler (inr tt)]).
  { intros config ev Hin. in_cases Hin; now subst. }
  assert (Hq1 : forall config,
            quiet [SLoadConfig "config.yaml" (inr config)]).
  { intros config ev Hin. in_cases Hin; now subst. }
  inversion 1 as
    [ e | config e | config Ha | config access Ha Hs
    | config access secret e Ha Hs | config access secret Ha Hs Hf
    | config access secret folders jevs e Ha Hs Hf Hjobs
    | config access secret folders jevs e Ha Hs Hf Hjobs
    | config access secret folders jevs Ha Hs Hf Hjobs ]; subst.
  - apply (@ends_with_last []); [exact quiet_nil | reflexivity].
  - apply (@ends_with_last [SLoadConfig "config.yaml" (inr config)]);
      [apply Hq1 | reflexivity].
  - right. exists "aws_access_key_id"%string. split; [reflexivity|].
    apply Hq2.
  - right. exists "aws_secret_access_key"%string. split; [reflexivity|].
    apply Hq2.
  - apply (@ends_with_last [SLoadConfig "config.yaml" (inr config);
                            SScheduler (inr tt)]);
      [apply Hq2 | reflexivity].
  - right. exists "backup_folders"%string. split; [reflexivity|].
    apply Hq3.
  - apply (@ends_with_app [SLoadConfig "config.yaml" (inr config);
                           SScheduler (inr tt);
                           SClient access secret (inr tt)]);
      [apply Hq3 | now apply jobs_trace_ends with folders].
  - apply (@ends_with_last
             ([SLoadConfig "config.yaml" (inr config); SScheduler (inr tt);
               SClient access secret (inr tt)] ++ jevs));
      [|reflexivity].
    apply quiet_app; [apply Hq3 | now apply jobs_trace_ends in Hjobs].
  - apply (@quiet_app [SLoadConfig "config.yaml" (inr config);
                       SScheduler (inr tt); SClient access secret (inr tt)]);
      [apply Hq3|].
    apply quiet_app; [now apply jobs_trace_ends in Hjobs|].
    intros ev Hin. in_cases Hin; now subst.
Qed.

(** A folder without [backup_schedule] in the configuration that was
    loaded: the scheduler is not started, no job is added for this folder
    nor for the folders after it, and the body raises. *)
Lemma main_trace_bad_entry mevs r config folders1 fc folders2 :
  main_trace mevs r ->
  In (SLoadConfig "config.yaml" (inr config)) mevs ->
  backup_folders config = Some (folders1 ++ fc :: folders2) ->
  fc_backup_schedule fc = None ->
  (forall rs, ~ In (SStart rs) mevs)
  /\ (List.length (jobs_added mevs) <= List.length folders1)%nat
  /\ exists e, r = inl e.
Proof.
  intros Hmain Hin Hfolders Hnone.
  destruct (main_trace_shape Hmain) as (_ & _ & Hload & _).
  destruct (Hload _ Hin) as (rest & Heq). clear Hload Hin.
  inversion Hmain as
    [ e | config' e | config' Ha | config' access Ha Hs
    | config' access secret e Ha Hs | config' access secret Ha Hs Hf
    | config' access secret folders jevs e Ha Hs Hf Hjobs
    | config' access secret folders jevs e Ha Hs Hf Hjobs
    | config' access secret folders jevs Ha Hs Hf Hjobs ]; subst;
    try discriminate;
    match goal with
    | Hq : _ :: _ = _ :: _ |- _ => injection Hq as -> <-
    end;
    try (split; [intros rs H; in_cases H; discriminate|];
         split; [simpl; lia | eauto]).
  - rewrite Hfolders in Hf. injection Hf as <-.
    destruct (jobs_trace_stops _ _ _ Hjobs Hnone) as [_ Hlen].
    split; [|split; [exact Hlen | eauto]].
    intros rs H. in_cases H; try discriminate.
    now apply (@jobs_trace_job_kind _ _ _ _ Hjobs) in H.
  - rewrite Hfolders in Hf. injection Hf as <-.
    destruct (jobs_trace_stops _ _ _ Hjobs Hnone) as [[e' He] _].
    discriminate.
  - rewrite Hfolders in Hf. injection Hf as <-.
    destruct (jobs_trace_stops _ _ _ Hjobs Hnone) as [[e' He] _].
    discriminate.
Qed.

Lemma digit_not_slash (n : N) : Ascii.eqb (digit n) "/" = false.
Proof.
  destruct (Ascii.eqb_spec (digit n) "/") as [Heq|]; [|reflexivity].
  unfold digit in Heq. apply (f_equal N_of_ascii) in Heq.
  pose proof (N.mod_lt n 10 ltac:(discriminate)) as Hn.
  rewrite N_ascii_embedding in Heq by lia.
  change (N_of_ascii "/") with 47%N in Heq.
  exfalso. clear Hn. revert Heq. generalize (n mod 10)%N. lia.
Qed.

(** The log file of the program: [logs/YYYY-MM-DD.log]. *)
Lemma log_file_logs (d : datetime) :
  log_file "logs" d = ("logs/" ++ strftime_Y_m_d d ++ ".log")%string.
Proof.
  unfold log_file, os_path_join.
  assert (Hs : startswith_slash (strftime_Y_m_d d ++ ".log") = false).
  { rewrite strftime_shape. cbn [append startswith_slash].
    apply digit_not_slash. }
  rewrite Hs. reflexivity.
Qed.

Lemma not_logging_projections evs :
  forallb (fun ev => negb (logging_kind ev)) evs = true ->
  dates_read evs = [] /\ log_files evs = [].
Proof.
  intros Hall.
  split; apply flat_map_none with (p := fun ev => negb (logging_kind ev));
    try assumption; intros ev Hev; now destruct ev.
Qed.

Lemma logging_trace_no_jobs log_dir levs r :
  logging_trace log_dir levs r -> jobs_added levs = [].
Proof. now inversion 1. Qed.

Lemma logging_trace_not_in log_dir levs r ev :
  logging_trace log_dir levs r -> logging_kind ev = false -> ~ In ev levs.
Proof.
  intros Hlog. apply kind_not_in. now apply logging_trace_kind in Hlog.
Qed.

Lemma jobs_added_app evs1 evs2 :
  jobs_added (evs1 ++ evs2) = jobs_added evs1 ++ jobs_added evs2.
Proof. apply flat_map_app. Qed.

Lemma dates_read_app evs1 evs2 :
  dates_read (evs1 ++ evs2) = dates_read evs1 ++ dates_read evs2.
Proof. apply flat_map_app. Qed.

Lemma log_files_app evs1 evs2 :
  log_files (evs1 ++ evs2) = log_files evs1 ++ log_files evs2.
Proof. apply flat_map_app. Qed.

Lemma main_tail_not_logging mevs r :
  main_trace mevs r ->
  forallb (fun ev => negb (logging_kind ev))
    (mevs ++ match r with
             | inl e => [SLog (LogProgramError e)]
             | inr _ => []
             end) = true.
Proof.
  intros Hmain. apply main_trace_shape in Hmain as (Hkind & _).
  rewrite forallb_app, Hkind. now destruct r.
Qed.

Section Start.

Variable W : Type.
Variable env : SysEnv W.

(** The log file is named after the day of the start, once and for all.
    A run of the start reads the clock at most once, the file given to
    [logging.basicConfig] is [logs/YYYY-MM-DD.log] for the date read, and
    the folder [logs] was found or made before: the name does not follow
    the days on which the jobs run. *)
Theorem log_file_is_named_after_the_start_day (s : sys_state W) :
  let evs := sys_events_of (startup env) s in
  (List.length (dates_read evs) <= 1)%nat
  /\ log_files evs
     = map (fun d => ("logs/" ++ strftime_Y_m_d d ++ ".log")%string)
         (dates_read evs)
  /\ (forall d, In (SNow d) evs ->
      exists found rest,
        evs = SExists "logs" found :: rest
        /\ (found = false ->
            exists rest', rest = SMakedirs "logs" (inr tt) :: rest')).
Proof.
  intros evs. subst evs.
  pose proof (startup_events env s) as Htrace.
  assert (Hlog : forall levs r tail,
    logging_trace "logs" levs r ->
    forallb (fun ev => negb (logging_kind ev)) tail = true ->
    (List.length (dates_read (levs ++ tail)) <= 1)%nat
    /\ log_files (levs ++ tail)
       = map (fun d => ("logs/" ++ strftime_Y_m_d d ++ ".log")%string)
           (dates_read (levs ++ tail))
    /\ (forall d, In (SNow d) (levs ++ tail) ->
        exists found rest,
          levs ++ tail = SExists "logs" found :: rest
          /\ (found = false ->
              exists rest', rest = SMakedirs "logs" (inr tt) :: rest'))).
  { intros levs r tail Hl Htail.
    destruct (not_logging_projections _ Htail) as [Hd Hf].
    rewrite dates_read_app, log_files_app, Hd, Hf, !app_nil_r.
    inversion Hl as [d r' | e | d r']; subst; simpl;
      rewrite ?log_file_logs;
      (split; [lia|]); (split; [reflexivity|]); intros d' Hin.
    - exists true. eexists. split; [reflexivity | discriminate].
    - exfalso. in_cases Hin; try discriminate.
      revert Hin. now apply kind_not_in with (p := fun ev =>
                                                 negb (logging_kind ev)).
    - exists false. eexists. split; [reflexivity|]. intros _. eauto. }
  inversion Htrace as [levs e Hl | levs mevs r Hl Hm].
  - now apply Hlog with (inl e).
  - apply Hlog with (inr tt); [assumption|].
    now apply main_tail_not_logging.
Qed.

(** The start never raises an [Exception].  Its last event is a log
    line, and its only one: the line of the start, right after
    [scheduler.start()] returned and when no call raised; or the line of
    the [except] clause with the exception [e], when the last call before
    it raised [e], or when [e] is the [KeyError] of a key that the
    configuration does not hold. *)
Theorem startup_never_raises (s : sys_state W) :
  let evs := sys_events_of (startup env) s in
  fst (startup env s) = inr tt
  /\ exists before m,
       evs = before ++ [SLog m]
       /\ (forall m', ~ In (SLog m') before)
       /\ match m with
          | LogStarted =>
              quiet before
              /\ exists before', before = before' ++ [SStart (inr tt)]
          | LogProgramError e => ends_with before (inl e)
          end.
Proof.
  intros evs. subst evs. split.
  { destruct (startup_run env s) as (evs & w & _ & ->). reflexivity. }
  pose proof (startup_events env s) as Htrace.
  inversion Htrace as [levs e Hl | levs mevs r Hl Hm].
  - exists levs, (LogProgramError e). split; [reflexivity|]. split.
    + intros m'. now apply (@logging_trace_not_in _ _ _ _ Hl).
    + now apply logging_trace_ends in Hl.
  - pose proof (logging_trace_ends Hl) as Hquiet. simpl in Hquiet.
    pose proof (main_trace_ends Hm) as Hends.
    destruct (main_trace_shape Hm) as (_ & Hlogs & _).
    destruct r as [e|[]].
    + exists (levs ++ mevs), (LogProgramError e).
      split; [now rewrite app_assoc|]. split.
      * intros m' Hin. apply in_app_or in Hin as [Hin|Hin].
        -- revert Hin. now apply (@logging_trace_not_in _ _ _ _ Hl).
        -- now apply (Hlogs m').
      * now apply ends_with_app.
    + destruct Hlogs as (before & -> & Hnone).
      exists (levs ++ before ++ [SStart (inr tt)]), LogStarted.
      split; [|split; [|split]].
      * rewrite app_nil_r, <- !app_assoc. reflexivity.
      * intros m' Hin. in_cases Hin; try discriminate.
        -- revert Hin. now apply (@logging_trace_not_in _ _ _ _ Hl).
        -- now apply (Hnone m').
      * apply quiet_app; [assumption|].
        intros ev Hin. apply Hends. apply in_or_app.
        in_cases Hin; [now left | subst; right; now left].
      * exists (levs ++ before). now rewrite app_assoc.
Qed.

(** The scheduler is started only with every job.  When
    [scheduler.start()] is called, the configuration was loaded, the S3
    client was made with its two keys, no call before raised, and one
    job was added for every entry of [backup_folders], in order, each
    with the dict of the entry and the trigger of its [backup_schedule];
    no job is added afterwards. *)
Theorem scheduler_starts_with_every_job (s : sys_state W)
  (r : result unit) :
  let evs := sys_events_of (startup env) s in
  In (SStart r) evs ->
  exists config access secret folders before after,
    evs = before ++ SStart r :: after
    /\ In (SLoadConfig "config.yaml" (inr config)) before
    /\ aws_access_key_id config = Some access
    /\ aws_secret_access_key config = Some secret
    /\ In (SClient access secret (inr tt)) before
    /\ backup_folders config = Some folders
    /\ map fc_config folders = map fst (jobs_added before)
    /\ map fc_backup_schedule folders
       = map (fun j => Some (snd j)) (jobs_added before)
    /\ quiet before
    /\ jobs_added after = [].
Proof.
  intros evs. subst evs.
  pose proof (startup_events env s) as Htrace.
  inversion Htrace as [levs e Hl Hev | levs mevs r0 Hl Hm Hev]; intros Hin.
  - exfalso. in_cases Hin; try discriminate.
    revert Hin. now apply (@logging_trace_not_in _ _ _ _ Hl).
  - assert (Hmevs : In (SStart r) mevs).
    { in_cases Hin; [exfalso | assumption | exfalso].
      - revert Hin. now apply (@logging_trace_not_in _ _ _ _ Hl).
      - destruct r0; in_cases Hin; discriminate. }
    destruct (main_trace_shape Hm) as (_ & _ & _ & Hstart).
    destruct (Hstart _ Hmevs)
      as (config & access & secret & folders & jevs & tail & -> & Ha & Hs
          & Hf & Hjobs & Htail).
    destruct (jobs_trace_added Hjobs) as [Hc Hsched].
    exists config, access, secret, folders,
      (levs ++ SLoadConfig "config.yaml" (inr config) :: SScheduler (inr tt)
       :: SClient access secret (inr tt) :: jevs),
      (tail ++ match r0 with
               | inl e => [SLog (LogProgramError e)]
               | inr _ => []
               end).
    split; [simpl; now rewrite <- !app_assoc|].
    split; [apply in_or_app; right; now left|].
    split; [assumption|]. split; [assumption|].
    split; [apply in_or_app; right; do 2 right; now left|].
    split; [assumption|].
    rewrite jobs_added_app, (logging_trace_no_jobs Hl).
    split; [exact Hc|]. split; [exact Hsched|]. split.
    + apply quiet_app; [exact (logging_trace_ends Hl)|].
      apply jobs_trace_ends in Hjobs.
      intros ev Hev'. in_cases Hev'; subst; auto.
    + destruct Htail as [-> | ->]; now destruct r0.
Qed.

(** One entry without [backup_schedule] keeps every folder from being
    backed up.  When an entry of the [backup_folders] that were loaded
    has no [backup_schedule], the scheduler is never started, although
    the jobs of the entries before it may have been added; the run ends
    with the log line of the [except] clause. *)
Theorem entry_without_schedule_stops_the_start (s : sys_state W)
  (config : FileConfig) (folders1 : list FolderConfig) (fc : FolderConfig)
  (folders2 : list FolderConfig) :
  let evs := sys_events_of (startup env) s in
  In (SLoadConfig "config.yaml" (inr config)) evs ->
  backup_folders config = Some (folders1 ++ fc :: folders2) ->
  fc_backup_schedule fc = None ->
  (forall r, ~ In (SStart r) evs)
  /\ (List.length (jobs_added evs) <= List.length folders1)%nat
  /\ exists e before, evs = before ++ [SLog (LogProgramError e)].
Proof.
  intros evs. subst evs.
  pose proof (startup_events env s) as Htrace.
  inversion Htrace as [levs e Hl Hev | levs mevs r0 Hl Hm Hev];
    intros Hin Hfolders Hnone.
  - exfalso. in_cases Hin; try discriminate.
    revert Hin. now apply (@logging_trace_not_in _ _ _ _ Hl).
  - assert (Hmevs : In (SLoadConfig "config.yaml" (inr config)) mevs).
    { in_cases Hin; [exfalso | assumption | exfalso].
      - revert Hin. now apply (@logging_trace_not_in _ _ _ _ Hl).
      - destruct r0; in_cases Hin; discriminate. }
    destruct (@main_trace_bad_entry _ _ _ _ _ _ Hm Hmevs Hfolders Hnone)
      as (Hnostart & Hlen & e & ->).
    split; [|split].
    + intros r Hr. in_cases Hr; try discriminate.
      * revert Hr. now apply (@logging_trace_not_in _ _ _ _ Hl).
      * now apply (Hnostart r).
    + rewrite !jobs_added_app, (logging_trace_no_jobs Hl). simpl.
      now rewrite app_nil_r.
    + exists e, (levs ++ mevs). now rewrite app_assoc.
Qed.

End Start.

(** ** Runs of the start on the small environment *)

Module StartRuns.

Definition folder_a : FolderConfig := {|
  fc_config := Sim.config;
  fc_backup_schedule := Some "0 1 * * *"%string
|}.

Definition folder_b : FolderConfig := {|
  fc_config := MoreRuns.config_no_prefix;
  fc_backup_schedule := None
|}.

(** A configuration of one folder, and one whose second folder has no
    [backup_schedule]. *)
Definition file_ok : FileConfig := {|
  aws_access_key_id := Some "AK"%string;
  aws_secret_access_key := Some "SK"%string;
  backup_folders := Some [folder_a]
|}.

Definition file_bad : FileConfig := {|
  aws_access_key_id := Some "AK"%string;
  aws_secret_access_key := Some "SK"%string;
  backup_folders := Some [folder_a; folder_b]
|}.

Definition env_ok : SysEnv unit :=
  sim false Runs.date file_ok (fun _ => true).

Definition env_bad : SysEnv unit :=
  sim true Runs.date file_bad (fun _ => true).

Definition init : sys_state unit := (tt, []).

End StartRuns.

Lemma log_file_is_named_after_the_start_day_witness :
  let evs := sys_events_of (startup StartRuns.env_ok) StartRuns.init in
  In (SNow Runs.date) evs
  /\ log_files evs = ["logs/2024-03-01.log"%string]
  /\ exists found rest, evs = SExists "logs" found :: rest.
Proof.
  intros evs.
  assert (Hhyp : In (SNow Runs.date) evs) by (vm_compute; auto 10).
  split; [exact Hhyp|].
  destruct (log_file_is_named_after_the_start_day StartRuns.env_ok
              StartRuns.init) as (_ & Hfile & Hdir).
  split; [etransitivity; [exact Hfile | reflexivity]|].
  destruct (Hdir _ Hhyp) as (found & rest & Hevs & _).
  exists found, rest. exact Hevs.
Defined.

Lemma startup_never_raises_witness :
  fst (startup StartRuns.env_bad StartRuns.init) = inr tt.
Proof.
  exact (proj1 (startup_never_raises StartRuns.env_bad StartRuns.init)).
Defined.

Lemma scheduler_starts_with_every_job_witness :
  let evs := sys_events_of (startup StartRuns.env_ok) StartRuns.init in
  In (SStart (inr tt)) evs
  /\ exists config folders before after,
       evs = before ++ SStart (inr tt) :: after
       /\ backup_folders config = Some folders
       /\ map fc_config folders = map fst (jobs_added before).
Proof.
  intros evs.
  assert (Hhyp : In (SStart (inr tt)) evs) by (vm_compute; auto 20).
  split; [exact Hhyp|].
  destruct (@scheduler_starts_with_every_job _ StartRuns.env_ok
              StartRuns.init (inr tt) Hhyp)
    as (config & access & secret & folders & before & after & Hevs & _ & _
        & _ & _ & Hf & Hc & _).
  exists config, folders, before, after. auto.
Defined.

Lemma entry_without_schedule_stops_the_start_witness :
  let evs := sys_events_of (startup StartRuns.env_bad) StartRuns.init in
  (In (SLoadConfig "config.yaml" (inr StartRuns.file_bad)) evs
   /\ backup_folders StartRuns.file_bad
      = Some ([StartRuns.folder_a] ++ StartRuns.folder_b :: [])
   /\ fc_backup_schedule StartRuns.folder_b = None)
  /\ (forall r, ~ In (SStart r) evs)
  /\ (List.length (jobs_added evs) <= 1)%nat.
Proof.
  intros evs.
  assert (Hhyp : In (SLoadConfig "config.yaml" (inr StartRuns.file_bad)) evs
                 /\ backup_folders StartRuns.file_bad
                    = Some ([StartRuns.folder_a] ++ StartRuns.folder_b :: [])
                 /\ fc_backup_schedule StartRuns.folder_b = None)
    by (vm_compute; auto 10).
  split; [exact Hhyp|]. destruct Hhyp as (Hin & Hf & Hnone).
  destruct (@entry_without_schedule_stops_the_start _ StartRuns.env_bad
              StartRuns.init _ _ _ _ Hin Hf Hnone) as (Hstart & Hlen & _).
  split; [exact Hstart | exact Hlen].
Defined.
